(** * Venue resolution and matching engine (agents/venue_agent.py)

    A shallow embedding of the venue agent of the birthday planner: text
    normalisation, the cuisine matcher, the venue-name extractor, the
    resolver, the fallback search and the orchestrating [process_request],
    followed by the properties the specification states about them.

    Python strings are sequences of Unicode code points; they are modelled
    as [list N].  The builtins [str.lower] and [str.casefold] and the
    services behind [utils/maps_api.py] are interfaces (type classes); a
    Latin instance of the former and table-driven instances of the latter
    are used to run the definitions on concrete inputs. *)

From Stdlib Require Import String Ascii DecimalString.
From stdpp Require Import base tactics option list numbers gmap.

Set Default Proof Using "Type".
Local Open Scope N_scope.

(** ** Strings *)

Module Str.

Abbreviation char := N (only parsing).
Abbreviation str := (list N) (only parsing).

(** Literals are written as UTF-8 text and decoded to code points. *)
Fixpoint bytes_of (s : string) : list N :=
  match s with
  | EmptyString => []
  | String a r => N_of_ascii a :: bytes_of r
  end.

Fixpoint decode (bs : list N) : str :=
  match bs with
  | [] => []
  | b :: r =>
    if b <? 128 then b :: decode r
    else if b <? 224 then
      match r with
      | c1 :: r1 => ((b - 192) * 64 + (c1 - 128)) :: decode r1
      | _ => []
      end
    else if b <? 240 then
      match r with
      | c1 :: c2 :: r2 =>
        ((b - 224) * 4096 + (c1 - 128) * 64 + (c2 - 128)) :: decode r2
      | _ => []
      end
    else
      match r with
      | c1 :: c2 :: c3 :: r3 =>
        ((b - 240) * 262144 + (c1 - 128) * 4096 + (c2 - 128) * 64 + (c3 - 128))
          :: decode r3
      | _ => []
      end
  end.

Definition utf8 (s : string) : str := decode (bytes_of s).

(** [takewhile]/[dropwhile]: the longest prefix satisfying [p] and the rest. *)
Fixpoint takewhile {A} (p : A → bool) (l : list A) : list A :=
  match l with
  | x :: r => if p x then x :: takewhile p r else []
  | [] => []
  end.

Fixpoint dropwhile {A} (p : A → bool) (l : list A) : list A :=
  match l with
  | x :: r => if p x then dropwhile p r else l
  | [] => []
  end.

(** [str.isspace] on one code point (also what [\s] matches in [re]). *)
Definition isspace (c : char) : bool :=
  ((9 <=? c) && (c <=? 13)) || ((28 <=? c) && (c <=? 32))
  || (c =? 133) || (c =? 160) || (c =? 5760)
  || ((8192 <=? c) && (c <=? 8202))
  || (c =? 8232) || (c =? 8233) || (c =? 8239) || (c =? 8287) || (c =? 12288).

(** [s.strip()] *)
Definition lstrip (s : str) : str := dropwhile isspace s.
Definition rstrip (s : str) : str := rev (dropwhile isspace (rev s)).
Definition strip (s : str) : str := rstrip (lstrip s).

(** [s.split()]: maximal runs of non-space characters. *)
Fixpoint split_from (cur : str) (s : str) : list str :=
  match s with
  | [] => match cur with [] => [] | _ => [rev cur] end
  | c :: r =>
    if isspace c
    then match cur with [] => split_from [] r | _ => rev cur :: split_from [] r end
    else split_from (c :: cur) r
  end.

Definition split (s : str) : list str := split_from [] s.

(** [s.splitlines()]: CR LF counts as one boundary, and a final boundary
    does not open an empty last line. *)
Definition islinebreak (c : char) : bool :=
  ((10 <=? c) && (c <=? 13)) || ((28 <=? c) && (c <=? 30))
  || (c =? 133) || (c =? 8232) || (c =? 8233).

Fixpoint splitlines_from (cur : str) (s : str) : list str :=
  match s with
  | [] => match cur with [] => [] | _ => [rev cur] end
  | c :: r =>
    if c =? 13 then
      match r with
      | 10 :: r' => rev cur :: splitlines_from [] r'
      | _ => rev cur :: splitlines_from [] r
      end
    else if islinebreak c then rev cur :: splitlines_from [] r
    else splitlines_from (c :: cur) r
  end.

Definition splitlines (s : str) : list str := splitlines_from [] s.

(** [needle in hay] *)
Fixpoint startswith (p s : str) : bool :=
  match p, s with
  | [], _ => true
  | a :: p', b :: s' => (a =? b) && startswith p' s'
  | _ :: _, [] => false
  end.

Fixpoint contains (hay needle : str) : bool :=
  startswith needle hay ||
  match hay with
  | [] => false
  | _ :: r => contains r needle
  end.

(** [sep.join(parts)] *)
Fixpoint join (sep : str) (parts : list str) : str :=
  match parts with
  | [] => []
  | [p] => p
  | p :: r => p ++ sep ++ join sep r
  end.

(** Truthiness of a string or of an optional string ([None] or [str]). *)
Definition nonempty (s : str) : bool := match s with [] => false | _ => true end.
Definition truthy (o : option str) : bool :=
  match o with Some s => nonempty s | None => false end.

(** [x or ''] *)
Definition or_empty (o : option str) : str :=
  match o with Some (c :: r) => c :: r | _ => [] end.

Definition show_Z (z : Z) : str := bytes_of (NilZero.string_of_int (Z.to_int z)).

End Str.
Export Str.

(** ** The Unicode case mappings of the Python runtime

    [str.lower] maps a whole string (its one context rule, the final sigma,
    is why it is not given per character); [str.casefold] folds each code
    point on its own. *)

Class Unicode := {
  lower : str → str;
  casefold_char : char → str;
}.

Definition casefold `{Unicode} (s : str) : str := flat_map casefold_char s.

(** The mappings on Basic Latin, Latin-1 Supplement and Latin Extended-A
    (U+0000..U+017F, which holds the Turkish alphabet), as the Unicode
    character database gives them; other code points are left as they are.
    This instance is what the concrete examples run on. *)
Module Latin.

Definition lower_char (c : char) : str :=
  if (65 <=? c) && (c <=? 90) then [c + 32]
  else if (192 <=? c) && (c <=? 222) && negb (c =? 215) then [c + 32]
  else if c =? 304 then [105; 775]
  else if (((256 <=? c) && (c <=? 311)) || ((330 <=? c) && (c <=? 375)))
          && N.even c then [c + 1]
  else if (((313 <=? c) && (c <=? 328)) || ((377 <=? c) && (c <=? 382)))
          && N.odd c then [c + 1]
  else if c =? 376 then [255]
  else [c].

Definition fold_char (c : char) : str :=
  if c =? 181 then [956]
  else if c =? 223 then [115; 115]
  else if c =? 329 then [700; 110]
  else if c =? 383 then [115]
  else lower_char c.

#[export] Instance unicode : Unicode :=
  {| lower := flat_map lower_char; casefold_char := fold_char |}.

End Latin.

(** ** Text normaliser *)

(** The dictionary given to [str.maketrans]:
    ı→i İ→i ş→s Ş→s ğ→g Ğ→g ü→u Ü→u ö→o Ö→o ç→c Ç→c. *)
Definition tr_pairs : list (char * char) :=
  [ (305, 105); (304, 105); (351, 115); (350, 115); (287, 103); (286, 103);
    (252, 117); (220, 117); (246, 111); (214, 111); (231, 99); (199, 99) ].

Definition tr_keys : list char := tr_pairs.*1.

(** [str.translate] on one code point: a code point that is no key of the
    table stays. *)
Fixpoint table_get (d : list (char * char)) (c : char) : char :=
  match d with
  | [] => c
  | (k, v) :: r => if k =? c then v else table_get r c
  end.

Definition tr_table (c : char) : char := table_get tr_pairs c.

Definition translate (s : str) : str := map tr_table s.

(** [_normalize_tr]; [None] stands for an argument that is not a string. *)
Definition _normalize_tr `{Unicode} (s : option str) : str :=
  match s with
  | None => []
  | Some s => casefold (translate s)
  end.

(** [_in_city]: the address is whatever the record holds (possibly
    [None]); the city is the request's string. *)
Definition _in_city `{Unicode} (addr : option str) (city : str) : bool :=
  if negb (truthy addr) || negb (nonempty city) then false
  else contains (_normalize_tr addr) (_normalize_tr (Some city)).

(** [_is_outdoor_type] *)
Definition _is_outdoor_type `{Unicode} (venue_type : option str) : bool :=
  bool_decide (lower (strip (or_empty venue_type)) = utf8 "outdoor").

(** ** Place records and the lookup services *)

(** A JSON number as the provider returns it: an integer, or a float kept
    by its Python rendering. *)
Inductive number := Int (z : Z) | Float (repr : str).

(** The dictionary built by [get_place_details], with the further keys the
    cuisine matcher reads ([types], [serves_cuisine],
    [editorial_summary.overview]) and the [match_status] the agent adds.
    An absent key and a [None] value both read as [None]. *)
Record PlaceDetails := {
  place_id : option str;
  name : option str;
  formatted_address : option str;
  rating : option number;
  user_ratings_total : option Z;
  price_text : option str;
  weekday_text : list str;
  website : option str;
  maps_url : option str;
  types : list str;
  serves_cuisine : option (list str);
  editorial_overview : option str;
  source : option str;
  match_status : option str;
}.

(** A text-search seed: [{'place_id': ..., 'name': ...}]. *)
Record Seed := { seed_place_id : option str; seed_name : option str }.

(** The helpers of [utils/maps_api.py] the agent calls.  [geocode_city]
    and [get_place_details] turn every failure into [None];
    for [places_text_search], which the agent wraps in [try]/[except],
    [None] stands for a raised exception. *)
Class Places := {
  coord : Type;
  geocode_city : str → str → option coord;
  places_text_search : str → str → option coord → N → N → option (list Seed);
  get_place_details : str → str → option PlaceDetails;
}.

(** The agent object: only the lookup key matters to the code below.  The
    methods read the key as they find it; [VenueAgent_init] below is the
    constructor, which never leaves it empty. *)
Record VenueAgent := { google_api_key : str }.

(** [d.get(k, default)] on a dictionary literal. *)
Fixpoint dict_get {V} (d : list (str * V)) (k : str) (default : V) : V :=
  match d with
  | [] => default
  | (k', v) :: r => if bool_decide (k' = k) then v else dict_get r k default
  end.

(** ** Cuisine matcher *)

Definition CUISINE_KEYS : list (str * list str) :=
  [ (utf8 "italian", map utf8 ["italian"; "italiano"; "italyan"; "ristorante";
                               "trattoria"; "pizzeria"; "pizza"; "pasta"]);
    (utf8 "turkish", map utf8 ["turkish"; "türk"; "lokanta"; "kebap";
                               "ocakbaşı"; "meze"]);
    (utf8 "mediterranean", map utf8 ["mediterranean"; "akdeniz"]);
    (utf8 "asian", map utf8 ["asian"; "asya"; "sushi"; "ramen"; "thai";
                             "korean"; "kore"; "japanese"; "japon"]);
    (utf8 "mixed", map utf8 ["mixed"; "international"; "uluslararasi"]) ]%string.

Definition any {A} (p : A → bool) (l : list A) : bool := existsb p l.

Definition _matches_cuisine `{Unicode} (det : PlaceDetails) (cuisine : str) : bool :=
  if negb (nonempty cuisine) then true
  else
    let ckey := lower (strip cuisine) in
    let keys := dict_get CUISINE_KEYS ckey [ckey] in
    let served :=
      match serves_cuisine det with
      | Some serves => any (λ s, bool_decide (lower s ∈ keys)) serves
      | None => false
      end in
    if served then true
    else
      let overview := or_empty (editorial_overview det) in
      let types := join (utf8 " ") (types det) in
      let hay := lower (join (utf8 " ")
                   [ or_empty (name det); or_empty (formatted_address det);
                     overview; types; or_empty (website det) ]) in
      any (λ k, contains hay k) keys.

(** ** Venue-name extractor *)

(** The scanning loop of [re.findall], [re.search] and [re.sub]: the
    pattern is tried at the current position; a match is recorded and the
    scan resumes at its end, otherwise the scan moves on by one character.
    A pattern is given by what it does at one position: the captured group
    and the length of the match.  [skip] counts the characters of the
    current match still to be passed. *)
Inductive token := Lit (c : char) | Hit (group : str).

Definition pattern := str → option (str * nat).

Fixpoint scan (p : pattern) (skip : nat) (s : str) : list token :=
  match s with
  | [] => []
  | c :: r =>
    match skip with
    | S k => scan p k r
    | O =>
      match p s with
      | Some (g, len) => Hit g :: scan p (pred len) r
      | None => Lit c :: scan p 0%nat r
      end
    end
  end.

Definition groups (ts : list token) : list str :=
  omap (λ t, match t with Hit g => Some g | Lit _ => None end) ts.

Definition literals (ts : list token) : str :=
  omap (λ t, match t with Lit c => Some c | Hit _ => None end) ts.

Definition findall (p : pattern) (s : str) : list str := groups (scan p 0%nat s).
Definition search (p : pattern) (s : str) : option str := head (findall p s).
Definition sub_empty (p : pattern) (s : str) : str := literals (scan p 0%nat s).

Definition notstar (c : char) : bool := negb (c =? 42).
Definition notclose (c : char) : bool := negb (c =? 41).

(** [\*\*([^*]+?)\*\*] at one position, followed when [tail] is set by
    [\s*[:\-]?].  The group cannot hold a star, so the lazy [+?] ends at
    the first star after it, where the closing [**] must stand. *)
Definition bold (tail : bool) : pattern := λ s,
  match s with
  | 42 :: 42 :: r =>
    let g := takewhile notstar r in
    match g, dropwhile notstar r with
    | _ :: _, 42 :: 42 :: r' =>
      let ws := takewhile isspace r' in
      let punct :=
        match dropwhile isspace r' with
        | c :: _ => if (c =? 58) || (c =? 45) then 1%nat else 0%nat
        | [] => 0%nat
        end in
      Some (g, (2 + length g + 2 + (if tail then length ws + punct else 0))%nat)
    | _, _ => None
    end
  | _ => None
  end.

(** [\s*\([^)]*\)\s*] at one position: the greedy leading [\s*] must be
    followed by the opening parenthesis, and [[^)]*] runs to the first
    closing one. *)
Definition parenthetical : pattern := λ s,
  let ws := takewhile isspace s in
  match dropwhile isspace s with
  | 40 :: r =>
    let body := takewhile notclose r in
    match dropwhile notclose r with
    | 41 :: r' =>
      Some ([], (length ws + 1 + length body + 1 + length (takewhile isspace r'))%nat)
    | _ => None
    end
  | _ => None
  end.

(** [re.sub(...)] with the parenthetical pattern and the empty
    replacement, then [.strip()]. *)
Definition clean_name (m : str) : str := strip (sub_empty parenthetical m).

Definition keep_name (n : str) : list str :=
  if (2 <? length n)%nat then [n] else [].

(** First loop: every bold span of the whole text. *)
Definition span_names (text : str) : list str :=
  flat_map (λ m, keep_name (clean_name m)) (findall (bold true) text).

(** Second loop: the first bold span of each bullet line. *)
Definition bullet_names (text : str) : list str :=
  flat_map (λ line,
    let s := strip line in
    if startswith (utf8 "*") s || startswith (utf8 "-") s then
      match search (bold false) s with
      | Some m => keep_name (clean_name m)
      | None => []
      end
    else []) (splitlines text).

(** De-duplication loop: [seen] holds the lowered names met so far. *)
Definition dedup_step `{Unicode} (st : gset str * list str) (n : str)
  : gset str * list str :=
  let k := lower n in
  if bool_decide (k ∈ st.1) then st else ({[k]} ∪ st.1, st.2 ++ [n]).

Definition dedup `{Unicode} (names : list str) : list str :=
  (foldl dedup_step (∅, []) names).2.

Definition _extract_venue_names_from_text `{Unicode} (text : option str) : list str :=
  match text with
  | None | Some [] => []
  | Some text => take 3 (dedup (span_names text ++ bullet_names text))
  end.

(** ** Resolver *)

Section Resolver.
Context `{Unicode} `{Places}.

(** [len(name_words.intersection(set(name.split())))] *)
Definition overlap (venue_name : str) (det : PlaceDetails) : Z :=
  let name_words : gset str := list_to_set (split (lower venue_name)) in
  let det_words : gset str :=
    list_to_set (split (lower (or_empty (name det)))) in
  Z.of_nat (size (name_words ∩ det_words)).

(** The score of one resolved record; [ckey] is the stripped, lowered
    cuisine. *)
Definition score (venue_name city ckey : str) (det : PlaceDetails) : Z :=
  let addr := or_empty (formatted_address det) in
  let score := overlap venue_name det in
  let score := if _in_city (Some addr) city then (score + 2)%Z else score in
  if nonempty ckey then
    if _matches_cuisine det ckey then (score + 3)%Z else (score - 2)%Z
  else score.

(** The part of the inner loop before scoring: seeds without an identifier
    or without details are passed over. *)
Definition seed_details (ag : VenueAgent) (s : Seed) : option PlaceDetails :=
  match seed_place_id s with
  | Some (c :: pid) => get_place_details (c :: pid) (google_api_key ag)
  | _ => None
  end.

Definition best_t : Type := Z * option PlaceDetails.

(** [if score > best[0]: best = (score, det)] *)
Definition consider (venue_name city ckey : str) (best : best_t)
    (det : PlaceDetails) : best_t :=
  let sc := score venue_name city ckey det in
  if (best.1 <? sc)%Z then (sc, Some det) else best.

Definition try_seed (ag : VenueAgent) (venue_name city ckey : str)
    (best : best_t) (s : Seed) : best_t :=
  match seed_details ag s with
  | Some det => consider venue_name city ckey best det
  | None => best
  end.

(** One turn of the outer loop. *)
Definition try_query (ag : VenueAgent) (center : option coord)
    (venue_name city ckey : str) (best : best_t) (q : str) : best_t :=
  match places_text_search q (google_api_key ag) center 20000 8 with
  | None => best
  | Some seeds => foldl (try_seed ag venue_name city ckey) best seeds
  end.

Definition center_of (ag : VenueAgent) (city : str) : option coord :=
  if nonempty city then geocode_city city (google_api_key ag) else None.

Definition resolver_queries (venue_name city : str) : list str :=
  [ venue_name ++ utf8 " " ++ city;
    venue_name;
    venue_name ++ utf8 " venue " ++ city;
    venue_name ++ utf8 " restaurant " ++ city ].

Definition _search_venue_in_places (ag : VenueAgent)
    (venue_name city cuisine : str) : option PlaceDetails :=
  if negb (nonempty (google_api_key ag)) then None
  else
    let center := center_of ag city in
    let queries := resolver_queries venue_name city in
    let ckey := lower (strip cuisine) in
    let best : best_t := ((-1)%Z, None) in
    (foldl (try_query ag center venue_name city ckey) best queries).2.

(** ** Fallback search *)

Definition base_terms : list (str * list str) :=
  [ (utf8 "indoor", map utf8 ["restaurant"; "cafe"; "party hall"; "event venue"]);
    (utf8 "outdoor", map utf8 ["park"; "garden"; "beach club"; "terrace"]);
    (utf8 "hybrid", map utf8 ["restaurant with terrace"; "event space"; "venue"])
  ]%string.

Definition outdoor_terms : list str :=
  map utf8 [ "park"; "garden"; "botanical garden"; "zoo";
             "beach"; "beach club"; "outdoor event space";
             "promenade"; "terrace"; "viewing terrace";
             "piknik alanı"; "mesire alanı"; "çocuk parkı"; "seyir terası";
             "koru"; "kent ormanı"; "tabiat parkı" ]%string.

Definition CUISINE_TERMS : list (str * list str) :=
  [ (utf8 "italian", map utf8 ["italian restaurant"; "italyan restoran";
                               "pizzeria"; "trattoria"]);
    (utf8 "turkish", map utf8 ["turkish restaurant"; "türk restoran"; "lokanta"]);
    (utf8 "mediterranean", map utf8 ["mediterranean restaurant"; "akdeniz restoran"]);
    (utf8 "asian", map utf8 ["asian restaurant"; "asya restoran"; "sushi"; "ramen"]);
    (utf8 "mixed", map utf8 ["international restaurant"; "mixed cuisine"])
  ]%string.

Definition fallback_queries (city venue_type cuisine : str) (is_outdoor : bool)
  : list str :=
  if is_outdoor then map (λ t, t ++ utf8 " " ++ city) outdoor_terms
  else
    let ckey := lower (strip cuisine) in
    let cuisine_terms :=
      dict_get CUISINE_TERMS ckey (if nonempty ckey then [ckey] else []) in
    map (λ term, term ++ utf8 " " ++ city) cuisine_terms
    ++ flat_map (λ term,
         (if nonempty ckey
          then [ckey ++ utf8 " " ++ term ++ utf8 " " ++ city] else [])
         ++ [term ++ utf8 " " ++ city])
       (dict_get base_terms (lower venue_type) (map utf8 ["venue"; "restaurant"]%string)).

(** The text-search loop, left at the first query that finds twelve seeds
    already collected. *)
Fixpoint collect_seeds (ag : VenueAgent) (center : option coord)
    (is_outdoor : bool) (queries : list str) (seeds : list Seed) : list Seed :=
  match queries with
  | [] => seeds
  | q :: qs =>
    if (12 <=? length seeds)%nat then seeds
    else
      match places_text_search q (google_api_key ag) center
              (if is_outdoor then 20000 else 15000) 4 with
      | Some found => collect_seeds ag center is_outdoor qs (seeds ++ found)
      | None => collect_seeds ag center is_outdoor qs seeds
      end
  end.

(** The details loop, left once three records are accepted. *)
Fixpoint accept_seeds (ag : VenueAgent) (city cuisine : str)
    (is_outdoor : bool) (seeds : list Seed) (results : list PlaceDetails)
  : list PlaceDetails :=
  match seeds with
  | [] => results
  | s :: ss =>
    if (3 <=? length results)%nat then results
    else
      match seed_details ag s with
      | None => accept_seeds ag city cuisine is_outdoor ss results
      | Some det =>
        if negb (_in_city (formatted_address det) city)
        then accept_seeds ag city cuisine is_outdoor ss results
        else if negb is_outdoor && nonempty cuisine
                && negb (_matches_cuisine det cuisine)
        then accept_seeds ag city cuisine is_outdoor ss results
        else accept_seeds ag city cuisine is_outdoor ss (results ++ [det])
      end
  end.

Definition _get_fallback_venues (ag : VenueAgent)
    (city venue_type audience cuisine : str) (is_outdoor : bool)
  : list PlaceDetails :=
  if negb (nonempty (google_api_key ag)) then []
  else
    let center := center_of ag city in
    let queries := fallback_queries city venue_type cuisine is_outdoor in
    let seeds := collect_seeds ag center is_outdoor queries [] in
    accept_seeds ag city cuisine is_outdoor seeds [].

End Resolver.

(** ** The request, the model and the forecast *)

(** What the agent needs besides the lookup services: the prompt constant
    of [prompts] ([None] when its import failed), the language model behind
    [_call_llm_unified] ([None] when every attempt failed), and the date
    arithmetic and forecast helper behind [_get_weather_line]. *)
Class Assistant := {
  date : Type;
  VENUE_SEARCH_PROMPT : option str;
  _call_llm_unified : str → option str;
  make_date : str → option date;
  format_weather_line : str → str + date → str → str;
}.

Section Orchestrator.
Context `{Unicode} `{Places} `{Assistant}.

(** The planning context [ctx]; a missing key reads as the empty string
    (or [None] for the dates). *)
Record Context := {
  ctx_city : str;
  ctx_location_type : str;
  ctx_venue_type : str;
  ctx_audience : str;
  ctx_guest_count : str;
  ctx_budget_venue : str;
  ctx_cuisine : str;
  ctx_weather_forecast_text : option str;
  ctx_event_date : option (str + date);
  ctx_date : option (str + date);
  ctx_selected_date : option (str + date);
}.

Record Response := {
  suggestions : list PlaceDetails;
  raw : str;
  unified_display : str;
  weather_info : str;
}.

Definition nl : str := [10].

Definition when_truthy (w : option (str + date)) : bool :=
  match w with
  | Some (inl s) => nonempty s
  | Some (inr _) => true
  | None => false
  end.

Definition when_or (a b : option (str + date)) : option (str + date) :=
  if when_truthy a then a else b.

(** [_get_weather_line] where it returns.  The helper is handed a date,
    or a text shorter than ten characters; on a text the helper of
    [utils/weather_api.py] raises, which [Raising._get_weather_line] below
    tells apart. *)
Definition _get_weather_line (ag : VenueAgent) (ctx : Context) : str :=
  let w := strip (or_empty (ctx_weather_forecast_text ctx)) in
  if nonempty w then w
  else
    let city := ctx_city ctx in
    let when := when_or (ctx_event_date ctx)
                  (when_or (ctx_date ctx) (ctx_selected_date ctx)) in
    let when :=
      match when with
      | Some (inl s) =>
        if (10 <=? length s)%nat
        then match make_date (take 10 s) with
             | Some d => Some (inr d)
             | None => None
             end
        else when
      | _ => when
      end in
    match when with
    | Some d =>
      if nonempty city && when_truthy when
      then format_weather_line city d (google_api_key ag)
      else utf8 "Weather information not available - please check local forecast"
    | None =>
      utf8 "Weather information not available - please check local forecast"
    end.

Definition show_number (n : number) : str :=
  match n with Int z => show_Z z | Float r => r end.

Definition no_venues_notice : str :=
  utf8 "❌ No suitable venues found. Please try different search criteria.".

(** The lines of one venue, numbered [i]. *)
Definition venue_block (city : str) (i : nat) (v : PlaceDetails) : list str :=
  let name := match or_empty (name v) with
              | [] => utf8 "Unknown Venue" | n => n end in
  let addr := match or_empty (formatted_address v) with
              | [] => city ++ utf8 " (address not available)" | a => a end in
  let reviews :=
    match user_ratings_total v with
    | Some z => if bool_decide (z = 0%Z) then []
                else utf8 " (" ++ show_Z z ++ utf8 " reviews)"
    | None => []
    end in
  let meta_bits :=
    match rating v with
    | Some r => [utf8 "⭐ " ++ show_number r ++ utf8 "/5" ++ reviews]
    | None => []
    end
    ++ (if truthy (price_text v)
        then [utf8 "💰 " ++ or_empty (price_text v)] else []) in
  [utf8 "**" ++ show_Z (Z.of_nat i) ++ utf8 ". " ++ name ++ utf8 "**";
   utf8 "📌 **Address:** " ++ addr]
  ++ match meta_bits with [] => [] | _ => [join (utf8 " · ") meta_bits] end
  ++ (if truthy (maps_url v)
      then [utf8 "🗺️ **Google Maps:** " ++ or_empty (maps_url v)] else [])
  ++ (if truthy (website v)
      then [utf8 "🌐 **Website:** " ++ or_empty (website v)] else [])
  ++ match weekday_text v with
     | [] => []
     | lns => [utf8 "🕒 **Working Hours:**" ++ nl
               ++ join nl (map (λ ln, utf8 "- " ++ ln) lns)]
     end
  ++ [[]].

Definition _format_weather_and_venues (weather_info : str)
    (venues : list PlaceDetails) (city : str) : str :=
  let parts :=
    if nonempty weather_info
    then [utf8 "📅 **Weather:** " ++ weather_info; []] else [] in
  match venues with
  | [] => join nl (parts ++ [no_venues_notice])
  | _ =>
    join nl (parts
      ++ [utf8 "📍 **Recommended Venues in " ++ city ++ utf8 ":**"; []]
      ++ concat (imap (λ i v, venue_block city (S i) v) venues))
  end.

Definition _build_search_prompt (city venue_type audience guest_count budget
    cuisine weather_info : str) (is_outdoor : bool) : str :=
  let details :=
    nl ++ utf8 "Party Details:" ++ nl
    ++ utf8 "- City: " ++ city ++ nl
    ++ utf8 "- Venue Type: " ++ venue_type ++ nl
    ++ utf8 "- Audience: " ++ audience ++ nl
    ++ utf8 "- Guests: " ++ guest_count ++ nl
    ++ utf8 "- Budget: " ++ budget ++ utf8 " ₺" ++ nl
    ++ utf8 "- Cuisine: " ++ cuisine ++ nl
    ++ utf8 "- Weather Forecast: " ++ weather_info ++ nl in
  let cuisine_line :=
    if is_outdoor then
      utf8 "- Cuisine is optional for outdoor; prioritize parks, gardens, terraces, beach clubs, and other open-air venues." ++ nl
    else if nonempty cuisine then
      utf8 "- Only suggest venues that primarily serve **" ++ cuisine
      ++ utf8 "** cuisine." ++ nl
    else [] in
  let rules :=
    nl ++ utf8 "IMPORTANT:" ++ nl
    ++ cuisine_line
    ++ utf8 "- If rainy/stormy: prioritize indoor/covered venues." ++ nl
    ++ utf8 "- If clear/sunny: outdoor/hybrid are fine." ++ nl
    ++ utf8 "- Suggest specific, real venues (names only). Keep description to one short sentence each." ++ nl
    ++ nl ++ utf8 "Format:" ++ nl
    ++ utf8 "**Venue Name**: one short reason it fits the party and weather." ++ nl in
  match VENUE_SEARCH_PROMPT with
  | Some (c :: p) => strip (c :: p) ++ nl ++ details ++ rules
  | _ =>
    utf8 "You are a venue expert for " ++ city ++ utf8 ", Turkey." ++ nl
    ++ utf8 "Suggest 3 REAL venues that actually exist in the city." ++ nl
    ++ details ++ rules
  end.

(** [det["source"] = src; det["match_status"] = "found"] *)
Definition mark (src : str) (det : PlaceDetails) : PlaceDetails :=
  {| place_id := place_id det; name := name det;
     formatted_address := formatted_address det; rating := rating det;
     user_ratings_total := user_ratings_total det;
     price_text := price_text det; weekday_text := weekday_text det;
     website := website det; maps_url := maps_url det; types := types det;
     serves_cuisine := serves_cuisine det;
     editorial_overview := editorial_overview det;
     source := Some src; match_status := Some (utf8 "found") |}.

(** The values [process_request] computes before it calls the model. *)
Definition venue_type_of (ctx : Context) : str :=
  match ctx_location_type ctx with
  | [] => ctx_venue_type ctx
  | t => t
  end.

Definition is_outdoor_of (ctx : Context) : bool :=
  _is_outdoor_type (Some (venue_type_of ctx)).

Definition cuisine_effective (ctx : Context) : str :=
  if is_outdoor_of ctx then [] else ctx_cuisine ctx.

Definition prompt_of (ag : VenueAgent) (ctx : Context) : str :=
  _build_search_prompt (ctx_city ctx) (venue_type_of ctx) (ctx_audience ctx)
    (ctx_guest_count ctx) (ctx_budget_venue ctx) (cuisine_effective ctx)
    (_get_weather_line ag ctx) (is_outdoor_of ctx).

Definition names_of (llm_response : option str) : list str :=
  if truthy llm_response then _extract_venue_names_from_text llm_response
  else [].

(** Step 2: one turn of the loop over the extracted names. *)
Definition resolve_name (ag : VenueAgent) (ctx : Context)
    (enriched : list PlaceDetails) (n : str) : list PlaceDetails :=
  match _search_venue_in_places ag n (ctx_city ctx) (cuisine_effective ctx) with
  | Some det =>
    if is_outdoor_of ctx || negb (nonempty (ctx_cuisine ctx))
       || _matches_cuisine det (ctx_cuisine ctx)
    then enriched ++ [mark (utf8 "google_places") det]
    else enriched
  | None => enriched
  end.

Definition after_resolution (ag : VenueAgent) (ctx : Context) : list PlaceDetails :=
  foldl (resolve_name ag ctx) [] (names_of (_call_llm_unified (prompt_of ag ctx))).

(** The calls of [_get_fallback_venues] are logged with their arguments. *)
Record FallbackCall := {
  fc_city : str;
  fc_venue_type : str;
  fc_audience : str;
  fc_cuisine : str;
  fc_is_outdoor : bool;
}.

Definition Logged (A : Type) : Type := A * list FallbackCall.

Definition run_fallback (ag : VenueAgent) (c : FallbackCall) : list PlaceDetails :=
  _get_fallback_venues ag (fc_city c) (fc_venue_type c) (fc_audience c)
    (fc_cuisine c) (fc_is_outdoor c).

Definition call_fallback (ag : VenueAgent) (c : FallbackCall)
  : Logged (list PlaceDetails) :=
  (map (mark (utf8 "fallback_search")) (run_fallback ag c), [c]).

(** Step 3. *)
Definition after_fallback (ag : VenueAgent) (ctx : Context)
  : Logged (list PlaceDetails) :=
  match after_resolution ag ctx with
  | [] =>
    call_fallback ag
      {| fc_city := ctx_city ctx; fc_venue_type := venue_type_of ctx;
         fc_audience := ctx_audience ctx; fc_cuisine := cuisine_effective ctx;
         fc_is_outdoor := is_outdoor_of ctx |}
  | enriched => (enriched, [])
  end.

(** Step 4: the condition of the final guard, and the step itself. *)
Definition final_guard (ag : VenueAgent) (ctx : Context) : bool :=
  match (after_fallback ag ctx).1 with
  | [] => is_outdoor_of ctx && nonempty (ctx_cuisine ctx)
  | _ => false
  end.

Definition after_guard (ag : VenueAgent) (ctx : Context)
  : Logged (list PlaceDetails) :=
  let '(enriched, log) := after_fallback ag ctx in
  if final_guard ag ctx then
    let '(enriched', log') :=
      call_fallback ag
        {| fc_city := ctx_city ctx; fc_venue_type := venue_type_of ctx;
           fc_audience := ctx_audience ctx; fc_cuisine := [];
           fc_is_outdoor := true |} in
    (enriched', log ++ log')
  else (enriched, log).

Definition run_request (ag : VenueAgent) (ctx : Context) : Logged Response :=
  let weather_info := _get_weather_line ag ctx in
  let llm_response := _call_llm_unified (prompt_of ag ctx) in
  let '(enriched, log) := after_guard ag ctx in
  ({| suggestions := enriched;
      raw := match or_empty llm_response with
             | [] => utf8 "No LLM response available" | r => r end;
      unified_display :=
        _format_weather_and_venues weather_info enriched (ctx_city ctx);
      weather_info := weather_info |}, log).

Definition process_request (ag : VenueAgent) (ctx : Context) : Response :=
  (run_request ag ctx).1.

Definition fallback_calls (ag : VenueAgent) (ctx : Context) : list FallbackCall :=
  (run_request ag ctx).2.

End Orchestrator.

(** ** Exceptions

    [process_request] above is the function on the requests whose weather
    line is returned, with the lookup services and the model as [Places]
    and [Assistant] have them: functions that return.  Two calls of the
    agent raise by the agent's own code: the constructor, without the key
    of the model, and the forecast helper, when it is handed a text for a
    date.  A call returns a value or raises. *)
Inductive exception :=
  | RuntimeError (msg : str)
  | AttributeError (msg : str).

Inductive outcome (A : Type) :=
  | Returns (a : A)
  | Raises (e : exception).
Arguments Returns {A} a.
Arguments Raises {A} e.

#[export] Instance outcome_bind : MBind outcome := λ A B f m,
  match m with
  | Returns a => f a
  | Raises e => Raises e
  end.

(** What the constructor reads: the secrets of the page ([None] when
    reading them raises, which the constructor catches) and the variables
    of the environment, the [.env] file included. *)
Record Configuration := {
  secrets : option (str → option str);
  environ : str → option str;
}.

(** [a or b] on optional texts. *)
Definition or_else (a b : option str) : option str :=
  if truthy a then a else b.

(** [BaseAgent.__init__]: the client of the model is built with the key of
    the environment, and nothing is built without it; building the client
    with a key is taken to succeed. *)
Definition BaseAgent_init (cfg : Configuration) : outcome unit :=
  let api_key := environ cfg (utf8 "GOOGLE_API_KEY") in
  if negb (truthy api_key)
  then Raises (RuntimeError
         (utf8 "Missing GOOGLE_API_KEY. Put it in your .env or export it in the shell."))
  else Returns ().

(** [VenueAgent.__init__]: the lookup key is the first of the secrets'
    map key, the secrets' model key, the environment's map key and the
    environment's model key that is not empty. *)
Definition VenueAgent_init (cfg : Configuration) : outcome VenueAgent :=
  BaseAgent_init cfg ≫= λ _,
  let _secret_maps :=
    match secrets cfg with
    | Some get =>
      or_else (get (utf8 "GOOGLE_MAPS_API_KEY")) (get (utf8 "GOOGLE_API_KEY"))
    | None => None
    end in
  Returns
    {| google_api_key :=
         or_empty (or_else _secret_maps
                     (or_else (environ cfg (utf8 "GOOGLE_MAPS_API_KEY"))
                        (environ cfg (utf8 "GOOGLE_API_KEY")))) |}.

Module Raising.
Section Raising.
Context `{Unicode} `{Places} `{Assistant}.

(** [format_weather_line] of [utils/weather_api.py] as it is called:
    with or without a forecast it writes [when.isoformat()], which a date
    has and a text has not. *)
Definition format_weather_line (city : str) (when : str + date)
    (maps_api_key : str) : outcome str :=
  match when with
  | inr d => Returns (format_weather_line city (inr d) maps_api_key)
  | inl _ =>
    Raises (AttributeError (utf8 "'str' object has no attribute 'isoformat'"))
  end.

(** [_get_weather_line], with what it raises. *)
Definition _get_weather_line (ag : VenueAgent) (ctx : Context) : outcome str :=
  let w := strip (or_empty (ctx_weather_forecast_text ctx)) in
  if nonempty w then Returns w
  else
    let city := ctx_city ctx in
    let when := when_or (ctx_event_date ctx)
                  (when_or (ctx_date ctx) (ctx_selected_date ctx)) in
    let when :=
      match when with
      | Some (inl s) =>
        if (10 <=? length s)%nat
        then match make_date (take 10 s) with
             | Some d => Some (inr d)
             | None => None
             end
        else when
      | _ => when
      end in
    match when with
    | Some d =>
      if nonempty city && when_truthy when
      then format_weather_line city d (google_api_key ag)
      else Returns
             (utf8 "Weather information not available - please check local forecast")
    | None =>
      Returns
        (utf8 "Weather information not available - please check local forecast")
    end.

(** [process_request], with what it raises: the weather line is its
    first step, and no later step raises. *)
Definition process_request (ag : VenueAgent) (ctx : Context)
  : outcome Response :=
  _get_weather_line ag ctx ≫= λ _, Returns (process_request ag ctx).

End Raising.
End Raising.

(** ** Notions the properties are stated with *)

(** The two facts about Unicode case folding that normalisation relies on:
    folding a folded code point changes nothing, and no fold produces one of
    the Turkish letters of the table from another letter. *)
Definition casefold_stable `{Unicode} : Prop :=
  ∀ c, casefold (casefold_char c) = casefold_char c.

Definition casefold_spares_table `{Unicode} : Prop :=
  ∀ c d, d ∈ casefold_char c → d ∈ tr_keys → c ∈ tr_keys.

(** [needle] occurs inside [hay]. *)
Definition occurs_in (needle hay : str) : Prop :=
  ∃ pre post, hay = pre ++ needle ++ post.

(** An emphasis span: [**x**] with [x] non-empty and free of stars. *)
Definition bold_span (x : str) (text : str) : Prop :=
  x ≠ [] ∧ Forall (λ c, c ≠ 42) x ∧ occurs_in ([42; 42] ++ x ++ [42; 42]) text.

Fixpoint suffixes (s : str) : list str :=
  s :: match s with [] => [] | _ :: r => suffixes r end.

Definition has_bold_span (text : str) : bool :=
  existsb (λ suf, bool_decide (is_Some (bold false suf))) (suffixes text).

(** Every emphasis span of a text, by the place where it begins. *)
Definition all_spans (text : str) : list str :=
  omap (λ suf, fst <$> bold false suf) (suffixes text).

(** The spans the extractor takes names from: those found scanning the
    whole text, then the first one of each bullet line. *)
Definition name_sources (text : str) : list str :=
  findall (bold true) text
  ++ omap (λ line,
       let s := strip line in
       if startswith (utf8 "*") s || startswith (utf8 "-") s
       then search (bold false) s else None) (splitlines text).

(** The reading of the specification: only a parenthetical that ends the
    span is removed, then the span is trimmed. *)
Definition strip_trailing_parenthetical (m : str) : str :=
  match rev (rstrip m) with
  | 41 :: r =>
    match dropwhile (λ c, negb (c =? 40)) r with
    | 40 :: before => strip (rev before)
    | _ => strip m
    end
  | _ => strip m
  end.

(** The names the two loops of the extractor collect, before
    de-duplication. *)
Definition candidate_names (text : option str) : list str :=
  match text with
  | Some t => span_names t ++ bullet_names t
  | None => []
  end.

(** The names the de-duplication loop keeps from [l] when the lowered
    names in [seen] were met before. *)
Fixpoint kept_from `{Unicode} (seen : gset str) (l : list str) : list str :=
  match l with
  | [] => []
  | n :: r =>
    if bool_decide (lower n ∈ seen) then kept_from seen r
    else n :: kept_from ({[lower n]} ∪ seen) r
  end.

(** [n] stands in [l] with no earlier name equal to it up to letter case. *)
Definition first_occurrence `{Unicode} (n : str) (l : list str) : Prop :=
  ∃ pre post, l = pre ++ n :: post ∧ ∀ x, x ∈ pre → lower x ≠ lower n.

(** The request whose weather step raises: no forecast text, a city, and
    for its date a text that is not empty and shorter than ten
    characters. *)
Definition date_text_short `{Assistant} (ctx : Context) : bool :=
  negb (nonempty (strip (or_empty (ctx_weather_forecast_text ctx))))
  && nonempty (ctx_city ctx)
  && match when_or (ctx_event_date ctx)
             (when_or (ctx_date ctx) (ctx_selected_date ctx)) with
     | Some (inl s) => nonempty s && (length s <? 10)%nat
     | _ => false
     end.

(** The place [i] of [l] holds a name that no earlier place of [l] holds,
    up to letter case. *)
Definition first_at `{Unicode} (l : list str) (i : nat) : Prop :=
  ∃ n, l !! i = Some n
       ∧ ∀ j m, (j < i)%nat → l !! j = Some m → lower m ≠ lower n.

(** A parenthesised part at the head of [s], with the white space around
    it: white space, an opening parenthesis, a body without a closing
    parenthesis, the closing parenthesis and all the white space after it;
    [rest] is what follows. *)
Definition parenthesised_head (s rest : str) : Prop :=
  ∃ ws body ws',
    s = ws ++ [40] ++ body ++ [41] ++ ws' ++ rest
    ∧ Forall (λ c, isspace c = true) ws
    ∧ Forall (λ c, c ≠ 41) body
    ∧ Forall (λ c, isspace c = true) ws'
    ∧ match rest with c :: _ => isspace c = false | [] => True end.

(** [out] is [s] without its parenthesised parts, read from the left: a
    part at the head is dropped with the white space around it, any other
    character is kept. *)
Inductive without_parentheticals : str → str → Prop :=
  | wp_end : without_parentheticals [] []
  | wp_part s rest out :
      parenthesised_head s rest → without_parentheticals rest out →
      without_parentheticals s out
  | wp_keep c s out :
      (¬ ∃ rest, parenthesised_head (c :: s) rest) →
      without_parentheticals s out →
      without_parentheticals (c :: s) (c :: out).

(** The records the resolver scores, in the order it meets them. *)
Definition candidates `{Places} (ag : VenueAgent) (center : option coord)
    (queries : list str) : list PlaceDetails :=
  flat_map (λ q,
    match places_text_search q (google_api_key ag) center 20000 8 with
    | Some seeds => omap (seed_details ag) seeds
    | None => []
    end) queries.

(** [r] is the first record of highest score in [l]. *)
Definition first_best (sc : PlaceDetails → Z) (r : PlaceDetails)
    (l : list PlaceDetails) : Prop :=
  ∃ pre post, l = pre ++ r :: post
    ∧ Forall (λ x, (sc x < sc r)%Z) pre ∧ Forall (λ x, (sc x ≤ sc r)%Z) post.

(** ** Scripted services for the worked examples *)

Module Script.
Import Latin.

Definition places (search : str → option (list Seed))
    (details : str → option PlaceDetails) : Places :=
  {| coord := unit;
     geocode_city := λ _ _, None;
     places_text_search := λ q _ _ _ _, search q;
     get_place_details := λ pid _, details pid |}.

Definition assistant (reply : option str) : Assistant :=
  {| date := unit;
     VENUE_SEARCH_PROMPT := None;
     _call_llm_unified := λ _, reply;
     make_date := λ _, None;
     format_weather_line := λ _ _ _, [] |}.

Definition place (pid nm addr : string) (tys : list string) : PlaceDetails :=
  {| place_id := Some (utf8 pid); name := Some (utf8 nm);
     formatted_address := Some (utf8 addr); rating := None;
     user_ratings_total := None; price_text := None; weekday_text := [];
     website := None; maps_url := None; types := map utf8 tys;
     serves_cuisine := None; editorial_overview := None;
     source := Some (utf8 "google_places"); match_status := None |}.

Definition seed (pid nm : string) : Seed :=
  {| seed_place_id := Some (utf8 pid); seed_name := Some (utf8 nm) |}.

Definition agent : VenueAgent := {| google_api_key := utf8 "key" |}.
Definition keyless : VenueAgent := {| google_api_key := [] |}.

(** Two configurations: nothing set at all, and only the key of the model
    in the environment. *)
Definition unconfigured : Configuration :=
  {| secrets := None; environ := λ _, None |}.
Definition model_key_only : Configuration :=
  {| secrets := None;
     environ := λ k, if bool_decide (k = utf8 "GOOGLE_API_KEY")
                     then Some (utf8 "model-key") else None |}.

(** Scenario D: the candidate "Le Jardin" in Paris with French cuisine; the
    first query finds the namesake in Paris and a French bistro in Lyon. *)
Definition le_jardin : PlaceDetails :=
  place "p1" "Le Jardin Restaurant" "5 Rue de Rivoli, Paris" [].
Definition bistro : PlaceDetails :=
  place "p2" "Chez Marcel" "12 Quai Saint-Antoine, Lyon" ["french_restaurant"%string].
Definition diner : PlaceDetails :=
  place "p3" "Chez Marcel" "12 Quai Saint-Antoine, Lyon" ["diner"%string].

Definition details_D (pid : str) : option PlaceDetails :=
  if bool_decide (pid = utf8 "p1") then Some le_jardin
  else if bool_decide (pid = utf8 "p2") then Some bistro
  else if bool_decide (pid = utf8 "p3") then Some diner
  else None.

Definition scenario_D : Places :=
  places (λ q, if bool_decide (q = utf8 "Le Jardin Paris")
               then Some [seed "p1" "Le Jardin Restaurant"; seed "p2" "Chez Marcel"]
               else Some []) details_D.

(** A search that only ever finds the diner in Lyon. *)
Definition only_diner : Places :=
  places (λ _, Some [seed "p3" "Chez Marcel"]) details_D.

(** A provider that finds nothing. *)
Definition nothing : Places := places (λ _, Some []) (λ _, None).

Definition outdoor_ctx `{Assistant} : Context :=
  {| ctx_city := utf8 "Izmir"; ctx_location_type := utf8 "Outdoor";
     ctx_venue_type := utf8 "Outdoor"; ctx_audience := utf8 "kids";
     ctx_guest_count := utf8 "12"; ctx_budget_venue := utf8 "1200";
     ctx_cuisine := utf8 "Italian"; ctx_weather_forecast_text := None;
     ctx_event_date := None; ctx_date := None; ctx_selected_date := None |}.

(** The request of a city with the date written short. *)
Definition short_date_ctx `{Assistant} : Context :=
  {| ctx_city := utf8 "Izmir"; ctx_location_type := [];
     ctx_venue_type := []; ctx_audience := [];
     ctx_guest_count := []; ctx_budget_venue := [];
     ctx_cuisine := []; ctx_weather_forecast_text := None;
     ctx_event_date := None; ctx_date := Some (inl (utf8 "2025-6-1"));
     ctx_selected_date := None |}.

Definition indoor_ctx `{Assistant} : Context :=
  {| ctx_city := utf8 "Lyon"; ctx_location_type := utf8 "Indoor";
     ctx_venue_type := utf8 "Indoor"; ctx_audience := utf8 "adults";
     ctx_guest_count := utf8 "8"; ctx_budget_venue := utf8 "900";
     ctx_cuisine := []; ctx_weather_forecast_text := Some (utf8 " Sunny, 24°C ");
     ctx_event_date := None; ctx_date := None; ctx_selected_date := None |}.

End Script.

(** ** Further code of the repository

    The rest of [agents/venue_agent.py] needs no new definition but this
    one: the context with another cuisine. *)

Section ContextUpdate.
Context `{Assistant}.

Definition with_cuisine (ctx : Context) (cuisine : str) : Context :=
  {| ctx_city := ctx_city ctx; ctx_location_type := ctx_location_type ctx;
     ctx_venue_type := ctx_venue_type ctx; ctx_audience := ctx_audience ctx;
     ctx_guest_count := ctx_guest_count ctx;
     ctx_budget_venue := ctx_budget_venue ctx;
     ctx_cuisine := cuisine;
     ctx_weather_forecast_text := ctx_weather_forecast_text ctx;
     ctx_event_date := ctx_event_date ctx; ctx_date := ctx_date ctx;
     ctx_selected_date := ctx_selected_date ctx |}.

End ContextUpdate.

(** The name and the address a venue is displayed with. *)
Definition shown_name (v : PlaceDetails) : str :=
  match or_empty (name v) with [] => utf8 "Unknown Venue" | n => n end.

Definition shown_address (city : str) (v : PlaceDetails) : str :=
  match or_empty (formatted_address v) with
  | [] => city ++ utf8 " (address not available)"
  | a => a
  end.

(** A Python slice [l[:k]]: a negative [k] counts from the end. *)
Definition slice_to {A} (k : Z) (l : list A) : list A :=
  if (0 <=? k)%Z then take (Z.to_nat k) l
  else take (length l - Z.to_nat (- k)) l.

(** ** The lookup adapter (utils/maps_api.py) *)

Module MapsApi.

(** A coordinate: latitude and longitude. *)
Definition latlng : Type := number * number.

(** The [result] of a details answer, as far as the adapter reads it; a
    key the provider leaves out reads as [None].  The identifier is read
    once with a default, which tells a key left out ([None]) from a key
    set to null ([Some None]). *)
Record RawDetails := {
  r_place_id : option (option str);
  r_name : option str;
  r_formatted_address : option str;
  r_rating : option number;
  r_user_ratings_total : option Z;
  r_price_level : option Z;
  r_weekday_text : option (list str);
  r_open_now : option bool;
  r_website : option str;
  r_url : option str;
  r_lat : option number;
  r_lng : option number;
}.

Record DetailsAnswer := { status : str; result : option RawDetails }.

(** The parameters of a text-search request. *)
Record SearchRequest := {
  sr_query : str;
  sr_key : str;
  sr_language : str;
  sr_location : option (latlng * Z);
}.

(** The provider behind [_http_get]: the results of a geocoding request
    (address, key, language) as coordinates, the results of a text search,
    and the answer to a details request (place, fields, key, language).
    A failed request answers with no result and an empty status. *)
Class Provider := {
  geocode_get : str → str → str → list latlng;
  textsearch_get : SearchRequest → list Seed;
  details_get : str → str → str → str → DetailsAnswer;
}.

(** [price_level_to_text], on an integer level or none. *)
Definition price_level_to_text (level : option Z) : option str :=
  match level with
  | None => None
  | Some level =>
    let level := Z.max 0 (Z.min 4 level) in
    Some (concat (replicate (Z.to_nat (level + 1)) (utf8 "₺")))
  end.

(** [build_maps_url_from_place_id]; [None] is the value of that name,
    which the format writes out. *)
Definition build_maps_url_from_place_id (place_id : option str) : str :=
  utf8 "https://www.google.com/maps/place/?q=place_id:"
  ++ match place_id with Some s => s | None => utf8 "None" end.

(** [maps_place_link_from_details]: the provider's link unless it is
    missing or blank. *)
Definition maps_place_link_from_details (place_id : option str)
    (details : RawDetails) : str :=
  match r_url details with
  | Some url => if nonempty (strip url) then url
                else build_maps_url_from_place_id place_id
  | None => build_maps_url_from_place_id place_id
  end.

(** The record [get_place_details] builds: the keys of [PlaceDetails] and
    the three the agent never reads. *)
Record Details := {
  details_record : PlaceDetails;
  details_price_level : option Z;
  details_open_now : option bool;
  details_location : option number * option number;
}.

Definition details_fields : str :=
  join (utf8 ",")
    (map utf8 [ "name"; "formatted_address"; "rating"; "user_ratings_total";
                "price_level"; "opening_hours/weekday_text";
                "opening_hours/open_now"; "website"; "url";
                "geometry/location"; "place_id" ]%string).

Definition no_details : RawDetails :=
  {| r_place_id := None; r_name := None; r_formatted_address := None;
     r_rating := None; r_user_ratings_total := None; r_price_level := None;
     r_weekday_text := None; r_open_now := None; r_website := None;
     r_url := None; r_lat := None; r_lng := None |}.

Section Adapter.
Context `{Provider}.

Definition geocode_city (city api_key : str) (country_hint : option str)
    (language : str) : option latlng :=
  if negb (nonempty city) || negb (nonempty api_key) then None
  else
    let q := if truthy country_hint
             then city ++ utf8 ", " ++ or_empty country_hint else city in
    head (geocode_get q api_key language).

Definition get_place_details (place_id api_key language : str)
  : option Details :=
  if negb (nonempty place_id) || negb (nonempty api_key) then None
  else
    let data := details_get place_id details_fields api_key language in
    if negb (bool_decide (status data = utf8 "OK")) then None
    else
      let r := default no_details (result data) in
      Some {| details_record :=
                {| place_id := default None (r_place_id r); name := r_name r;
                   formatted_address := r_formatted_address r;
                   rating := r_rating r;
                   user_ratings_total := r_user_ratings_total r;
                   price_text := price_level_to_text (r_price_level r);
                   weekday_text := default [] (r_weekday_text r);
                   website := r_website r;
                   maps_url :=
                     Some (maps_place_link_from_details
                             (default (Some []) (r_place_id r)) r);
                   types := []; serves_cuisine := None;
                   editorial_overview := None;
                   source := Some (utf8 "google_places");
                   match_status := None |};
              details_price_level := r_price_level r;
              details_open_now := r_open_now r;
              details_location := (r_lat r, r_lng r) |}.

(** [places_text_search]: the first [max_results] results, of which those
    with an identifier and a name are kept. *)
Definition places_text_search (query api_key : str)
    (location_bias : option latlng) (radius_m max_results : Z)
    (language : str) : list Seed :=
  if negb (nonempty query) || negb (nonempty api_key) then []
  else
    let params :=
      {| sr_query := query; sr_key := api_key; sr_language := language;
         sr_location := (λ c, (c, radius_m)) <$> location_bias |} in
    let results := slice_to max_results (textsearch_get params) in
    filter (λ r, truthy (seed_place_id r) && truthy (seed_name r) = true)
      results.

(** The services of the agent, as the adapter gives them (language "tr",
    no country hint). *)
Definition services : Places :=
  Build_Places latlng
    (λ city api_key, geocode_city city api_key None (utf8 "tr"))
    (λ query api_key bias radius_m max_results,
       Some (places_text_search query api_key bias (Z.of_N radius_m)
               (Z.of_N max_results) (utf8 "tr")))
    (λ place_id api_key,
       details_record <$> get_place_details place_id api_key (utf8 "tr")).

End Adapter.
End MapsApi.

(** ** The forecast helper (utils/weather_api.py) *)

Module WeatherApi.

(** [_clamp_hour]; [None] stands for a value [int] refuses. *)
Definition _clamp_hour (h : option Z) : Z :=
  Z.max 0 (Z.min 23 (default 18%Z h)).

(** [f"{h:02d}"] *)
Definition two_digits (h : Z) : str :=
  if (0 <=? h)%Z && (h <? 10)%Z then utf8 "0" ++ show_Z h else show_Z h.

Section Nearest.
(** The hourly values are whatever the provider sent; [to_float] is
    [float] and [to_int] is [int], [None] where they raise. *)
Context {V F : Type} (to_float : V → option F) (to_int : str → option Z).

(** First loop: the first time equal to the target, if a value stands at
    its index. *)
Fixpoint exact_index (target : str) (n : nat) (i : nat) (times : list str)
  : option nat :=
  match times with
  | [] => None
  | t :: r =>
    if bool_decide (t = target) && (i <? n)%nat then Some i
    else exact_index target n (S i) r
  end.

(** Second loop: the running nearest hour of the same day. *)
Definition nearer (day_str : str) (target_hour_local : Z) (n : nat)
    (best : option nat * Z) (it : nat * str) : option nat * Z :=
  let '(i, t) := it in
  if negb (startswith day_str t) then best
  else
    match to_int (take 2 (drop 11 t)) with
    | None => best
    | Some hh =>
      let diff := Z.abs (hh - target_hour_local) in
      if (diff <? best.2)%Z && (i <? n)%nat then (Some i, diff) else best
    end.

Definition _nearest_hour_value (day_str : str) (target_hour_local : Z)
    (times : list str) (values : list V) : option F :=
  match times, values with
  | [], _ | _, [] => None
  | _, _ =>
    let target := day_str ++ utf8 "T" ++ two_digits target_hour_local
                  ++ utf8 ":00" in
    match exact_index target (length values) 0 times with
    | Some i => values !! i ≫= to_float
    | None =>
      let best :=
        foldl (nearer day_str target_hour_local (length values))
          (None, 1000000000%Z) (imap (λ i t, (i, t)) times) in
      match best.1 with
      | Some i => values !! i ≫= to_float
      | None => None
      end
    end
  end.

End Nearest.
End WeatherApi.

(** ** The page (streamlit_app.py) *)

Module App.

(** [_filter_suggestions_by_city]; [vicinity] reads the key of that name,
    which the records of the adapter do not carry. *)
Definition first_filled (a b : option str) : str :=
  match or_empty a with [] => or_empty b | s => s end.

Definition _filter_suggestions_by_city `{Unicode}
    (vicinity : PlaceDetails → option str)
    (suggestions : list PlaceDetails) (city_name : option str)
  : list PlaceDetails :=
  let goal := casefold (or_empty city_name) in
  if negb (nonempty goal) then suggestions
  else
    let keep :=
      filter (λ v,
        let addr := casefold (first_filled (formatted_address v) (vicinity v)) in
        let name := casefold (or_empty (name v)) in
        contains addr goal || contains name goal = true) suggestions in
    match keep with [] => suggestions | _ => keep end.

(** The table of [_normalize_tr_ascii], which keeps the letter case:
    ı→i İ→I ş→s Ş→S ğ→g Ğ→G ü→u Ü→U ö→o Ö→O ç→c Ç→C. *)
Definition ascii_pairs : list (char * char) :=
  [ (305, 105); (304, 73); (351, 115); (350, 83); (287, 103); (286, 71);
    (252, 117); (220, 85); (246, 111); (214, 79); (231, 99); (199, 67) ].

(** [s.encode("ascii", "ignore").decode("ascii")] *)
Definition ascii_only (s : str) : str := filter (λ c, c < 128) s.

Definition _normalize_tr_ascii (s : option str) : str :=
  match s with
  | None => []
  | Some s => ascii_only (map (table_get ascii_pairs) (strip s))
  end.

(** [s.rfind(sub)]: the last place where [sub] begins, or -1. *)
Fixpoint rfind_from (i : nat) (last : Z) (s sub : str) : Z :=
  let last := if startswith sub s then Z.of_nat i else last in
  match s with
  | [] => last
  | _ :: r => rfind_from (S i) last r sub
  end.

Definition rfind (s sub : str) : Z := rfind_from 0 (-1)%Z s sub.

Definition ellipsis : str := [8230].

(** The shortening both functions apply to a text longer than [limit]. *)
Definition shorten (limit : Z) (text : str) : str :=
  let cut := slice_to limit text in
  let last_break :=
    Z.max (Z.max (Z.max (rfind cut [10]) (rfind cut (utf8 ". ")))
                 (rfind cut (utf8 "! "))) (rfind cut (utf8 "? ")) in
  if (100 <? last_break)%Z
  then rstrip (slice_to (last_break + 1) cut) ++ ellipsis
  else rstrip cut ++ ellipsis.

Definition over_limit (limit : Z) (text : str) : bool :=
  negb (limit =? 0)%Z && (limit <? Z.of_nat (length text))%Z.

Definition bullet_prefixes : list str :=
  map utf8 ["- "; "* "; "• "; "1. "; "2. "; "3. "]%string.

Definition is_bullet (ln : str) : bool :=
  existsb (λ p, startswith p (strip ln)) bullet_prefixes.

(** The loop of [_first_n_bullets]: the bullets kept, their count and the
    other lines. *)
Definition sort_line (n : Z) (st : list str * nat * list str) (ln : str)
  : list str * nat * list str :=
  let '(bullets, count, rest) := st in
  if is_bullet ln then
    if (Z.of_nat count <? n)%Z then (bullets ++ [ln], S count, rest)
    else st
  else (bullets, count, rest ++ [ln]).

Definition _first_n_bullets (md : str) (n : Z) (plain_char_limit : Z) : str :=
  let '(bullets, _, rest) := foldl (sort_line n) ([], 0%nat, []) (splitlines md) in
  let plain := strip (join [10] rest) in
  let plain :=
    if over_limit plain_char_limit plain then shorten plain_char_limit plain
    else plain in
  let parts :=
    (match plain with [] => [] | _ => [plain] end)
    ++ (match bullets with [] => [] | _ => [join [10] bullets] end) in
  strip (join [10; 10] parts).

(** A payload: a text, a list of items, or anything else (a dictionary such
    as the venue agent's response among them). *)
Inductive item (A : Type) := Text (s : str) | Other (a : A).
Arguments Text {A}. Arguments Other {A}.

Inductive payload (A : Type) :=
  | PText (s : str)
  | PList (l : list (item A))
  | PAny (a : A).
Arguments PText {A}. Arguments PList {A}. Arguments PAny {A}.

Definition _enforce_limits {A} (p : payload A) (max_bullets max_chars : Z)
  : payload A :=
  match p with
  | PText s =>
    let text := _first_n_bullets s max_bullets max_chars in
    PText (if over_limit max_chars text then shorten max_chars text else text)
  | PList l =>
    PList (slice_to max_bullets l
           ++ (if (max_bullets <? Z.of_nat (length l))%Z
               then [Text ellipsis] else []))
  | PAny a => PAny a
  end.

End App.

(** ** Notions and fixtures for the further properties *)

(** An hourly entry that the second loop of [_nearest_hour_value] can
    take: its time is on the day, its hour reads as [hh], and a value stands
    at its index. *)
Definition eligible (to_int : str → option Z) (day_str : str) (n : nat)
    (i : nat) (t : str) (hh : Z) : Prop :=
  startswith day_str t = true ∧ to_int (take 2 (drop 11 t)) = Some hh
  ∧ (i < n)%nat.

(** The hour of a time text, for the worked examples: two digits. *)
Definition two_digit_hour (s : str) : option Z :=
  match s with
  | [a; b] =>
    if (48 <=? a) && (a <=? 57) && (48 <=? b) && (b <=? 57)
    then Some (Z.of_N ((a - 48) * 10 + (b - 48))) else None
  | _ => None
  end.

Module Fixture.

(** A provider that finds three places for every query, the second
    without a name, and answers every details request with one
    trattoria. *)
Definition trattoria (pid : str) : MapsApi.RawDetails :=
  {| MapsApi.r_place_id := Some (Some pid);
     MapsApi.r_name := Some (utf8 "Trattoria Roma");
     MapsApi.r_formatted_address := Some (utf8 "Kordon 1, Izmir");
     MapsApi.r_rating := Some (Float (utf8 "4.5"));
     MapsApi.r_user_ratings_total := Some 120%Z;
     MapsApi.r_price_level := Some 2%Z;
     MapsApi.r_weekday_text := None; MapsApi.r_open_now := None;
     MapsApi.r_website := None; MapsApi.r_url := None;
     MapsApi.r_lat := None; MapsApi.r_lng := None |}.

Definition provider : MapsApi.Provider :=
  {| MapsApi.geocode_get := λ _ _ _, [];
     MapsApi.textsearch_get := λ _,
       [ Script.seed "p1" "Trattoria Roma";
         {| seed_place_id := Some (utf8 "p2"); seed_name := None |};
         Script.seed "p3" "Sushi Bar" ];
     MapsApi.details_get := λ pid _ _ _,
       {| MapsApi.status := utf8 "OK";
          MapsApi.result := Some (trattoria pid) |} |}.

End Fixture.

(** * Properties *)

(** ** Strings *)

Section StringFacts.

Lemma takewhile_dropwhile {A} (p : A → bool) (l : list A) :
  takewhile p l ++ dropwhile p l = l.
Proof.
  induction l as [|x l IH]; simpl; [done|].
  destruct (p x); simpl; [by rewrite IH | done].
Qed.

Lemma Forall_takewhile {A} (p : A → bool) (l : list A) :
  Forall (λ x, p x = true) (takewhile p l).
Proof.
  induction l as [|x l IH]; simpl; [constructor|].
  destruct (p x) eqn:E; by constructor.
Qed.

Lemma dropwhile_head {A} (p : A → bool) (l : list A) x r :
  dropwhile p l = x :: r → p x = false.
Proof.
  induction l as [|y l IH]; simpl; [done|].
  destruct (p y) eqn:E; [done|]. by intros [= <- _].
Qed.

Lemma dropwhile_suffix {A} (p : A → bool) (l : list A) :
  dropwhile p l `suffix_of` l.
Proof. exists (takewhile p l). by rewrite takewhile_dropwhile. Qed.

Lemma dropwhile_snoc {A} (p : A → bool) (l : list A) x :
  p x = false → dropwhile p (l ++ [x]) = dropwhile p l ++ [x].
Proof.
  intros Hx. induction l as [|y l IH]; simpl; [by rewrite Hx|].
  by destruct (p y).
Qed.

Lemma startswith_spec (p s : str) :
  startswith p s = true ↔ ∃ r, s = p ++ r.
Proof.
  revert s. induction p as [|a p IH]; intros s; simpl.
  - split; [by exists s | done].
  - destruct s as [|b s]; [split; [done | by intros [? ?]]|].
    rewrite andb_true_iff, N.eqb_eq, IH. split.
    + intros [-> [r ->]]. by exists r.
    + intros [r [= -> ->]]. split; [done | by exists r].
Qed.

Lemma contains_spec (hay needle : str) :
  contains hay needle = true ↔ occurs_in needle hay.
Proof.
  unfold occurs_in. induction hay as [|c hay IH]; simpl.
  - rewrite orb_false_r, startswith_spec. split.
    + intros [r Hr]. by exists [], r.
    + intros (pre & post & Heq). symmetry in Heq.
      apply app_eq_nil in Heq as [-> Heq]. apply app_eq_nil in Heq as [-> ->].
      by exists [].
  - rewrite orb_true_iff, startswith_spec, IH. split.
    + intros [[r Hr] | (pre & post & ->)].
      * by exists [], r.
      * by exists (c :: pre), post.
    + intros ([|c' pre] & post & Heq); simpl in Heq.
      * left. by exists post.
      * right. injection Heq as <- ->. by exists pre, post.
Qed.

Lemma contains_empty (hay : str) : contains hay [] = true.
Proof. by destruct hay. Qed.

(** Stripping leaves a piece of the string that neither starts nor ends
    with white space. *)
Lemma strip_occurs (s : str) : occurs_in (strip s) s.
Proof.
  unfold strip, rstrip, lstrip.
  destruct (dropwhile_suffix isspace s) as [pre Hpre].
  destruct (dropwhile_suffix isspace (rev (dropwhile isspace s))) as [post Hpost].
  exists pre, (rev post). rewrite <- rev_app_distr, <- Hpost, rev_involutive.
  exact Hpre.
Qed.

Lemma lstrip_fixed (s : str) :
  match s with c :: _ => isspace c = false | [] => True end → lstrip s = s.
Proof. unfold lstrip. destruct s as [|c s]; simpl; [done|]. by intros ->. Qed.

Lemma strip_cons (s : str) c r :
  lstrip s = c :: r → strip s = c :: rev (dropwhile isspace (rev r)).
Proof.
  intros E. unfold strip, rstrip. rewrite E. simpl.
  rewrite dropwhile_snoc by (eapply dropwhile_head, E).
  by rewrite rev_app_distr.
Qed.

Lemma strip_idemp (s : str) : strip (strip s) = strip s.
Proof.
  destruct (lstrip s) as [|c r] eqn:E.
  - unfold strip, rstrip. by rewrite E.
  - rewrite (strip_cons _ _ _ E).
    assert (Hc : isspace c = false) by (eapply dropwhile_head, E).
    erewrite strip_cons; [|by apply lstrip_fixed].
    f_equal. rewrite rev_involutive.
    destruct (dropwhile isspace (rev r)) as [|d t] eqn:E'; [done|].
    simpl. by rewrite (dropwhile_head _ _ _ _ E').
Qed.

End StringFacts.

(** ** Normalisation *)

Section Normalizer.
Context `{Unicode}.

Lemma table_get_other (d : list (char * char)) c :
  c ∉ d.*1 → table_get d c = c.
Proof.
  induction d as [|[k v] d IH]; simpl; [done|].
  intros Hc. apply not_elem_of_cons in Hc as [Hk Hd].
  destruct (N.eqb_spec k c); [congruence | auto].
Qed.

Lemma table_get_key (d : list (char * char)) c :
  c ∈ d.*1 → table_get d c ∈ d.*2.
Proof.
  induction d as [|[k v] d IH]; simpl; [by intros ?%elem_of_nil|].
  intros Hc. destruct (N.eqb_spec k c) as [->|Hne]; [left|].
  apply elem_of_cons in Hc as [->|Hc]; [done|]. right. auto.
Qed.

Lemma tr_table_not_key c : tr_table c ∉ tr_keys.
Proof.
  unfold tr_table. destruct (decide (c ∈ tr_keys)) as [Hin|Hout].
  - apply table_get_key in Hin. revert Hin.
    generalize (table_get tr_pairs c). intros v Hv Hk.
    assert (Hdisj : Forall (λ v, v ∉ tr_keys) tr_pairs.*2)
      by (apply (bool_decide_unpack _); by vm_compute).
    by eapply Forall_forall in Hdisj.
  - by rewrite table_get_other.
Qed.

Lemma translate_fixed (s : str) :
  Forall (λ c, c ∉ tr_keys) s → translate s = s.
Proof.
  induction 1 as [|c s Hc _ IH]; simpl; [done|].
  unfold tr_table. by rewrite table_get_other, IH.
Qed.

Lemma casefold_app (s t : str) : casefold (s ++ t) = casefold s ++ casefold t.
Proof. apply flat_map_app. Qed.

Lemma casefold_idemp (s : str) :
  casefold_stable → casefold (casefold s) = casefold s.
Proof.
  intros Hst. induction s as [|c s IH]; [done|].
  change (casefold (c :: s)) with (casefold_char c ++ casefold s).
  by rewrite casefold_app, Hst, IH.
Qed.

Lemma casefold_translate_no_key (s : str) :
  casefold_spares_table →
  Forall (λ c, c ∉ tr_keys) (casefold (translate s)).
Proof.
  intros Hsp. induction s as [|c s IH]; [constructor|].
  change (casefold (translate (c :: s)))
    with (casefold_char (tr_table c) ++ casefold (translate s)).
  apply Forall_app. split; [|done].
  apply Forall_forall. intros d Hd Hk.
  by apply (tr_table_not_key c), (Hsp _ d).
Qed.

(** C8. Normalising a normalised string changes nothing, for every string
    (and for a non-string argument, which normalises to the empty string),
    given the two facts about Unicode case folding. *)
Theorem normalize_tr_idempotent (s : option str) :
  casefold_stable → casefold_spares_table →
  _normalize_tr (Some (_normalize_tr s)) = _normalize_tr s.
Proof.
  intros Hst Hsp. destruct s as [s|]; [|done]. simpl.
  rewrite translate_fixed by by apply casefold_translate_no_key.
  by apply casefold_idemp.
Qed.

End Normalizer.

(** The Latin instance has the two folding properties. *)
Module LatinFacts.
Import Latin.

Lemma below_384 (P : N → Prop) :
  Forall P (N.of_nat <$> seq 0 384) → ∀ c, c < 384 → P c.
Proof.
  intros HP c Hc. rewrite Forall_forall in HP. apply HP.
  apply list_elem_of_fmap. exists (N.to_nat c). split; [lia|].
  apply elem_of_seq. lia.
Qed.

Ltac settle_comparisons :=
  repeat first
    [ rewrite (proj2 (N.eqb_neq _ _)) by lia
    | rewrite (proj2 (N.leb_le _ _)) by lia
    | rewrite (proj2 (N.leb_gt _ _)) by lia ].

Lemma fold_char_high c : 384 ≤ c → fold_char c = [c].
Proof.
  intros Hc. unfold fold_char, lower_char. settle_comparisons. done.
Qed.

Lemma stable : casefold_stable.
Proof.
  intros c. destruct (N.lt_ge_cases c 384) as [Hc|Hc].
  - revert c Hc. apply below_384, (bool_decide_unpack _). by vm_compute.
  - unfold casefold, casefold_char, unicode.
    rewrite (fold_char_high c Hc). simpl. by rewrite (fold_char_high c Hc).
Qed.

Lemma spares_table : casefold_spares_table.
Proof.
  intros c. destruct (N.lt_ge_cases c 384) as [Hc|Hc].
  - assert (Hall : Forall (λ d, d ∈ tr_keys → c ∈ tr_keys) (fold_char c)).
    { revert c Hc. apply below_384, (bool_decide_unpack _). by vm_compute. }
    intros d Hd. by apply (proj1 (Forall_forall _ _) Hall).
  - unfold casefold_char, unicode. rewrite (fold_char_high c Hc).
    by intros d ->%list_elem_of_singleton.
Qed.

End LatinFacts.

Lemma normalize_tr_idempotent_witness :
  let s := Some (utf8 "İSTANBUL Çarşı, Beyoğlu") in
  @casefold_stable Latin.unicode ∧ @casefold_spares_table Latin.unicode
  ∧ @_normalize_tr Latin.unicode (Some (@_normalize_tr Latin.unicode s))
    = @_normalize_tr Latin.unicode s.
Proof.
  intros s. split; [apply LatinFacts.stable|].
  split; [apply LatinFacts.spares_table|].
  apply (@normalize_tr_idempotent Latin.unicode s).
  - apply LatinFacts.stable.
  - apply LatinFacts.spares_table.
Defined.

(** ** City containment *)

Section InCity.
Context `{Unicode}.

Lemma nonempty_true (s : str) : nonempty s = true ↔ s ≠ [].
Proof. by destruct s. Qed.

Lemma in_city_eq (addr : option str) (city : str) :
  _in_city addr city
  = truthy addr && nonempty city
    && contains (_normalize_tr addr) (_normalize_tr (Some city)).
Proof.
  unfold _in_city. by destruct (truthy addr), (nonempty city).
Qed.

(** C7, as the code has it. The test is true exactly when address and city
    are both non-empty and the normalised city occurs inside the normalised
    address; so it is false when the normalised city does not occur in the
    normalised address, and in particular when neither normalised string
    occurs in the other. *)
Theorem in_city_one_direction (addr : option str) (city : str) :
  (_in_city addr city = true
   ↔ truthy addr = true ∧ city ≠ []
     ∧ occurs_in (_normalize_tr (Some city)) (_normalize_tr addr))
  ∧ (¬ occurs_in (_normalize_tr (Some city)) (_normalize_tr addr)
     → ¬ occurs_in (_normalize_tr addr) (_normalize_tr (Some city))
     → _in_city addr city = false).
Proof.
  assert (Hiff : _in_city addr city = true
    ↔ truthy addr = true ∧ city ≠ []
      ∧ occurs_in (_normalize_tr (Some city)) (_normalize_tr addr)).
  { rewrite in_city_eq, !andb_true_iff, contains_spec, nonempty_true. tauto. }
  split; [done|]. intros Hno _.
  apply not_true_is_false. intros E. apply Hiff in E. tauto.
Qed.

(** An empty city is contained in no address. *)
Lemma in_city_empty_city (addr : option str) : _in_city addr [] = false.
Proof. unfold _in_city. simpl. by rewrite orb_true_r. Qed.

End InCity.

Lemma in_city_one_direction_witness :
  @_in_city Latin.unicode (Some (utf8 "Kızılay Mah. 5, Çankaya/ANKARA")) (utf8 "Ankara") = true
  ∧ @_in_city Latin.unicode (Some (utf8 "Konak, İzmir")) (utf8 "Ankara") = false.
Proof.
  split.
  - apply (@in_city_one_direction Latin.unicode). split; [done|]. split; [done|].
    apply contains_spec. by vm_compute.
  - apply (@in_city_one_direction Latin.unicode);
      rewrite <- contains_spec; by vm_compute.
Defined.

(** C7, as the specification has it, fails: the normalised address
    "ankara" occurs inside the normalised city "ankara, turkiye", and the
    test is false. *)
Lemma in_city_not_bidirectional :
  ¬ (∀ (addr : option str) (city : str),
       occurs_in (@_normalize_tr Latin.unicode (Some city)) (@_normalize_tr Latin.unicode addr)
       ∨ occurs_in (@_normalize_tr Latin.unicode addr) (@_normalize_tr Latin.unicode (Some city))
       → @_in_city Latin.unicode addr city = true).
Proof.
  intros Hall.
  specialize (Hall (Some (utf8 "Ankara")) (utf8 "Ankara, Türkiye")).
  assert (Hf : @_in_city Latin.unicode (Some (utf8 "Ankara")) (utf8 "Ankara, Türkiye") = false)
    by (by vm_compute).
  rewrite Hall in Hf; [done|]. right. apply contains_spec. by vm_compute.
Qed.

(** ** Resolver *)

Section ResolverFacts.
Context `{Unicode} `{Places}.

(** The overlap counts the distinct words of the lowered candidate name
    that are words of the lowered record name. *)
Lemma overlap_count (venue_name : str) (det : PlaceDetails) :
  overlap venue_name det
  = Z.of_nat (length
      (filter (λ w, w ∈ split (lower (or_empty (name det))))
              (remove_dups (split (lower venue_name))))).
Proof.
  unfold overlap. f_equal.
  rewrite <- (size_list_to_set (C:=gset str)).
  - f_equal. apply set_eq. intros w.
    rewrite elem_of_intersection, !elem_of_list_to_set, list_elem_of_filter,
      elem_of_remove_dups. tauto.
  - apply NoDup_filter, NoDup_remove_dups.
Qed.

Lemma score_formula (venue_name city ckey : str) (det : PlaceDetails) :
  score venue_name city ckey det
  = (overlap venue_name det
     + (if _in_city (Some (or_empty (formatted_address det))) city then 2 else 0)
     + (if nonempty ckey
        then if _matches_cuisine det ckey then 3 else -2
        else 0))%Z.
Proof.
  unfold score.
  destruct (_in_city _ city), (nonempty ckey), (_matches_cuisine det ckey); lia.
Qed.

(** The two nested loops score the candidates one after the other. *)
Lemma try_seeds_candidates ag venue_name city ckey (seeds : list Seed) best :
  foldl (try_seed ag venue_name city ckey) best seeds
  = foldl (consider venue_name city ckey) best (omap (seed_details ag) seeds).
Proof.
  revert best. induction seeds as [|s seeds IH]; intros best; simpl; [done|].
  rewrite IH. unfold try_seed. by destruct (seed_details ag s).
Qed.

Lemma try_queries_candidates ag center venue_name city ckey queries best :
  foldl (try_query ag center venue_name city ckey) best queries
  = foldl (consider venue_name city ckey) best (candidates ag center queries).
Proof.
  revert best. induction queries as [|q queries IH]; intros best; [done|].
  unfold candidates. simpl. rewrite foldl_app, IH. f_equal.
  unfold try_query. destruct (places_text_search _ _ _ _ _); [|done].
  apply try_seeds_candidates.
Qed.

(** The running best after a list of records: either nothing beat the
    starting score, or the first record of highest score did. *)
Lemma running_best venue_name city ckey (l : list PlaceDetails) (m : Z) o :
  let sc := score venue_name city ckey in
  (Forall (λ x, (sc x ≤ m)%Z) l
   ∧ foldl (consider venue_name city ckey) (m, o) l = (m, o))
  ∨ (∃ r, first_best sc r l ∧ (m < sc r)%Z
       ∧ foldl (consider venue_name city ckey) (m, o) l = (sc r, Some r)).
Proof.
  intros sc. revert m o. induction l as [|x l IH]; intros m o.
  { left. by split. }
  simpl.
  assert (Hstep : consider venue_name city ckey (m, o) x
                  = if (m <? sc x)%Z then (sc x, Some x) else (m, o)) by done.
  rewrite Hstep. clear Hstep.
  destruct (Z.ltb_spec m (sc x)) as [Hlt|Hge].
  - right. destruct (IH (sc x) (Some x)) as [[Hall ->]|(r & Hr & Hxr & ->)].
    + exists x. split; [|done]. exists [], l. split; [done|]. by split.
    + exists r. split; [|split; [lia | done]].
      destruct Hr as (pre & post & -> & Hpre & Hpost).
      exists (x :: pre), post. split; [done|]. split; [|done].
      constructor; [lia | done].
  - destruct (IH m o) as [[Hall ->]|(r & Hr & Hmr & ->)].
    + left. split; [|done]. by constructor.
    + right. exists r. split; [|done].
      destruct Hr as (pre & post & -> & Hpre & Hpost).
      exists (x :: pre), post. split; [done|]. split; [|done].
      constructor; [lia | done].
Qed.

Lemma resolver_unfold ag venue_name city cuisine :
  google_api_key ag ≠ [] →
  _search_venue_in_places ag venue_name city cuisine
  = (foldl (consider venue_name city (lower (strip cuisine))) ((-1)%Z, None)
       (candidates ag (center_of ag city) (resolver_queries venue_name city))).2.
Proof.
  intros Hk%nonempty_true. unfold _search_venue_in_places.
  rewrite Hk. cbn [negb]. by rewrite try_queries_candidates.
Qed.

Lemma resolver_no_key ag venue_name city cuisine :
  google_api_key ag = [] →
  _search_venue_in_places ag venue_name city cuisine = None.
Proof. intros Hk. unfold _search_venue_in_places. by rewrite Hk. Qed.

Lemma resolver_result ag venue_name city cuisine :
  let sc := score venue_name city (lower (strip cuisine)) in
  let cands :=
    candidates ag (center_of ag city) (resolver_queries venue_name city) in
  match _search_venue_in_places ag venue_name city cuisine with
  | Some r => google_api_key ag ≠ [] ∧ (0 ≤ sc r)%Z ∧ first_best sc r cands
  | None => google_api_key ag = [] ∨ Forall (λ x, (sc x < 0)%Z) cands
  end.
Proof.
  intros sc cands. destruct (decide (google_api_key ag = [])) as [Hk|Hk].
  { rewrite resolver_no_key by done. by left. }
  rewrite resolver_unfold by done. fold cands.
  destruct (running_best venue_name city (lower (strip cuisine)) cands (-1) None)
    as [[Hall ->]|(r & Hr & Hpos & ->)]; simpl.
  - right. eapply Forall_impl; [exact Hall|]. simpl. fold sc. lia.
  - fold sc in Hpos. split; [done|]. split; [lia | done].
Qed.

End ResolverFacts.

(** C1, as the code has it. Each resolved record scores the number of
    distinct lowered words its name shares with the candidate name, plus 2
    if its address contains the city, and, when the cuisine is not blank,
    plus 3 if the cuisine matcher accepts it and minus 2 otherwise.  With a
    lookup key, the resolver returns the first record of highest score over
    the four queries and all their seeds provided that score is at least 0,
    the running best starting at -1; it returns nothing when every record
    scores below 0 (or no key is configured).  Scenario D: the namesake in
    the city scores 2, the French bistro elsewhere scores 3 and is
    returned. *)
Theorem resolver_first_best_above_sentinel :
  (∀ `{Unicode} `{Places} ag venue_name city cuisine,
     let ckey := lower (strip cuisine) in
     let sc := score venue_name city ckey in
     let cands :=
       candidates ag (center_of ag city) (resolver_queries venue_name city) in
     (∀ det,
        sc det
        = (overlap venue_name det
           + (if _in_city (Some (or_empty (formatted_address det))) city
              then 2 else 0)
           + (if nonempty ckey
              then if _matches_cuisine det ckey then 3 else -2
              else 0))%Z)
     ∧ match _search_venue_in_places ag venue_name city cuisine with
       | Some r => google_api_key ag ≠ [] ∧ (0 ≤ sc r)%Z ∧ first_best sc r cands
       | None => google_api_key ag = [] ∨ Forall (λ x, (sc x < 0)%Z) cands
       end)
  ∧ (let sc := @score Latin.unicode (utf8 "Le Jardin") (utf8 "Paris") (utf8 "french") in
     sc Script.le_jardin = 2%Z ∧ sc Script.bistro = 3%Z
     ∧ @_search_venue_in_places Latin.unicode Script.scenario_D Script.agent
         (utf8 "Le Jardin") (utf8 "Paris") (utf8 "French")
       = Some Script.bistro).
Proof.
  split.
  - intros U P ag venue_name city cuisine ckey sc cands. split.
    + intros det. apply score_formula.
    + apply resolver_result.
  - by vm_compute.
Qed.

(** C1, as the specification has it, fails: every query finds the diner in
    Lyon, which shares no word with "Le Jardin", is not in Paris and is not
    French; it scores -2, below the starting score, and although it is the
    record of highest score the resolver returns nothing. *)
Lemma resolver_drops_negative_best :
  ¬ (∀ (U : Unicode) (P : Places) ag venue_name city cuisine,
       let sc := score venue_name city (lower (strip cuisine)) in
       let cands :=
         candidates ag (center_of ag city) (resolver_queries venue_name city) in
       google_api_key ag ≠ [] → cands ≠ [] →
       ∃ r, _search_venue_in_places ag venue_name city cuisine = Some r
            ∧ first_best sc r cands).
Proof.
  intros Hall.
  destruct (Hall Latin.unicode Script.only_diner Script.agent
              (utf8 "Le Jardin") (utf8 "Paris") (utf8 "French"))
    as (r & Hr & _); [done | done |].
  by vm_compute in Hr.
Qed.

(** The diner is met four times, once per query, and scores -2. *)
Example only_diner_scores :
  @candidates Script.only_diner Script.agent None
    (resolver_queries (utf8 "Le Jardin") (utf8 "Paris"))
  = [Script.diner; Script.diner; Script.diner; Script.diner]
  ∧ @score Latin.unicode (utf8 "Le Jardin") (utf8 "Paris") (utf8 "french")
      Script.diner = (-2)%Z.
Proof. by vm_compute. Qed.

(** ** Fallback search *)

Section FallbackFacts.
Context `{Unicode} `{Places}.

Lemma fallback_no_key ag city venue_type audience cuisine is_outdoor :
  google_api_key ag = [] →
  _get_fallback_venues ag city venue_type audience cuisine is_outdoor = [].
Proof. intros Hk. unfold _get_fallback_venues. by rewrite Hk. Qed.

Lemma accept_seeds_cons ag city cuisine is_outdoor s ss results :
  accept_seeds ag city cuisine is_outdoor (s :: ss) results
  = if (3 <=? length results)%nat then results
    else
      match seed_details ag s with
      | None => accept_seeds ag city cuisine is_outdoor ss results
      | Some det =>
        if negb (_in_city (formatted_address det) city)
        then accept_seeds ag city cuisine is_outdoor ss results
        else if negb is_outdoor && nonempty cuisine
                && negb (_matches_cuisine det cuisine)
        then accept_seeds ag city cuisine is_outdoor ss results
        else accept_seeds ag city cuisine is_outdoor ss (results ++ [det])
      end.
Proof. done. Qed.

(** In outdoor mode the details loop never looks at the cuisine. *)
Lemma accept_seeds_outdoor ag city c1 c2 seeds results :
  accept_seeds ag city c1 true seeds results
  = accept_seeds ag city c2 true seeds results.
Proof.
  revert results. induction seeds as [|s seeds IH]; intros results; [done|].
  rewrite !accept_seeds_cons.
  destruct (3 <=? length results)%nat; [done|].
  destruct (seed_details ag s) as [det|]; [|done].
  destruct (_in_city (formatted_address det) city); simpl; by rewrite ?IH.
Qed.

(** With an empty city every seed is passed over. *)
Lemma accept_seeds_empty_city ag cuisine is_outdoor seeds results :
  accept_seeds ag [] cuisine is_outdoor seeds results = results.
Proof.
  revert results. induction seeds as [|s seeds IH]; intros results; [done|].
  rewrite accept_seeds_cons.
  destruct (3 <=? length results)%nat; [done|].
  destruct (seed_details ag s) as [det|]; [|by apply IH].
  rewrite in_city_empty_city. simpl. apply IH.
Qed.

Lemma accept_seeds_length ag city cuisine is_outdoor seeds results :
  (length results ≤ 3)%nat →
  (length (accept_seeds ag city cuisine is_outdoor seeds results) ≤ 3)%nat.
Proof.
  revert results. induction seeds as [|s seeds IH]; intros results Hlen; [done|].
  rewrite accept_seeds_cons.
  destruct (Nat.leb_spec 3 (length results)) as [Hfull|Hroom]; [done|].
  destruct (seed_details ag s) as [det|]; [|by apply IH].
  destruct (negb (_in_city (formatted_address det) city)); [by apply IH|].
  destruct (negb is_outdoor && nonempty cuisine && negb (_matches_cuisine det cuisine));
    [by apply IH|].
  apply IH. rewrite length_app. simpl. lia.
Qed.

Lemma fallback_at_most_three ag city venue_type audience cuisine is_outdoor :
  (length (_get_fallback_venues ag city venue_type audience cuisine is_outdoor) ≤ 3)%nat.
Proof.
  unfold _get_fallback_venues.
  destruct (negb (nonempty (google_api_key ag))); simpl; [lia|].
  apply accept_seeds_length. simpl. lia.
Qed.

(** C3. In outdoor mode the fallback returns the same records whatever the
    cuisine: the queries are the outdoor terms joined with the city, and the
    cuisine filter is not applied. *)
Theorem fallback_outdoor_ignores_cuisine ag city venue_type audience c1 c2 :
  fallback_queries city venue_type c1 true = fallback_queries city venue_type c2 true
  ∧ _get_fallback_venues ag city venue_type audience c1 true
    = _get_fallback_venues ag city venue_type audience c2 true.
Proof.
  split; [done|]. unfold _get_fallback_venues.
  destruct (negb (nonempty (google_api_key ag))); [done|].
  apply accept_seeds_outdoor.
Qed.

(** C10. An empty city is contained in no address; so the fallback returns
    no record for an empty city, whatever its other arguments and whatever
    the services return, and the resolver's score for an empty city is the
    overlap and the cuisine adjustment only, without the bonus of 2. *)
Theorem empty_city_never_contained :
  (∀ addr : option str, _in_city addr [] = false)
  ∧ (∀ ag venue_type audience cuisine is_outdoor,
       _get_fallback_venues ag [] venue_type audience cuisine is_outdoor = [])
  ∧ (∀ venue_name ckey det,
       score venue_name [] ckey det
       = (overlap venue_name det
          + (if nonempty ckey
             then if _matches_cuisine det ckey then 3 else -2
             else 0))%Z).
Proof.
  split; [apply in_city_empty_city|]. split.
  - intros ag venue_type audience cuisine is_outdoor. unfold _get_fallback_venues.
    destruct (negb (nonempty (google_api_key ag))); [done|].
    apply accept_seeds_empty_city.
  - intros venue_name ckey det.
    rewrite score_formula, in_city_empty_city. lia.
Qed.

End FallbackFacts.

(** ** Orchestrator *)

Section OrchestratorFacts.
Context `{Unicode} `{Places} `{Assistant}.

Lemma or_empty_Some (s : str) : or_empty (Some s) = s.
Proof. by destruct s. Qed.

Lemma extract_at_most_three (text : option str) :
  (length (_extract_venue_names_from_text text) ≤ 3)%nat.
Proof.
  destruct text as [[|c text]|]; simpl; try lia.
  rewrite length_take. lia.
Qed.

Lemma names_of_at_most_three (reply : option str) :
  (length (names_of reply) ≤ 3)%nat.
Proof.
  unfold names_of. destruct (truthy reply); [|simpl; lia].
  apply extract_at_most_three.
Qed.

(** The loop over the names appends, for each name in turn, the marked
    record when the resolver found one and it passes the acceptance test. *)
Lemma resolve_names_flat_map ag ctx (names : list str) enriched :
  foldl (resolve_name ag ctx) enriched names
  = enriched ++ flat_map (λ n, resolve_name ag ctx [] n) names.
Proof.
  revert enriched. induction names as [|n names IH]; intros enriched; simpl.
  { by rewrite app_nil_r. }
  rewrite IH, app_assoc. f_equal.
  unfold resolve_name.
  destruct (_search_venue_in_places ag n (ctx_city ctx) (cuisine_effective ctx));
    [|by rewrite app_nil_r].
  by destruct (is_outdoor_of ctx || negb (nonempty (ctx_cuisine ctx))
               || _matches_cuisine p (ctx_cuisine ctx)); rewrite ?app_nil_r.
Qed.

Lemma resolve_name_one ag ctx n r :
  r ∈ resolve_name ag ctx [] n
  ↔ ∃ det,
      _search_venue_in_places ag n (ctx_city ctx) (cuisine_effective ctx) = Some det
      ∧ (is_outdoor_of ctx = true ∨ ctx_cuisine ctx = []
         ∨ _matches_cuisine det (ctx_cuisine ctx) = true)
      ∧ r = mark (utf8 "google_places") det.
Proof.
  unfold resolve_name.
  destruct (_search_venue_in_places ag n (ctx_city ctx) (cuisine_effective ctx))
    as [det|].
  - destruct (is_outdoor_of ctx) eqn:Eo; simpl.
    { rewrite list_elem_of_singleton. split.
      - intros ->. exists det. auto.
      - by intros (? & [= <-] & _ & ->). }
    destruct (ctx_cuisine ctx) as [|c cu] eqn:Ec; simpl.
    { rewrite list_elem_of_singleton. split.
      - intros ->. exists det. auto.
      - by intros (? & [= <-] & _ & ->). }
    destruct (_matches_cuisine det (c :: cu)) eqn:Em.
    + rewrite list_elem_of_singleton. split.
      * intros ->. exists det. auto.
      * by intros (? & [= <-] & _ & ->).
    + split; [by intros ?%elem_of_nil|].
      intros (? & [= <-] & [?|[?|?]] & _); congruence.
  - split; [by intros ?%elem_of_nil | by intros (? & ? & _)].
Qed.

Lemma after_resolution_elem ag ctx r :
  r ∈ after_resolution ag ctx
  ↔ ∃ n det,
      n ∈ names_of (_call_llm_unified (prompt_of ag ctx))
      ∧ _search_venue_in_places ag n (ctx_city ctx) (cuisine_effective ctx) = Some det
      ∧ (is_outdoor_of ctx = true ∨ ctx_cuisine ctx = []
         ∨ _matches_cuisine det (ctx_cuisine ctx) = true)
      ∧ r = mark (utf8 "google_places") det.
Proof.
  unfold after_resolution. rewrite resolve_names_flat_map. simpl.
  rewrite list_elem_of_In, in_flat_map. split.
  - intros (n & Hn%list_elem_of_In & Hr%list_elem_of_In).
    apply resolve_name_one in Hr as (det & ?). by exists n, det.
  - intros (n & det & Hn & Hrest). exists n.
    rewrite <- !list_elem_of_In. split; [done|].
    apply resolve_name_one. by exists det.
Qed.

Lemma resolve_name_short ag ctx n :
  (length (resolve_name ag ctx [] n) ≤ 1)%nat.
Proof.
  unfold resolve_name.
  destruct (_search_venue_in_places _ _ _ _); [|simpl; lia].
  destruct (_ || _); simpl; lia.
Qed.

Lemma after_resolution_at_most_three ag ctx :
  (length (after_resolution ag ctx) ≤ 3)%nat.
Proof.
  unfold after_resolution. rewrite resolve_names_flat_map. simpl.
  pose proof (names_of_at_most_three (_call_llm_unified (prompt_of ag ctx))) as Hn.
  revert Hn. generalize (names_of (_call_llm_unified (prompt_of ag ctx))).
  intros names. 
  assert (Hlen : (length (flat_map (λ n, resolve_name ag ctx [] n) names)
                  ≤ length names)%nat).
  { induction names as [|n names IH]; simpl; [lia|].
    rewrite length_app. pose proof (resolve_name_short ag ctx n). lia. }
  lia.
Qed.

Lemma suggestions_after_guard ag ctx :
  suggestions (process_request ag ctx) = (after_guard ag ctx).1.
Proof.
  unfold process_request, run_request. by destruct (after_guard ag ctx).
Qed.

Lemma display_after_guard ag ctx :
  unified_display (process_request ag ctx)
  = _format_weather_and_venues (_get_weather_line ag ctx)
      (after_guard ag ctx).1 (ctx_city ctx).
Proof.
  unfold process_request, run_request. by destruct (after_guard ag ctx).
Qed.

Lemma calls_after_guard ag ctx :
  fallback_calls ag ctx = (after_guard ag ctx).2.
Proof.
  unfold fallback_calls, run_request. by destruct (after_guard ag ctx).
Qed.

(** The three ways a request ends: with the resolved records, with the
    first fallback's records, or with the retry's. *)
Lemma after_guard_cases ag ctx :
  let c0 := {| fc_city := ctx_city ctx; fc_venue_type := venue_type_of ctx;
               fc_audience := ctx_audience ctx;
               fc_cuisine := cuisine_effective ctx;
               fc_is_outdoor := is_outdoor_of ctx |} in
  let c1 := {| fc_city := ctx_city ctx; fc_venue_type := venue_type_of ctx;
               fc_audience := ctx_audience ctx; fc_cuisine := [];
               fc_is_outdoor := true |} in
  (after_resolution ag ctx ≠ [] ∧ final_guard ag ctx = false
   ∧ after_guard ag ctx = (after_resolution ag ctx, []))
  ∨ (after_resolution ag ctx = [] ∧ final_guard ag ctx = false
     ∧ after_guard ag ctx
       = (mark (utf8 "fallback_search") <$> run_fallback ag c0, [c0]))
  ∨ (after_resolution ag ctx = [] ∧ final_guard ag ctx = true
     ∧ run_fallback ag c0 = []
     ∧ is_outdoor_of ctx = true ∧ ctx_cuisine ctx ≠ []
     ∧ after_guard ag ctx
       = (mark (utf8 "fallback_search") <$> run_fallback ag c1, [c0; c1])).
Proof.
  intros c0 c1. unfold after_guard, final_guard, after_fallback.
  destruct (after_resolution ag ctx) as [|r l] eqn:E.
  - unfold call_fallback. fold c0. simpl.
    destruct (run_fallback ag c0) as [|d ds] eqn:E0; simpl.
    + destruct (is_outdoor_of ctx) eqn:Eo; simpl; [|by right; left].
      destruct (ctx_cuisine ctx) as [|c cu] eqn:Ec; simpl; [by right; left|].
      right. right. by fold c1.
    + by right; left.
  - left. by simpl.
Qed.

End OrchestratorFacts.

Section OrchestratorTheorems.
Context `{Unicode} `{Places} `{Assistant}.

Lemma mark_found src det : match_status (mark src det) = Some (utf8 "found").
Proof. done. Qed.

Lemma format_no_venues weather_info city :
  ∃ head, _format_weather_and_venues weather_info [] city
          = head ++ no_venues_notice.
Proof.
  unfold _format_weather_and_venues.
  generalize no_venues_notice (utf8 "📅 **Weather:** "). intros notice label.
  destruct (nonempty weather_info).
  - exists (label ++ weather_info ++ nl ++ nl).
    simpl. by rewrite <- !app_assoc.
  - exists []. reflexivity.
Qed.

Lemma construction_needs_model_key (cfg : Configuration) :
  truthy (environ cfg (utf8 "GOOGLE_API_KEY")) = false →
  VenueAgent_init cfg
  = Raises (RuntimeError
      (utf8 "Missing GOOGLE_API_KEY. Put it in your .env or export it in the shell.")).
Proof.
  intros Hkey. unfold VenueAgent_init, BaseAgent_init. cbv zeta.
  generalize (utf8 "Missing GOOGLE_API_KEY. Put it in your .env or export it in the shell.").
  intros msg. by rewrite Hkey.
Qed.

Lemma or_empty_filled (o : option str) : truthy o = true → or_empty o ≠ [].
Proof. by destruct o as [[|c s]|]. Qed.

Lemma or_else_filled (a b : option str) :
  truthy b = true → truthy (or_else a b) = true.
Proof. intros Hb. unfold or_else. by destruct (truthy a) eqn:Ea. Qed.

Lemma constructed_key_filled (cfg : Configuration) :
  truthy (environ cfg (utf8 "GOOGLE_API_KEY")) = true →
  ∃ ag, VenueAgent_init cfg = Returns ag ∧ google_api_key ag ≠ [].
Proof.
  intros Hkey. unfold VenueAgent_init, BaseAgent_init. cbv zeta.
  generalize (utf8 "Missing GOOGLE_API_KEY. Put it in your .env or export it in the shell.").
  intros msg. rewrite Hkey. cbn [negb mbind outcome_bind].
  eexists. split; [done|]. cbn [google_api_key].
  by apply or_empty_filled, or_else_filled, or_else_filled.
Qed.

(** The weather step raises exactly on a short date text, and otherwise
    returns the line [process_request] works with. *)
Lemma weather_line_outcome ag ctx :
  Raising._get_weather_line ag ctx
  = if date_text_short ctx
    then Raises (AttributeError (utf8 "'str' object has no attribute 'isoformat'"))
    else Returns (_get_weather_line ag ctx).
Proof.
  unfold Raising._get_weather_line, _get_weather_line, date_text_short,
    Raising.format_weather_line.
  generalize (utf8 "'str' object has no attribute 'isoformat'")
    (utf8 "Weather information not available - please check local forecast").
  intros msg fixed.
  destruct (nonempty (strip _)); [done|]. cbn [negb andb].
  destruct (when_or _ _) as [[s|d]|]; [| |by rewrite andb_false_r].
  - destruct (Nat.leb_spec 10 (length s)) as [Hlong|Hshort].
    + assert (Hlt : (length s <? 10)%nat = false) by (apply Nat.ltb_ge; lia).
      rewrite Hlt, !andb_false_r.
      destruct (make_date (take 10 s)); [|done].
      by destruct (nonempty (ctx_city ctx)).
    + assert (Hlt : (length s <? 10)%nat = true) by (by apply Nat.ltb_lt).
      rewrite Hlt, andb_true_r. cbn [when_truthy].
      by destruct (nonempty (ctx_city ctx)), (nonempty s).
  - rewrite andb_false_r. by destruct (nonempty (ctx_city ctx)).
Qed.

Lemma request_outcome ag ctx :
  Raising.process_request ag ctx
  = if date_text_short ctx
    then Raises (AttributeError (utf8 "'str' object has no attribute 'isoformat'"))
    else Returns (process_request ag ctx).
Proof.
  unfold Raising.process_request. rewrite weather_line_outcome.
  by destruct (date_text_short ctx).
Qed.

(** C4, as the code has it.  The resolver and the fallback guard on the
    lookup key of the agent: with an empty key the resolver returns
    nothing and the fallback the empty list, whatever the other arguments
    and the services, and a request whose weather step returns ends with
    no suggestion and a display that ends with the notice that no suitable
    venues were found.  The constructor gives no such agent: without the
    key of the model in the environment it raises, and with it the lookup
    key of the agent it returns is not empty. *)
Theorem empty_key_guards_and_construction :
  (∀ cfg, truthy (environ cfg (utf8 "GOOGLE_API_KEY")) = false →
     VenueAgent_init cfg
     = Raises (RuntimeError
         (utf8 "Missing GOOGLE_API_KEY. Put it in your .env or export it in the shell.")))
  ∧ (∀ cfg, truthy (environ cfg (utf8 "GOOGLE_API_KEY")) = true →
       ∃ ag, VenueAgent_init cfg = Returns ag ∧ google_api_key ag ≠ [])
  ∧ (∀ ag, google_api_key ag = [] →
       (∀ venue_name city cuisine,
          _search_venue_in_places ag venue_name city cuisine = None)
       ∧ (∀ city venue_type audience cuisine is_outdoor,
            _get_fallback_venues ag city venue_type audience cuisine is_outdoor
            = [])
       ∧ (∀ ctx, date_text_short ctx = false →
            ∃ resp, Raising.process_request ag ctx = Returns resp
                    ∧ suggestions resp = []
                    ∧ ∃ head, unified_display resp = head ++ no_venues_notice)).
Proof.
  split; [apply construction_needs_model_key|].
  split; [apply constructed_key_filled|].
  intros ag Hk. split; [intros; by apply resolver_no_key|].
  split; [intros; by apply fallback_no_key|].
  intros ctx Hdate. exists (process_request ag ctx).
  split; [by rewrite request_outcome, Hdate|].
  assert (Hnone : (after_guard ag ctx).1 = []).
  { destruct (after_guard_cases ag ctx)
      as [(Hne & _)|[(_ & _ & ->)|(_ & _ & _ & _ & _ & ->)]]; simpl.
    - destruct (after_resolution ag ctx) as [|r l] eqn:E; [done|].
      assert (Hr : r ∈ after_resolution ag ctx) by (rewrite E; left).
      apply after_resolution_elem in Hr as (n & det & _ & Hres & _).
      by rewrite resolver_no_key in Hres.
    - unfold run_fallback. by rewrite fallback_no_key.
    - unfold run_fallback. by rewrite fallback_no_key. }
  rewrite suggestions_after_guard, display_after_guard, Hnone.
  split; [done|]. apply format_no_venues.
Qed.

(** C5. A request returns at most three records, each with match status
    "found" and each a record the resolver returned for an extracted name
    or the fallback returned, marked by the orchestrator; the fallback
    itself returns at most three. *)
Theorem suggestions_bounded_and_found ag ctx :
  (length (suggestions (process_request ag ctx)) ≤ 3)%nat
  ∧ Forall (λ r,
      match_status r = Some (utf8 "found")
      ∧ ((∃ n det,
            _search_venue_in_places ag n (ctx_city ctx) (cuisine_effective ctx)
            = Some det ∧ r = mark (utf8 "google_places") det)
         ∨ (∃ c det, det ∈ run_fallback ag c
                     ∧ r = mark (utf8 "fallback_search") det)))
      (suggestions (process_request ag ctx))
  ∧ (∀ city venue_type audience cuisine is_outdoor,
       (length (_get_fallback_venues ag city venue_type audience cuisine
                  is_outdoor) ≤ 3)%nat).
Proof.
  rewrite suggestions_after_guard.
  split; [|split; [|intros; apply fallback_at_most_three]].
  - destruct (after_guard_cases ag ctx)
      as [(_ & _ & ->)|[(_ & _ & ->)|(_ & _ & _ & _ & _ & ->)]]; simpl.
    + apply after_resolution_at_most_three.
    + rewrite length_fmap. apply fallback_at_most_three.
    + rewrite length_fmap. apply fallback_at_most_three.
  - apply Forall_forall. intros r Hr.
    destruct (after_guard_cases ag ctx)
      as [(_ & _ & E)|[(_ & _ & E)|(_ & _ & _ & _ & _ & E)]];
      rewrite E in Hr; simpl in Hr.
    + apply after_resolution_elem in Hr as (n & det & _ & Hres & _ & ->).
      split; [done|]. left. by exists n, det.
    + apply list_elem_of_fmap in Hr as (det & -> & Hdet).
      split; [done|]. right. by eexists _, det.
    + apply list_elem_of_fmap in Hr as (det & -> & Hdet).
      split; [done|]. right. by eexists _, det.
Qed.

(** C9. When the final guard fires, the fallback was called just before
    with the very arguments of the retry (same city, venue type and
    audience, empty cuisine, outdoor), and returned nothing; the retry
    returns the same empty list and leaves the suggestions as they were. *)
Theorem final_guard_retry_is_redundant ag ctx :
  final_guard ag ctx = true →
  let c := {| fc_city := ctx_city ctx; fc_venue_type := venue_type_of ctx;
              fc_audience := ctx_audience ctx; fc_cuisine := [];
              fc_is_outdoor := true |} in
  fallback_calls ag ctx = [c; c]
  ∧ run_fallback ag c = []
  ∧ suggestions (process_request ag ctx) = (after_fallback ag ctx).1
  ∧ suggestions (process_request ag ctx) = [].
Proof.
  intros Hg c.
  destruct (after_guard_cases ag ctx)
    as [(_ & Hf & _)|[(_ & Hf & _)|(Hres & _ & Hempty & Ho & Hc & E)]];
    [congruence..|].
  assert (Hsame : {| fc_city := ctx_city ctx; fc_venue_type := venue_type_of ctx;
                     fc_audience := ctx_audience ctx;
                     fc_cuisine := cuisine_effective ctx;
                     fc_is_outdoor := is_outdoor_of ctx |} = c).
  { unfold c, cuisine_effective. by rewrite Ho. }
  rewrite Hsame in Hempty, E. fold c in E.
  rewrite calls_after_guard, suggestions_after_guard, E. simpl.
  rewrite Hempty. split; [done|]. split; [done|]. split; [|done].
  unfold after_fallback. rewrite Hres, Hsame. unfold call_fallback.
  by rewrite Hempty.
Qed.

(** C2, as the code has it. The venue type is outdoor exactly when, after
    trimming surrounding white space and lowering, it is "outdoor"; the
    effective cuisine is empty for outdoor and the requested cuisine
    otherwise, and it is the cuisine of every resolver and fallback call;
    a record enters the list of resolved records exactly when the resolver
    returned it for some extracted name and (outdoor, or no cuisine
    requested, or the cuisine matcher accepts it for the requested
    cuisine). *)
Theorem orchestrator_outdoor_and_acceptance ag ctx :
  (is_outdoor_of ctx = true
   ↔ lower (strip (venue_type_of ctx)) = utf8 "outdoor")
  ∧ cuisine_effective ctx = (if is_outdoor_of ctx then [] else ctx_cuisine ctx)
  ∧ (∀ c, c ∈ fallback_calls ag ctx → fc_cuisine c = cuisine_effective ctx)
  ∧ (∀ r, r ∈ after_resolution ag ctx
       ↔ ∃ n det,
           n ∈ names_of (_call_llm_unified (prompt_of ag ctx))
           ∧ _search_venue_in_places ag n (ctx_city ctx) (cuisine_effective ctx)
             = Some det
           ∧ (is_outdoor_of ctx = true ∨ ctx_cuisine ctx = []
              ∨ _matches_cuisine det (ctx_cuisine ctx) = true)
           ∧ r = mark (utf8 "google_places") det).
Proof.
  split.
  { unfold is_outdoor_of, _is_outdoor_type.
    by rewrite bool_decide_eq_true, or_empty_Some. }
  split; [done|]. split; [|apply after_resolution_elem].
  intros c Hc. rewrite calls_after_guard in Hc.
  destruct (after_guard_cases ag ctx)
    as [(_ & _ & E)|[(_ & _ & E)|(_ & _ & _ & Ho & _ & E)]];
    rewrite E in Hc; simpl in Hc.
  - by apply elem_of_nil in Hc.
  - by apply list_elem_of_singleton in Hc as ->.
  - unfold cuisine_effective. rewrite Ho.
    apply elem_of_cons in Hc as [->|Hc];
      [simpl; unfold cuisine_effective; by rewrite Ho|].
    by apply list_elem_of_singleton in Hc as ->.
Qed.

End OrchestratorTheorems.

Lemma empty_key_guards_and_construction_witness :
  let asst := Script.assistant (Some (utf8 "**Le Jardin**: lovely garden.")) in
  (∃ ag, VenueAgent_init Script.model_key_only = Returns ag
         ∧ google_api_key ag = utf8 "model-key")
  ∧ @_search_venue_in_places Latin.unicode Script.scenario_D Script.keyless
      (utf8 "Le Jardin") (utf8 "Paris") (utf8 "French") = None
  ∧ ∃ resp, @Raising.process_request Latin.unicode Script.scenario_D asst
              Script.keyless (@Script.outdoor_ctx asst) = Returns resp
            ∧ suggestions resp = [].
Proof.
  intros asst.
  destruct (@empty_key_guards_and_construction Latin.unicode Script.scenario_D
              asst) as (_ & Hbuilt & Hguard).
  split.
  { destruct (Hbuilt Script.model_key_only) as (ag & Hag & _); [by vm_compute|].
    exists ag. split; [exact Hag|].
    vm_compute in Hag. injection Hag as <-. by vm_compute. }
  destruct (Hguard Script.keyless eq_refl) as (Hres & _ & Hreq).
  split; [apply Hres|].
  destruct (Hreq (@Script.outdoor_ctx asst)) as (resp & Hresp & Hnone & _);
    [by vm_compute|].
  by exists resp.
Defined.

(** C4, as the specification has it, fails: with no credentials configured
    the constructor raises, so that no request completes; and an agent
    with an empty lookup key, were there one, raises on the request of a
    city with the date written short, although the date is not needed to
    find that there are no venues. *)
Lemma no_credentials_no_response :
  let asst := Script.assistant None in
  (VenueAgent_init Script.unconfigured ≫= λ ag,
     @Raising.process_request Latin.unicode Script.nothing asst ag
       (@Script.indoor_ctx asst))
  = Raises (RuntimeError
      (utf8 "Missing GOOGLE_API_KEY. Put it in your .env or export it in the shell."))
  ∧ @Raising.process_request Latin.unicode Script.nothing asst Script.keyless
      (@Script.short_date_ctx asst)
    = Raises (AttributeError (utf8 "'str' object has no attribute 'isoformat'")).
Proof. split; by vm_compute. Qed.

Lemma final_guard_retry_is_redundant_witness :
  let asst := Script.assistant None in
  @final_guard Latin.unicode Script.nothing asst Script.agent
    (@Script.outdoor_ctx asst) = true
  ∧ length (@fallback_calls Latin.unicode Script.nothing asst Script.agent
              (@Script.outdoor_ctx asst)) = 2%nat
  ∧ suggestions (@process_request Latin.unicode Script.nothing asst
                   Script.agent (@Script.outdoor_ctx asst)) = [].
Proof.
  intros asst.
  assert (Hg : @final_guard Latin.unicode Script.nothing asst Script.agent
                 (@Script.outdoor_ctx asst) = true) by (vm_compute; reflexivity).
  split; [exact Hg|].
  destruct (@final_guard_retry_is_redundant Latin.unicode Script.nothing asst
              Script.agent (@Script.outdoor_ctx asst) Hg) as (Hcalls & _ & _ & Hs).
  split; [by rewrite Hcalls | exact Hs].
Defined.

Lemma orchestrator_outdoor_and_acceptance_witness :
  let asst := Script.assistant None in
  @is_outdoor_of Latin.unicode asst (@Script.outdoor_ctx asst) = true
  ∧ @cuisine_effective Latin.unicode asst (@Script.outdoor_ctx asst) = [].
Proof.
  intros asst.
  destruct (@orchestrator_outdoor_and_acceptance Latin.unicode Script.nothing
              asst Script.agent (@Script.outdoor_ctx asst)) as (Ho & Hc & _).
  assert (Hout : @is_outdoor_of Latin.unicode asst (@Script.outdoor_ctx asst) = true).
  { apply Ho. vm_compute. reflexivity. }
  split; [exact Hout|]. rewrite Hc, Hout. reflexivity.
Defined.

(** C2, as the specification has it, fails: " outdoor" is taken as outdoor,
    though with its leading blank it does not equal "outdoor" in any
    letter case. *)
Lemma is_outdoor_not_plain_equality :
  ¬ (∀ venue_type : str,
       @_is_outdoor_type Latin.unicode (Some venue_type) = true
       ↔ @lower Latin.unicode venue_type = @lower Latin.unicode (utf8 "outdoor")).
Proof.
  intros Hall. destruct (Hall (utf8 " outdoor")) as [Hto _].
  assert (Hne : @lower Latin.unicode (utf8 " outdoor")
                ≠ @lower Latin.unicode (utf8 "outdoor")) by (by vm_compute).
  apply Hne, Hto. vm_compute. reflexivity.
Qed.

(** ** Venue-name extractor *)

Section ScanFacts.

Lemma occurs_in_trans (a b c : str) :
  occurs_in a b → occurs_in b c → occurs_in a c.
Proof.
  intros (p1 & q1 & ->) (p2 & q2 & ->).
  exists (p2 ++ p1), (q1 ++ q2). by rewrite <- !app_assoc.
Qed.

Lemma occurs_in_suffix (a b : str) : a `suffix_of` b → occurs_in a b.
Proof. intros [pre ->]. exists pre, []. by rewrite app_nil_r. Qed.

(** Every group the scan reports was captured at some position. *)
Lemma scan_hit (p : pattern) (s : str) : ∀ skip m,
  Hit m ∈ scan p skip s →
  ∃ suf len, suf `suffix_of` s ∧ p suf = Some (m, len).
Proof.
  induction s as [|c s IH]; intros skip m; simpl; [by intros ?%elem_of_nil|].
  assert (Hrec : ∀ k, Hit m ∈ scan p k s →
            ∃ suf len, suf `suffix_of` c :: s ∧ p suf = Some (m, len)).
  { intros k (suf & len & Hsuf & Hp)%IH. exists suf, len.
    split; [by apply suffix_cons_r | done]. }
  destruct skip as [|k]; [|apply Hrec].
  destruct (p (c :: s)) as [[g len]|] eqn:E.
  - intros [[= <-]|Hin]%elem_of_cons; [|by eapply Hrec].
    by exists (c :: s), len.
  - intros [[=]|Hin]%elem_of_cons. by eapply Hrec.
Qed.

Lemma findall_hit (p : pattern) (s m : str) :
  m ∈ findall p s → ∃ suf len, suf `suffix_of` s ∧ p suf = Some (m, len).
Proof.
  unfold findall, groups. rewrite list_elem_of_omap.
  intros ([c|g] & Hin & [= <-]). by eapply scan_hit.
Qed.

Lemma search_findall (p : pattern) (s m : str) :
  search p s = Some m → m ∈ findall p s.
Proof.
  unfold search. destruct (findall p s); simpl; [done|].
  intros [= ->]. left.
Qed.

Lemma notstar_spec (g : str) :
  Forall (λ c, notstar c = true) g ↔ Forall (λ c, c ≠ 42) g.
Proof.
  apply Forall_iff. intros c. unfold notstar.
  rewrite negb_true_iff. apply N.eqb_neq.
Qed.

(** Case analysis on a code point matched against a literal: only the
    literal itself survives when every other case is immediate. *)
Ltac only_char a :=
  destruct a as [|a]; [done|];
  do 6 (try (destruct a as [a|a|]; try done)).

(** What a match of the bold pattern at the head of [s] looks like. *)
Lemma bold_inv (tail : bool) (s m : str) len :
  bold tail s = Some (m, len) →
  m ≠ [] ∧ Forall (λ c, c ≠ 42) m ∧ ∃ rest, s = [42; 42] ++ m ++ [42; 42] ++ rest.
Proof.
  unfold bold.
  destruct s as [|a [|b r]]; [done | by only_char a |].
  only_char a. only_char b.
  pose proof (takewhile_dropwhile notstar r) as Hsplit.
  pose proof (Forall_takewhile notstar r) as Hall.
  destruct (takewhile notstar r) as [|g0 g] eqn:Eg; [done|].
  destruct (dropwhile notstar r) as [|x [|y r']] eqn:Ed; try done.
  { by only_char x. }
  only_char x. only_char y.
  intros [= <- _]. split; [done|]. split; [by apply notstar_spec|].
  exists r'. simpl. by rewrite <- Hsplit.
Qed.

Lemma takewhile_app_stop {A} (p : A → bool) (l : list A) x r :
  Forall (λ y, p y = true) l → p x = false →
  takewhile p (l ++ x :: r) = l ∧ dropwhile p (l ++ x :: r) = x :: r.
Proof.
  intros Hl Hx. induction Hl as [|y l Hy _ [IH1 IH2]]; simpl.
  - by rewrite Hx.
  - rewrite Hy. by rewrite IH1, IH2.
Qed.

(** The bold pattern matches wherever a span begins, and captures it. *)
Lemma bold_complete (tail : bool) (m rest : str) :
  m ≠ [] → Forall (λ c, c ≠ 42) m →
  ∃ len, bold tail ([42; 42] ++ m ++ [42; 42] ++ rest) = Some (m, len).
Proof.
  intros Hne Hall%notstar_spec. simpl.
  destruct (takewhile_app_stop notstar m 42 (42 :: rest) Hall eq_refl)
    as [-> ->].
  destruct m; [done|]. by eexists.
Qed.

Lemma bold_tail_irrelevant (s : str) :
  is_Some (bold true s) ↔ is_Some (bold false s).
Proof.
  split; intros [[m len] Hm]; apply bold_inv in Hm as (Hne & Hall & rest & ->).
  - destruct (bold_complete false m rest Hne Hall) as [l Hl]. by eexists.
  - destruct (bold_complete true m rest Hne Hall) as [l Hl]. by eexists.
Qed.

Lemma existsb_suffixes (f : str → bool) (s : str) :
  existsb f (suffixes s) = true ↔ ∃ suf, suf `suffix_of` s ∧ f suf = true.
Proof.
  induction s as [|c s IH].
  - simpl. rewrite orb_false_r. split.
    + intros Hf. by exists [].
    + by intros (suf & ->%suffix_nil_inv & Hf).
  - change (suffixes (c :: s)) with ((c :: s) :: suffixes s).
    simpl. rewrite orb_true_iff, IH. split.
    + intros [Hf|(suf & Hsuf & Hf)]; [by exists (c :: s)|].
      exists suf. split; [by apply suffix_cons_r | done].
    + intros (suf & [[|c' pre] Hpre] & Hf); simpl in Hpre.
      * left. by rewrite Hpre.
      * right. exists suf. split; [|done]. exists pre. congruence.
Qed.

(** The boolean test decides whether the text holds an emphasis span. *)
Lemma has_bold_span_spec (text : str) :
  has_bold_span text = true ↔ ∃ x, bold_span x text.
Proof.
  unfold has_bold_span. rewrite existsb_suffixes. split.
  - intros (suf & Hsuf & [[m len] Hm]%bool_decide_eq_true).
    apply bold_inv in Hm as (Hne & Hall & rest & ->).
    exists m. split; [done|]. split; [done|].
    destruct Hsuf as [pre ->]. exists pre, rest. by rewrite <- !app_assoc.
  - intros (x & Hne & Hall & pre & post & ->).
    exists ([42; 42] ++ x ++ [42; 42] ++ post). split.
    + exists pre. by rewrite <- !app_assoc.
    + apply bool_decide_eq_true.
      destruct (bold_complete false x post Hne Hall) as [len Hlen]. by eexists.
Qed.

Lemma elem_of_suffixes (suf s : str) : suf ∈ suffixes s ↔ suf `suffix_of` s.
Proof.
  induction s as [|c s IH].
  - simpl. rewrite list_elem_of_singleton. split; [by intros -> |].
    by intros ->%suffix_nil_inv.
  - change (suffixes (c :: s)) with ((c :: s) :: suffixes s).
    rewrite elem_of_cons, IH. split.
    + intros [->|Hsuf]; [done | by apply suffix_cons_r].
    + intros [[|c' pre] Hpre]; simpl in Hpre.
      * left. by rewrite Hpre.
      * right. exists pre. congruence.
Qed.

(** Every emphasis span of a text is listed by [all_spans]. *)
Lemma bold_span_all_spans (m text : str) :
  bold_span m text → m ∈ all_spans text.
Proof.
  intros (Hne & Hall & pre & post & ->).
  apply list_elem_of_omap. exists ([42; 42] ++ m ++ [42; 42] ++ post). split.
  - apply elem_of_suffixes. exists pre. by rewrite <- !app_assoc.
  - destruct (bold_complete false m post Hne Hall) as [len ->]. done.
Qed.

Lemma bold_span_occurs (x a b : str) :
  bold_span x a → occurs_in a b → bold_span x b.
Proof.
  intros (Hne & Hall & Hocc) Hab. split; [done|]. split; [done|].
  by eapply occurs_in_trans.
Qed.

Lemma findall_bold_span (tail : bool) (text m : str) :
  m ∈ findall (bold tail) text → bold_span m text.
Proof.
  intros (suf & len & Hsuf & Hm)%findall_hit.
  apply bold_inv in Hm as (Hne & Hall & rest & ->).
  split; [done|]. split; [done|].
  destruct Hsuf as [pre ->]. exists pre, rest. by rewrite <- !app_assoc.
Qed.

(** Every line is a piece of the text. *)
Lemma splitlines_from_occurs (n : nat) : ∀ (s cur line : str),
  (length s ≤ n)%nat →
  line ∈ splitlines_from cur s → occurs_in line (rev cur ++ s).
Proof.
  induction n as [|n IH]; intros s cur line Hlen.
  - destruct s; [|simpl in Hlen; lia]. simpl.
    destruct cur; [by intros ?%elem_of_nil|].
    intros ->%list_elem_of_singleton. exists [], []. by rewrite app_nil_r.
  - destruct s as [|c r].
    { simpl. destruct cur; [by intros ?%elem_of_nil|].
      intros ->%list_elem_of_singleton. exists [], []. by rewrite app_nil_r. }
    simpl in Hlen.
    assert (Hhere : occurs_in (rev cur) (rev cur ++ c :: r))
      by (by exists [], (c :: r)).
    assert (Hlater : ∀ t : str, t `suffix_of` r →
              line ∈ splitlines_from [] t → occurs_in line (rev cur ++ c :: r)).
    { intros t Ht Hin. apply (IH t [] line) in Hin.
      - eapply occurs_in_trans; [exact Hin|]. simpl.
        apply occurs_in_suffix. destruct Ht as [pre ->].
        exists (rev cur ++ c :: pre). by rewrite <- app_assoc.
      - apply suffix_length in Ht. lia. }
    simpl. destruct (c =? 13).
    + destruct r as [|d r'].
      * intros [->|Hin]%elem_of_cons; [done | by apply (Hlater [])].
      * intros Hin.
        assert (Hcases : line = rev cur ∨ line ∈ splitlines_from [] r'
                         ∨ line ∈ splitlines_from [] (d :: r')).
        { destruct d as [|d]; [|do 4 (try destruct d as [d|d|])];
            apply elem_of_cons in Hin as [->|Hin]; auto. }
        destruct Hcases as [->|[Hin'|Hin']]; [done| |].
        -- apply (Hlater r'); [by apply suffix_cons_r | done].
        -- by apply (Hlater (d :: r')).
    + destruct (islinebreak c).
      * intros [->|Hin]%elem_of_cons; [done | by apply (Hlater r)].
      * intros Hin. apply (IH r (c :: cur) line) in Hin; [|lia].
        simpl in Hin. by rewrite <- app_assoc in Hin.
Qed.

Lemma splitlines_occurs (text line : str) :
  line ∈ splitlines text → occurs_in line text.
Proof. apply (splitlines_from_occurs (length text) text []). lia. Qed.

(** Every span the extractor takes a name from is an emphasis span of the
    text. *)
Lemma name_sources_bold_span (text m : str) :
  m ∈ name_sources text → bold_span m text.
Proof.
  unfold name_sources. rewrite elem_of_app, list_elem_of_omap.
  intros [Hm|(line & Hline & Hm)]; [by eapply findall_bold_span|].
  destruct (_ || _); [|done].
  apply search_findall, findall_bold_span in Hm.
  eapply bold_span_occurs; [exact Hm|].
  eapply occurs_in_trans; [apply strip_occurs | by apply splitlines_occurs].
Qed.

End ScanFacts.

Section ExtractorFacts.
Context `{Unicode}.

(** The loop with its [seen] set keeps what [kept_from] keeps. *)
Lemma dedup_loop (l : list str) : ∀ (seen : gset str) (out : list str),
  (foldl dedup_step (seen, out) l).2 = out ++ kept_from seen l.
Proof.
  induction l as [|n l IH]; intros seen out; simpl.
  { by rewrite app_nil_r. }
  unfold dedup_step at 2. simpl.
  destruct (bool_decide (lower n ∈ seen)); rewrite IH; [done|].
  by rewrite <- app_assoc.
Qed.

Lemma dedup_kept (l : list str) : dedup l = kept_from ∅ l.
Proof. unfold dedup. by rewrite dedup_loop. Qed.

Lemma kept_from_sublist (l : list str) : ∀ seen,
  kept_from seen l `sublist_of` l.
Proof.
  induction l as [|n l IH]; intros seen; simpl; [done|].
  destruct (bool_decide (lower n ∈ seen)).
  - by apply sublist_cons.
  - by apply sublist_skip.
Qed.

Lemma kept_from_fresh (l : list str) : ∀ seen n,
  n ∈ kept_from seen l → lower n ∉ seen.
Proof.
  induction l as [|a l IH]; intros seen n; simpl; [by intros ?%elem_of_nil|].
  destruct (bool_decide_reflect (lower a ∈ seen)) as [Hin|Hout]; [by apply IH|].
  intros [->|Hn]%elem_of_cons; [done|].
  apply IH in Hn. set_solver.
Qed.

Lemma kept_from_NoDup (l : list str) : ∀ seen,
  NoDup (lower <$> kept_from seen l).
Proof.
  induction l as [|a l IH]; intros seen; simpl; [constructor|].
  destruct (bool_decide (lower a ∈ seen)); [by apply IH|].
  simpl. constructor; [|by apply IH].
  intros (x & Hx & Hin%kept_from_fresh)%list_elem_of_fmap. set_solver.
Qed.

Lemma kept_from_first (l : list str) : ∀ seen n,
  n ∈ kept_from seen l → first_occurrence n l.
Proof.
  induction l as [|a l IH]; intros seen n; simpl; [by intros ?%elem_of_nil|].
  destruct (bool_decide_reflect (lower a ∈ seen)) as [Hin|Hout].
  - intros Hn. pose proof (kept_from_fresh _ _ _ Hn) as Hfresh.
    destruct (IH _ _ Hn) as (pre & post & -> & Hpre).
    exists (a :: pre), post. split; [done|].
    intros x [->|Hx]%elem_of_cons; [congruence | by apply Hpre].
  - intros [->|Hn]%elem_of_cons.
    + exists [], l. split; [done|]. by intros x ?%elem_of_nil.
    + pose proof (kept_from_fresh _ _ _ Hn) as Hfresh.
      destruct (IH _ _ Hn) as (pre & post & -> & Hpre).
      exists (a :: pre), post. split; [done|].
      intros x [->|Hx]%elem_of_cons; [set_solver | by apply Hpre].
Qed.

Lemma kept_from_complete (l : list str) : ∀ seen n,
  n ∈ l → lower n ∈ seen ∨ lower n ∈ lower <$> kept_from seen l.
Proof.
  induction l as [|a l IH]; intros seen n; [by intros ?%elem_of_nil|].
  simpl. destruct (bool_decide_reflect (lower a ∈ seen)) as [Hin|Hout].
  - intros [->|Hn]%elem_of_cons; [by left | by apply IH].
  - intros [->|Hn]%elem_of_cons; [right; simpl; left|].
    destruct (IH ({[lower a]} ∪ seen) n Hn) as [Hs|Hk].
    + apply elem_of_union in Hs as [->%elem_of_singleton|Hs];
        [right; simpl; left | by left].
    + right. simpl. by right.
Qed.

Lemma extract_take_kept (text : option str) :
  _extract_venue_names_from_text text
  = take 3 (kept_from ∅ (candidate_names text)).
Proof.
  destruct text as [[|c t]|]; simpl; [done| |done].
  by rewrite dedup_kept.
Qed.

Lemma keep_name_elem (n x : str) :
  n ∈ keep_name x ↔ n = x ∧ (2 < length n)%nat.
Proof.
  unfold keep_name. destruct (Nat.ltb_spec 2 (length x)).
  - rewrite list_elem_of_singleton. split; [by intros -> | by intros [-> _]].
  - split; [by intros ?%elem_of_nil|]. intros [-> ?]. lia.
Qed.

(** Each collected name is the cleaned text of a span the extractor
    reads, and is longer than two characters. *)
Lemma candidate_names_sources (t n : str) :
  n ∈ candidate_names (Some t)
  ↔ ∃ m, m ∈ name_sources t ∧ n = clean_name m ∧ (2 < length n)%nat.
Proof.
  unfold candidate_names, name_sources, span_names, bullet_names.
  rewrite elem_of_app, !list_elem_of_In, !in_flat_map. split.
  - intros [(m & Hm%list_elem_of_In & Hn%list_elem_of_In)
           |(line & Hl%list_elem_of_In & Hn)].
    + apply keep_name_elem in Hn as [-> Hlen]. exists m.
      split; [|done]. apply elem_of_app. by left.
    + destruct (_ || _) eqn:Eb; [|done].
      destruct (search (bold false) (strip line)) as [m|] eqn:Es; [|done].
      apply list_elem_of_In, keep_name_elem in Hn as [-> Hlen]. exists m.
      split; [|done]. apply elem_of_app. right.
      apply list_elem_of_omap. exists line. split; [done|]. cbv beta zeta.
      by rewrite Eb.
  - intros (m & [Hm|(line & Hl & Hm)%list_elem_of_omap]%elem_of_app & -> & Hlen).
    + left. exists m. rewrite <- !list_elem_of_In.
      split; [done|]. by apply keep_name_elem.
    + right. exists line. rewrite <- list_elem_of_In. split; [done|].
      cbv beta zeta in Hm |- *. destruct (_ || _); [|done]. rewrite Hm.
      by apply list_elem_of_In, keep_name_elem.
Qed.

(** *** The order of the names *)

(** The names kept from [l] stand at the places of [l], in increasing
    order, whose name was neither met before nor stands earlier in [l]. *)
Lemma kept_from_positions (l : list str) : ∀ seen,
  ∃ idx : list nat,
    length idx = length (kept_from seen l)
    ∧ (∀ k i, idx !! k = Some i → kept_from seen l !! k = l !! i)
    ∧ (∀ a b i j, idx !! a = Some i → idx !! b = Some j →
         (a < b)%nat → (i < j)%nat)
    ∧ (∀ i, i ∈ idx ↔
         ∃ n, l !! i = Some n ∧ (lower n ∉ seen)
              ∧ ∀ j m, (j < i)%nat → l !! j = Some m → lower m ≠ lower n).
Proof.
  induction l as [|n0 l IH]; intros seen.
  { exists []. split; [done|]. split; [done|]. split; [done|].
    intros i. split; [by intros ?%elem_of_nil | by intros (n & ? & _)]. }
  cbn [kept_from]. destruct (bool_decide_reflect (lower n0 ∈ seen)) as [Hin|Hout].
  - destruct (IH seen) as (idx & Hlen & Hat & Hinc & Hmem).
    exists (S <$> idx). split; [by rewrite length_fmap|]. split; [|split].
    + intros k i (i' & -> & Hi')%list_lookup_fmap_Some. by apply Hat.
    + intros a b i j (i' & -> & Hi')%list_lookup_fmap_Some
        (j' & -> & Hj')%list_lookup_fmap_Some Hab.
      specialize (Hinc a b i' j' Hi' Hj' Hab). lia.
    + intros i. rewrite list_elem_of_fmap. split.
      * intros (i' & -> & (n & Hn & Hseen & Hfirst)%Hmem). exists n.
        split; [done|]. split; [done|]. intros [|j] m Hj Hm.
        -- injection Hm as <-. congruence.
        -- apply (Hfirst j m); [lia | done].
      * intros (n & Hn & Hseen & Hfirst). destruct i as [|i'].
        { injection Hn as <-. done. }
        exists i'. split; [done|]. apply Hmem. exists n.
        split; [done|]. split; [done|]. intros j m Hj Hm.
        apply (Hfirst (S j) m); [lia | done].
  - destruct (IH ({[lower n0]} ∪ seen)) as (idx & Hlen & Hat & Hinc & Hmem).
    exists (0%nat :: (S <$> idx)).
    split; [cbn [length]; by rewrite length_fmap, Hlen|]. split; [|split].
    + intros [|k] i; cbn [lookup list_lookup]; [by intros [= <-]|].
      intros (i' & -> & Hi')%list_lookup_fmap_Some. by apply Hat.
    + intros [|a] [|b] i j; cbn [lookup list_lookup]; try lia.
      * intros [= <-] (j' & -> & _)%list_lookup_fmap_Some _. lia.
      * intros (i' & -> & Hi')%list_lookup_fmap_Some
          (j' & -> & Hj')%list_lookup_fmap_Some Hab.
        assert (Hab' : (a < b)%nat) by lia.
        specialize (Hinc a b i' j' Hi' Hj' Hab'). lia.
    + intros i. rewrite elem_of_cons, list_elem_of_fmap. split.
      * intros [->|(i' & -> & (n & Hn & Hseen & Hfirst)%Hmem)].
        { exists n0. split; [done|]. split; [done|]. intros; lia. }
        exists n. split; [done|].
        apply not_elem_of_union in Hseen as [Hne%not_elem_of_singleton Hseen].
        split; [done|]. intros [|j] m Hj Hm.
        -- injection Hm as <-. congruence.
        -- apply (Hfirst j m); [lia | done].
      * intros (n & Hn & Hseen & Hfirst). destruct i as [|i']; [by left|].
        right. exists i'. split; [done|]. apply Hmem. exists n.
        split; [done|]. split.
        -- apply not_elem_of_union. split; [|done].
           apply not_elem_of_singleton. intros Heq.
           by apply (Hfirst 0%nat n0); [lia | |].
        -- intros j m Hj Hm. apply (Hfirst (S j) m); [lia | done].
Qed.

(** *** The removal of the parenthesised parts *)

Lemma scan_skip (p : pattern) : ∀ (s : str) k,
  scan p k s = scan p 0 (drop k s).
Proof.
  induction s as [|c r IH]; intros k; [by destruct k|].
  destruct k as [|k]; [done|]. cbn [scan drop]. apply IH.
Qed.

Lemma takewhile_all {A} (p : A → bool) (l : list A) :
  Forall (λ y, p y = true) l → takewhile p l = l ∧ dropwhile p l = [].
Proof.
  intros Hl. induction Hl as [|y l Hy _ [IH1 IH2]]; simpl; [done|].
  rewrite Hy. by rewrite IH1, IH2.
Qed.

Lemma notclose_spec (body : str) :
  Forall (λ c, notclose c = true) body ↔ Forall (λ c, c ≠ 41) body.
Proof.
  apply Forall_iff. intros c. unfold notclose.
  rewrite negb_true_iff. apply N.eqb_neq.
Qed.

Ltac literal_char a :=
  destruct a as [|a]; [done|];
  do 6 (try (destruct a as [a|a|]; try done)).

(** What a match of the parenthetical pattern at the head of [s] is. *)
Lemma parenthetical_inv (s g : str) len :
  parenthetical s = Some (g, len) →
  g = [] ∧ (1 ≤ len)%nat ∧ parenthesised_head s (drop len s).
Proof.
  unfold parenthetical.
  pose proof (takewhile_dropwhile isspace s) as Hs.
  pose proof (Forall_takewhile isspace s) as Hws.
  destruct (dropwhile isspace s) as [|a r] eqn:Ed; [done|]. literal_char a.
  pose proof (takewhile_dropwhile notclose r) as Hr.
  pose proof (Forall_takewhile notclose r) as Hbody.
  destruct (dropwhile notclose r) as [|b r'] eqn:Er; [done|]. literal_char b.
  pose proof (takewhile_dropwhile isspace r') as Hr'.
  pose proof (Forall_takewhile isspace r') as Hws'.
  assert (Hstop : match dropwhile isspace r' with
                  | c :: _ => isspace c = false | [] => True end).
  { destruct (dropwhile isspace r') as [|c rest] eqn:Erest; [done|].
    by eapply dropwhile_head. }
  intros [= <- <-]. split; [done|]. split; [lia|].
  revert Hs Hws Hr Hbody Hr' Hws' Hstop. clear Ed Er.
  generalize (takewhile isspace s) (takewhile notclose r)
    (takewhile isspace r') (dropwhile isspace r').
  intros ws body ws' rest <- Hws <- Hbody%notclose_spec <- Hws' Hstop.
  assert (Hrest : drop (length ws + 1 + length body + 1 + length ws')
                    (ws ++ 40%N :: body ++ 41%N :: ws' ++ rest) = rest).
  { replace (ws ++ 40%N :: body ++ 41%N :: ws' ++ rest)
      with ((ws ++ 40%N :: body ++ 41%N :: ws') ++ rest)
      by (by rewrite <- !app_assoc; cbn [app]; rewrite <- !app_assoc).
    apply drop_app_length'. rewrite !length_app. cbn [length].
    rewrite length_app. cbn [length]. lia. }
  rewrite Hrest. by exists ws, body, ws'.
Qed.

(** The pattern matches wherever a parenthesised part begins. *)
Lemma parenthetical_complete (s rest : str) :
  parenthesised_head s rest →
  ∃ len, parenthetical s = Some ([], len) ∧ drop len s = rest.
Proof.
  intros (ws & body & ws' & -> & Hws & Hbody%notclose_spec & Hws' & Hrest).
  unfold parenthetical.
  destruct (takewhile_app_stop isspace ws 40%N (body ++ [41%N] ++ ws' ++ rest))
    as [Htw Hdw]; [done | done |].
  cbn [app] in Htw, Hdw |- *. rewrite Htw, Hdw.
  destruct (takewhile_app_stop notclose body 41%N (ws' ++ rest))
    as [Htb Hdb]; [done | done |].
  rewrite Htb, Hdb.
  assert (Htail : takewhile isspace (ws' ++ rest) = ws').
  { destruct rest as [|c rest].
    - rewrite app_nil_r. by apply takewhile_all.
    - by apply takewhile_app_stop. }
  rewrite Htail. eexists. split; [done|].
  replace (ws ++ 40%N :: body ++ 41%N :: ws' ++ rest)
    with ((ws ++ 40%N :: body ++ 41%N :: ws') ++ rest)
    by (by rewrite <- !app_assoc; cbn [app]; rewrite <- !app_assoc).
  apply drop_app_length'. rewrite !length_app. cbn [length].
  rewrite length_app. cbn [length]. lia.
Qed.

(** The substitution removes exactly the parenthesised parts. *)
Lemma sub_empty_removes (n : nat) : ∀ s : str,
  (length s ≤ n)%nat →
  without_parentheticals s (sub_empty parenthetical s).
Proof.
  unfold sub_empty. induction n as [|n IH]; intros s Hlen.
  { destruct s; [constructor | simpl in Hlen; lia]. }
  destruct s as [|c r]; [constructor|]. cbn [scan].
  destruct (parenthetical (c :: r)) as [[g len]|] eqn:Ep.
  - apply parenthetical_inv in Ep as (-> & Hpos & Hhead).
    change (literals (Hit [] :: scan parenthetical (pred len) r))
      with (literals (scan parenthetical (pred len) r)).
    rewrite scan_skip.
    assert (Hdrop : drop (pred len) r = drop len (c :: r))
      by (destruct len; [lia | done]).
    rewrite Hdrop. eapply wp_part; [exact Hhead|]. apply IH.
    rewrite length_drop. simpl in Hlen |- *. lia.
  - change (literals (Lit c :: scan parenthetical 0 r))
      with (c :: literals (scan parenthetical 0 r)).
    apply wp_keep.
    + intros (rest & (len & Hsome & _)%parenthetical_complete). congruence.
    + apply IH. simpl in Hlen. lia.
Qed.

(** Nothing else does: the relation has one result. *)
Lemma without_parentheticals_unique (s a : str) :
  without_parentheticals s a → a = sub_empty parenthetical s.
Proof.
  unfold sub_empty. induction 1 as [|s rest out Hhead _ IH|c s out Hno _ IH].
  - done.
  - destruct (parenthetical_complete _ _ Hhead) as (len & Hsome & Hdrop).
    destruct s as [|c r]; [by destruct Hhead as ([|??] & ? & ? & ? & _)|].
    cbn [scan]. rewrite Hsome.
    change (literals (Hit [] :: scan parenthetical (pred len) r))
      with (literals (scan parenthetical (pred len) r)).
    rewrite scan_skip.
    apply parenthetical_inv in Hsome as (_ & Hpos & _).
    assert (Hd : drop (pred len) r = drop len (c :: r))
      by (destruct len; [lia | done]).
    by rewrite Hd, Hdrop.
  - cbn [scan]. destruct (parenthetical (c :: s)) as [[g len]|] eqn:Ep.
    + exfalso. apply Hno. apply parenthetical_inv in Ep as (_ & _ & Hhead).
      by eexists.
    + change (literals (Lit c :: scan parenthetical 0 s))
        with (c :: literals (scan parenthetical 0 s)). by rewrite IH.
Qed.

(** C6, as the code has it. For every text, empty and absent included, the
    extractor returns at most three names.  They are the first three of the
    collected names after de-duplication up to letter case, the first
    occurrence being kept and the order of collection preserved: the names
    returned stand, in the same order, at the first places of the collected
    list that hold a name no earlier place holds, and no such place is
    passed over before three names are found.  The names are collected
    from the spans found by scanning the whole text, then from the first
    span of each bullet line.  Each collected name is an emphasis span of
    the text with every parenthesised part, wherever it stands, removed
    together with the white space around it, then trimmed, and is longer
    than two characters.  A text with no emphasis span gives no name. *)
Theorem extractor_names (text : option str) :
  let cands := candidate_names text in
  let out := _extract_venue_names_from_text text in
  (length out ≤ 3)%nat
  ∧ NoDup (lower <$> out)
  ∧ out `sublist_of` cands
  ∧ (∃ rest,
       (rest ≠ [] → length out = 3%nat)
       ∧ out ++ rest `sublist_of` cands
       ∧ NoDup (lower <$> (out ++ rest))
       ∧ (∀ n, n ∈ out ++ rest → first_occurrence n cands)
       ∧ (∀ n, n ∈ cands → lower n ∈ lower <$> (out ++ rest)))
  ∧ (∃ idx : list nat,
       length idx = length out
       ∧ (∀ k i, idx !! k = Some i →
            first_at cands i ∧ out !! k = cands !! i)
       ∧ (∀ a b i j, idx !! a = Some i → idx !! b = Some j →
            (a < b)%nat → (i < j)%nat)
       ∧ (∀ i, first_at cands i →
            i ∈ idx ∨ (length out = 3%nat ∧ ∀ j, j ∈ idx → (j < i)%nat)))
  ∧ (∀ n, n ∈ cands →
       (2 < length n)%nat ∧ strip n = n
       ∧ ∃ t m, text = Some t ∧ m ∈ name_sources t ∧ bold_span m t
                ∧ n = clean_name m
                ∧ ∃ body, without_parentheticals m body ∧ n = strip body)
  ∧ ((∀ t, text = Some t → ¬ ∃ x, bold_span x t) → out = []).
Proof.
  intros cands out. unfold out. rewrite extract_take_kept. fold cands.
  set (kept := kept_from ∅ cands).
  assert (Hsub : kept `sublist_of` cands) by apply kept_from_sublist.
  assert (Hnd : NoDup (lower <$> kept)) by apply kept_from_NoDup.
  assert (Hsrc : ∀ n, n ∈ cands →
            (2 < length n)%nat ∧ strip n = n
            ∧ ∃ t m, text = Some t ∧ m ∈ name_sources t ∧ bold_span m t
                     ∧ n = clean_name m
                     ∧ ∃ body, without_parentheticals m body ∧ n = strip body).
  { intros n Hn. unfold cands in Hn. destruct text as [t|];
      [|by apply elem_of_nil in Hn].
    apply candidate_names_sources in Hn as (m & Hm & -> & Hlen).
    split; [done|]. split; [apply strip_idemp|].
    exists t, m. split; [done|]. split; [done|].
    split; [by apply name_sources_bold_span|]. split; [done|].
    exists (sub_empty parenthetical m). split; [|done].
    by apply (sub_empty_removes (length m)). }
  split; [rewrite length_take; lia|].
  split. { rewrite fmap_take. eapply sublist_NoDup; [done | apply sublist_take]. }
  split. { etrans; [apply sublist_take | done]. }
  split.
  { exists (drop 3 kept). rewrite take_drop.
    split. { intros Hrest. rewrite length_take.
             destruct (decide (3 ≤ length kept)%nat); [lia|].
             rewrite drop_ge in Hrest by lia. done. }
    split; [done|]. split; [done|]. split.
    - intros n Hn. by eapply kept_from_first.
    - intros n Hn. destruct (kept_from_complete cands ∅ n Hn) as [Hs|Hk];
        [set_solver | done]. }
  split.
  { destruct (kept_from_positions cands ∅) as (idx & Hlen & Hat & Hinc & Hmem).
    fold kept in Hlen, Hat.
    assert (Hfirst : ∀ i, i ∈ idx ↔ first_at cands i).
    { intros i. rewrite Hmem. unfold first_at. split.
      - intros (n & Hn & _ & Hf). by exists n.
      - intros (n & Hn & Hf). exists n. split; [done|]. split; [set_solver | done]. }
    exists (take 3 idx). split; [by rewrite !length_take, Hlen|].
    split; [|split].
    - intros k i [Hi Hk]%lookup_take_Some. split.
      + apply Hfirst. by eapply list_elem_of_lookup_2.
      + rewrite lookup_take_lt by done. by apply Hat.
    - intros a b i j [Hi _]%lookup_take_Some [Hj _]%lookup_take_Some.
      by apply Hinc.
    - intros i [k Hk]%Hfirst%list_elem_of_lookup_1.
      destruct (decide (k < 3)%nat) as [Hlt|Hge].
      + left. apply (list_elem_of_lookup_2 _ k). by apply lookup_take_Some.
      + right. apply lookup_lt_Some in Hk as Hbound. split.
        * rewrite length_take. lia.
        * intros j [b [Hb Hb3]%lookup_take_Some]%list_elem_of_lookup_1.
          apply (Hinc b k j i Hb Hk). lia. }
  split; [done|].
  intros Hnone. destruct cands as [|n l] eqn:E; [done|].
  destruct (Hsrc n) as (_ & _ & t & m & Ht & _ & Hspan & _); [left|].
  exfalso. apply (Hnone t Ht). by exists m.
Qed.

End ExtractorFacts.

Lemma extractor_names_witness :
  let text := Some (utf8 "Try the old *harbour* cafes - or the park (east side).") in
  let bullets :=
    Some (utf8 "- **Alpha (north)**: a" ++ [10]
          ++ utf8 "- **Beta**: b" ++ [10] ++ utf8 "- **alpha**: c") in
  ((∀ t, text = Some t → ¬ ∃ x, bold_span x t)
   ∧ @_extract_venue_names_from_text Latin.unicode text = [])
  ∧ @_extract_venue_names_from_text Latin.unicode bullets
    = [utf8 "Alpha"; utf8 "Beta"]
  ∧ @candidate_names bullets
    = map utf8 ["Alpha"; "Beta"; "alpha"; "Alpha"; "Beta"; "alpha"]%string
  ∧ ∃ i, (0 < i)%nat ∧ @first_at Latin.unicode (@candidate_names bullets) i.
Proof.
  intros text bullets.
  assert (Hno : ∀ t, text = Some t → ¬ ∃ x, bold_span x t).
  { intros t [= <-] Hspan%has_bold_span_spec. by vm_compute in Hspan. }
  split; [split; [exact Hno|]; by apply (@extractor_names Latin.unicode text)|].
  split; [by vm_compute|]. split; [by vm_compute|].
  destruct (@extractor_names Latin.unicode bullets)
    as (_ & _ & _ & _ & (idx & Hlen & Hat & _) & _).
  assert (Hone : is_Some (idx !! 1%nat)).
  { apply lookup_lt_is_Some. rewrite Hlen. vm_compute. lia. }
  destruct Hone as [i Hi]. destruct (Hat 1%nat i Hi) as [Hfirst Hname].
  exists i. split; [|exact Hfirst].
  destruct i as [|i]; [|lia]. by vm_compute in Hname.
Defined.

(** C6, as the specification has it, fails: the only span of the text has
    its parenthetical in the middle, so that removing a trailing
    parenthetical and trimming leaves it whole, while the extractor returns
    "CafeRoma". *)
Lemma extractor_strips_inner_parenthetical :
  ¬ (∀ (text n : str),
       n ∈ @_extract_venue_names_from_text Latin.unicode (Some text) →
       ∃ m, bold_span m text ∧ n = strip_trailing_parenthetical m).
Proof.
  intros Hall.
  destruct (Hall (utf8 "1. **Cafe (Old Town) Roma**: cosy.") (utf8 "CafeRoma"))
    as (m & Hm%bold_span_all_spans & Heq).
  { vm_compute. left. }
  vm_compute in Hm. apply list_elem_of_singleton in Hm as ->.
  by vm_compute in Heq.
Qed.

(** On a span that ends with its parenthetical the two readings agree. *)
Example trailing_parenthetical_agrees :
  strip_trailing_parenthetical (utf8 "Cafe Roma (Old Town) ") = utf8 "Cafe Roma"
  ∧ clean_name (utf8 "Cafe Roma (Old Town) ") = utf8 "Cafe Roma".
Proof. by vm_compute. Qed.

(** The order of the names is the order of collection, which need not be
    the order of the text: here "Bob" stands before "and" in the text, but
    is found only by the second loop. *)
Example extractor_collection_order :
  let nl := [10] in
  @_extract_venue_names_from_text Latin.unicode
    (Some (utf8 "**a" ++ nl ++ utf8 "- **Bob** x **Carl** and **Dave**"))
  = [utf8 "a" ++ nl ++ utf8 "-"; utf8 "and"; utf8 "Bob"].
Proof. by vm_compute. Qed.

(** ** The scenarios of the specification, run *)

Module Scenarios.
Import Latin Script.

(** Scenario A: the extractor on the model's line, and the fallback queries
    for Turkish cuisine indoors in Ankara, cuisine terms first. *)
Example scenario_A :
  _extract_venue_names_from_text
    (Some (utf8 "**Köşkün Altı**: great for families."))
  = [utf8 "Köşkün Altı"]
  ∧ fallback_queries (utf8 "Ankara") (utf8 "Indoor") (utf8 "Turkish") false
    = map utf8
        [ "turkish restaurant Ankara"; "türk restoran Ankara"; "lokanta Ankara";
          "turkish restaurant Ankara"; "restaurant Ankara";
          "turkish cafe Ankara"; "cafe Ankara";
          "turkish party hall Ankara"; "party hall Ankara";
          "turkish event venue Ankara"; "event venue Ankara" ]%string.
Proof. by vm_compute. Qed.

(** Scenario B: outdoor with an Italian hint in Izmir; the effective
    cuisine is empty and the queries are the outdoor terms. *)
Example scenario_B :
  let asst := assistant None in
  @cuisine_effective unicode asst (@outdoor_ctx asst) = []
  ∧ fallback_queries (utf8 "Izmir") (utf8 "Outdoor") (utf8 "Italian") true
    = (λ t, t ++ utf8 " Izmir") <$> outdoor_terms
  ∧ Forall (λ q, contains (lower q) (utf8 "ital") = false)
      (fallback_queries (utf8 "Izmir") (utf8 "Outdoor") (utf8 "Italian") true).
Proof.
  split; [by vm_compute|]. split; [done|].
  apply (bool_decide_unpack _). by vm_compute.
Qed.

(** Scenario C: the model fails; no name is extracted and the records come
    from the fallback, three of them at most. *)
Example scenario_C :
  let asst := assistant None in
  let response := @process_request unicode only_diner asst agent (@indoor_ctx asst) in
  names_of (@_call_llm_unified asst []) = []
  ∧ raw response = utf8 "No LLM response available"
  ∧ weather_info response = utf8 "Sunny, 24°C"
  ∧ source <$> suggestions response
    = [Some (utf8 "fallback_search"); Some (utf8 "fallback_search");
       Some (utf8 "fallback_search")]
  ∧ name <$> suggestions response
    = [Some (utf8 "Chez Marcel"); Some (utf8 "Chez Marcel"); Some (utf8 "Chez Marcel")].
Proof. by vm_compute. Qed.

(** The names of a reply are resolved and marked; a name met twice in
    different letter case is resolved once. *)
Example resolved_reply :
  let asst := assistant (Some (utf8 "1. **Le Jardin (Marais)** - terrace. 2. **LE JARDIN**: again.")) in
  let ctx : Context :=
    {| ctx_city := utf8 "Paris"; ctx_location_type := []; 
       ctx_venue_type := utf8 "indoor"; ctx_audience := utf8 "adults";
       ctx_guest_count := utf8 "8"; ctx_budget_venue := utf8 "900";
       ctx_cuisine := utf8 "French"; ctx_weather_forecast_text := None;
       ctx_event_date := None; ctx_date := None; ctx_selected_date := None |} in
  names_of (@_call_llm_unified asst []) = [utf8 "Le Jardin"]
  ∧ suggestions (@process_request unicode scenario_D asst agent ctx)
    = [@mark (utf8 "google_places") bistro]
  ∧ @fallback_calls unicode scenario_D asst agent ctx = [].
Proof. by vm_compute. Qed.

End Scenarios.

(** * Further properties of the agent *)

(** ** Cuisine matcher *)

Section MatcherFacts.
Context `{Unicode}.

Lemma matches_cuisine_by_key det (c c' : str) :
  nonempty c = nonempty c' → lower (strip c) = lower (strip c') →
  _matches_cuisine det c = _matches_cuisine det c'.
Proof. intros Hn Hk. unfold _matches_cuisine. by rewrite Hn, Hk. Qed.

(** A cuisine that is blank once trimmed and lowered matches anything. *)
Lemma matches_blank_key det (c : str) :
  lower (strip c) = [] → _matches_cuisine det c = true.
Proof.
  intros Hk. unfold _matches_cuisine. rewrite Hk.
  destruct (nonempty c); [|done]. cbn [negb].
  assert (Hkeys : dict_get CUISINE_KEYS [] [[]] = [[] : str]) by (by vm_compute).
  rewrite Hkeys.
  match goal with |- (if ?b then _ else _) = _ => destruct b end; [done|].
  unfold any. cbn [existsb]. by rewrite contains_empty.
Qed.

Lemma matches_mark src det (c : str) :
  _matches_cuisine (mark src det) c = _matches_cuisine det c.
Proof. done. Qed.

(** X1. The matcher reads the cuisine only through its trimmed, lowered key,
    and gives the key itself the verdict it gives the cuisine: the resolver,
    which scores with the key, and the orchestrator, which accepts with the
    requested cuisine, agree on every record. *)
Theorem matches_cuisine_key_agrees det (cuisine : str) :
  lower [] = [] →
  lower (strip (lower (strip cuisine))) = lower (strip cuisine) →
  _matches_cuisine det (lower (strip cuisine)) = _matches_cuisine det cuisine.
Proof.
  intros Hnil Hstable.
  destruct (lower (strip cuisine)) as [|k ks] eqn:Hk.
  { by rewrite (matches_blank_key det cuisine Hk). }
  destruct cuisine as [|c cs].
  { change (strip []) with (@nil N) in Hk. congruence. }
  rewrite <- Hk. apply matches_cuisine_by_key; by rewrite Hk.
Qed.

End MatcherFacts.

Lemma matches_cuisine_key_agrees_witness :
  @_matches_cuisine Latin.unicode Script.bistro (utf8 "french")
  = @_matches_cuisine Latin.unicode Script.bistro (utf8 " French ").
Proof.
  apply (@matches_cuisine_key_agrees Latin.unicode Script.bistro (utf8 " French "));
    by vm_compute.
Defined.

(** ** Resolver: which records the starting score shuts out *)

Section ResolverExtras.
Context `{Unicode} `{Places}.

Lemma overlap_nonneg venue_name det : (0 ≤ overlap venue_name det)%Z.
Proof. unfold overlap. lia. Qed.

Lemma score_negative_iff venue_name city ckey det :
  (score venue_name city ckey det < 0)%Z
  ↔ ckey ≠ [] ∧ (overlap venue_name det ≤ 1)%Z
    ∧ _in_city (Some (or_empty (formatted_address det))) city = false
    ∧ _matches_cuisine det ckey = false.
Proof.
  rewrite score_formula. pose proof (overlap_nonneg venue_name det).
  rewrite <- nonempty_true.
  destruct (_in_city _ city), (nonempty ckey), (_matches_cuisine det ckey);
    (split; [intros Hlt | intros (Hn & Ho & Hc & Hm)]);
    first [lia | congruence | (repeat split; (done || lia))].
Qed.

Lemma resolver_none_iff ag venue_name city cuisine :
  google_api_key ag ≠ [] →
  _search_venue_in_places ag venue_name city cuisine = None
  ↔ Forall (λ det,
      (score venue_name city (lower (strip cuisine)) det < 0)%Z)
      (candidates ag (center_of ag city) (resolver_queries venue_name city)).
Proof.
  intros Hk. rewrite resolver_unfold by done.
  generalize (candidates ag (center_of ag city)
                (resolver_queries venue_name city)). intros cands.
  destruct (running_best venue_name city (lower (strip cuisine)) cands (-1) None)
    as [[Hall ->]|(r & Hr & Hpos & ->)]; cbn [snd].
  - split; [|done]. intros _. eapply Forall_impl; [exact Hall|].
    cbv beta. intros. lia.
  - split; [done|]. intros Hneg. exfalso.
    destruct Hr as (pre & post & -> & _).
    apply Forall_app in Hneg as [_ Hneg]. apply Forall_cons in Hneg as [Hneg _].
    cbv zeta in Hpos. lia.
Qed.

(** X2. With a lookup key, the resolver returns nothing exactly when every
    record it meets fails on all three counts: a cuisine is asked for and
    rejected, at most one word of the name is shared, and the address is
    outside the city. So without a cuisine it returns a record as soon as one
    seed resolves. *)
Theorem resolver_absent_iff ag venue_name city cuisine :
  google_api_key ag ≠ [] →
  let ckey := lower (strip cuisine) in
  let cands :=
    candidates ag (center_of ag city) (resolver_queries venue_name city) in
  (_search_venue_in_places ag venue_name city cuisine = None
   ↔ Forall (λ det,
       ckey ≠ [] ∧ (overlap venue_name det ≤ 1)%Z
       ∧ _in_city (Some (or_empty (formatted_address det))) city = false
       ∧ _matches_cuisine det ckey = false) cands)
  ∧ (ckey = [] →
     (_search_venue_in_places ag venue_name city cuisine = None ↔ cands = [])).
Proof.
  intros Hk ckey cands.
  assert (Hiff : _search_venue_in_places ag venue_name city cuisine = None
    ↔ Forall (λ det,
        ckey ≠ [] ∧ (overlap venue_name det ≤ 1)%Z
        ∧ _in_city (Some (or_empty (formatted_address det))) city = false
        ∧ _matches_cuisine det ckey = false) cands).
  { rewrite resolver_none_iff by done. apply Forall_iff. intros det.
    apply score_negative_iff. }
  split; [exact Hiff|]. intros Hblank. rewrite Hiff. split.
  - intros Hall. destruct cands as [|d l]; [done|].
    apply Forall_cons in Hall as [(Hne & _) _]. done.
  - by intros ->.
Qed.

End ResolverExtras.

Lemma resolver_absent_iff_witness :
  @_search_venue_in_places Latin.unicode Script.only_diner Script.agent
    (utf8 "Le Jardin") (utf8 "Paris") (utf8 "French") = None
  ∧ @_search_venue_in_places Latin.unicode Script.only_diner Script.agent
      (utf8 "Le Jardin") (utf8 "Paris") [] ≠ None.
Proof.
  split.
  - destruct (@resolver_absent_iff Latin.unicode Script.only_diner Script.agent
                (utf8 "Le Jardin") (utf8 "Paris") (utf8 "French"))
      as [Hiff _]; [done|].
    apply Hiff, (bool_decide_unpack _). by vm_compute.
  - destruct (@resolver_absent_iff Latin.unicode Script.only_diner Script.agent
                (utf8 "Le Jardin") (utf8 "Paris") [])
      as [_ Hblank]; [done|].
    intros Hnone. apply Hblank in Hnone; [|by vm_compute].
    by vm_compute in Hnone.
Defined.

(** ** Fallback: what it returns and what it asks *)

Section FallbackExtras.
Context `{Unicode} `{Places}.

Lemma collect_seeds_elem ag center is_outdoor queries : ∀ seeds s,
  s ∈ collect_seeds ag center is_outdoor queries seeds →
  s ∈ seeds
  ∨ ∃ q found, q ∈ queries
      ∧ places_text_search q (google_api_key ag) center
          (if is_outdoor then 20000 else 15000) 4 = Some found
      ∧ s ∈ found.
Proof.
  induction queries as [|q qs IH]; intros seeds s; cbn [collect_seeds];
    [by left|].
  destruct (12 <=? length seeds)%nat; [by left|].
  destruct (places_text_search q _ _ _ _) as [found|] eqn:E.
  - intros [[Hs|Hs]%elem_of_app|(q' & f & Hq & Hf & Hs)]%IH.
    + by left.
    + right. exists q, found. split; [left|done].
    + right. exists q', f. split; [by right|done].
  - intros [Hs|(q' & f & Hq & Hf & Hs)]%IH; [by left|].
    right. exists q', f. split; [by right|done].
Qed.

Lemma accept_seeds_elem ag city cuisine is_outdoor seeds : ∀ results r,
  r ∈ accept_seeds ag city cuisine is_outdoor seeds results →
  r ∈ results
  ∨ ∃ s, s ∈ seeds ∧ seed_details ag s = Some r
      ∧ _in_city (formatted_address r) city = true
      ∧ (is_outdoor = false → _matches_cuisine r cuisine = true).
Proof.
  induction seeds as [|s ss IH]; intros results r; [by left|].
  rewrite accept_seeds_cons.
  destruct (3 <=? length results)%nat; [by left|].
  assert (Hrest : r ∈ accept_seeds ag city cuisine is_outdoor ss results →
            r ∈ results
            ∨ ∃ s0, s0 ∈ s :: ss ∧ seed_details ag s0 = Some r
                ∧ _in_city (formatted_address r) city = true
                ∧ (is_outdoor = false → _matches_cuisine r cuisine = true)).
  { intros [Hr|(s0 & Hs0 & Hmore)]%IH; [by left|].
    right. exists s0. split; [by right | done]. }
  destruct (seed_details ag s) as [det|] eqn:Ed; [|done].
  destruct (_in_city (formatted_address det) city) eqn:Ec; [|done].
  cbn [negb].
  destruct (negb is_outdoor && nonempty cuisine
            && negb (_matches_cuisine det cuisine)) eqn:Ef; [done|].
  intros [[Hr|Hr%list_elem_of_singleton]%elem_of_app|(s0 & Hs0 & Hmore)]%IH.
  - by left.
  - subst r. right. exists s. split; [left|]. split; [done|]. split; [done|].
    intros ->. cbn [negb andb] in Ef.
    destruct cuisine as [|c cu]; [done|]. cbn [nonempty andb] in Ef.
    by destruct (_matches_cuisine det (c :: cu)).
  - right. exists s0. split; [by right | done].
Qed.

Lemma fallback_elem_accepted ag city venue_type audience cuisine is_outdoor r :
  r ∈ _get_fallback_venues ag city venue_type audience cuisine is_outdoor →
  ∃ s, s ∈ collect_seeds ag (center_of ag city) is_outdoor
             (fallback_queries city venue_type cuisine is_outdoor) []
       ∧ seed_details ag s = Some r
       ∧ _in_city (formatted_address r) city = true
       ∧ (is_outdoor = false → _matches_cuisine r cuisine = true).
Proof.
  unfold _get_fallback_venues.
  destruct (negb (nonempty (google_api_key ag))); [by intros ?%elem_of_nil|].
  intros [Hr|Hs]%accept_seeds_elem; [by apply elem_of_nil in Hr | done].
Qed.

(** X3. Every record the fallback returns has an address that contains the
    city and, unless the search is outdoor, passes the cuisine matcher; it is
    the details of a seed that one of the fallback's queries found. *)
Theorem fallback_results_vetted ag city venue_type audience cuisine
    is_outdoor r :
  r ∈ _get_fallback_venues ag city venue_type audience cuisine is_outdoor →
  _in_city (formatted_address r) city = true
  ∧ (is_outdoor = false → _matches_cuisine r cuisine = true)
  ∧ ∃ q found s,
      q ∈ fallback_queries city venue_type cuisine is_outdoor
      ∧ places_text_search q (google_api_key ag) (center_of ag city)
          (if is_outdoor then 20000 else 15000) 4 = Some found
      ∧ s ∈ found ∧ seed_details ag s = Some r.
Proof.
  intros (s & Hs & Hd & Hc & Hm)%fallback_elem_accepted.
  split; [done|]. split; [done|].
  apply collect_seeds_elem in Hs as [Hs|(q & found & Hq & Hf & Hs)];
    [by apply elem_of_nil in Hs|].
  by exists q, found, s.
Qed.

Lemma dict_get_cases {V} (d : list (str * V)) (k : str) (default : V) :
  dict_get d k default = default ∨ dict_get d k default ∈ d.*2.
Proof.
  induction d as [|[k' v] d IH]; simpl; [by left|].
  destruct (bool_decide (k' = k)); [right; left|].
  destruct IH as [->|IH]; [by left | right; by right].
Qed.

Lemma cuisine_terms_short (ckey : str) :
  (length (dict_get CUISINE_TERMS ckey (if nonempty ckey then [ckey] else []))
   ≤ 4)%nat.
Proof.
  destruct (dict_get_cases CUISINE_TERMS ckey
              (if nonempty ckey then [ckey] else [])) as [->|Hin].
  - destruct (nonempty ckey); simpl; lia.
  - revert Hin. generalize (dict_get CUISINE_TERMS ckey
                              (if nonempty ckey then [ckey] else [])).
    apply Forall_forall, (bool_decide_unpack _). by vm_compute.
Qed.

Lemma base_terms_short (venue_type : str) :
  (length (dict_get base_terms venue_type (map utf8 ["venue"; "restaurant"]%string))
   ≤ 4)%nat.
Proof.
  destruct (dict_get_cases base_terms venue_type
              (map utf8 ["venue"; "restaurant"]%string)) as [->|Hin].
  - simpl. lia.
  - revert Hin. generalize (dict_get base_terms venue_type
                              (map utf8 ["venue"; "restaurant"]%string)).
    apply Forall_forall, (bool_decide_unpack _). by vm_compute.
Qed.

(** X4. Every query of the fallback is a term followed by a blank and the
    city; there are seventeen of them outdoors and at most twelve
    otherwise. *)
Theorem fallback_queries_shape city venue_type cuisine is_outdoor :
  Forall (λ q, ∃ term, q = term ++ utf8 " " ++ city)
    (fallback_queries city venue_type cuisine is_outdoor)
  ∧ length (fallback_queries city venue_type cuisine true) = 17%nat
  ∧ (length (fallback_queries city venue_type cuisine false) ≤ 12)%nat.
Proof.
  split; [|split].
  - unfold fallback_queries. destruct is_outdoor.
    + apply Forall_forall. intros q (t & -> & _)%list_elem_of_fmap. by exists t.
    + apply Forall_app. split.
      * apply Forall_forall. intros q (t & -> & _)%list_elem_of_fmap.
        by exists t.
      * apply Forall_forall. intros q Hq.
        apply list_elem_of_In, in_flat_map in Hq as (t & _ & Hq).
        apply list_elem_of_In, elem_of_app in Hq as [Hq|Hq].
        -- destruct (nonempty _); [|by apply elem_of_nil in Hq].
           apply list_elem_of_singleton in Hq as ->.
           exists (lower (strip cuisine) ++ utf8 " " ++ t).
           by rewrite <- !app_assoc.
        -- apply list_elem_of_singleton in Hq as ->. by exists t.
  - unfold fallback_queries. by rewrite length_map.
  - unfold fallback_queries. rewrite length_app, length_map.
    pose proof (cuisine_terms_short (lower (strip cuisine))) as Hc.
    pose proof (base_terms_short (lower venue_type)) as Hb.
    revert Hb. generalize (dict_get base_terms (lower venue_type)
                             (map utf8 ["venue"; "restaurant"]%string)).
    intros terms Hb.
    assert (Hflat : (length (flat_map (λ term,
              (if nonempty (lower (strip cuisine))
               then [lower (strip cuisine) ++ utf8 " " ++ term ++ utf8 " " ++ city]
               else []) ++ [term ++ utf8 " " ++ city]) terms)
            ≤ 2 * length terms)%nat).
    { clear Hb. induction terms as [|t ts IH]; simpl; [lia|].
      rewrite length_app. destruct (nonempty _); simpl in *; lia. }
    lia.
Qed.

End FallbackExtras.

Lemma fallback_results_vetted_witness :
  Script.diner ∈ @_get_fallback_venues Latin.unicode Script.only_diner
                   Script.agent (utf8 "Lyon") (utf8 "Indoor") (utf8 "adults")
                   [] false
  ∧ @_in_city Latin.unicode (formatted_address Script.diner) (utf8 "Lyon") = true.
Proof.
  assert (Hin : Script.diner ∈ @_get_fallback_venues Latin.unicode
                  Script.only_diner Script.agent (utf8 "Lyon") (utf8 "Indoor")
                  (utf8 "adults") [] false) by (vm_compute; left).
  split; [exact Hin|].
  exact (proj1 (@fallback_results_vetted Latin.unicode Script.only_diner
                  Script.agent (utf8 "Lyon") (utf8 "Indoor") (utf8 "adults")
                  [] false Script.diner Hin)).
Defined.

(** ** Orchestrator: what a response holds *)

Section ResponseFacts.
Context `{Unicode} `{Places} `{Assistant}.

(** The final guard never changes the records. *)
Lemma after_guard_fst ag ctx :
  (after_guard ag ctx).1 = (after_fallback ag ctx).1.
Proof.
  destruct (after_guard_cases ag ctx)
    as [(Hne & _ & ->)|[(Hres & _ & ->)|(Hres & _ & Hempty & Ho & _ & ->)]];
    unfold after_fallback.
  - by destruct (after_resolution ag ctx).
  - by rewrite Hres.
  - rewrite Hres. unfold call_fallback. cbn [fst]. rewrite Hempty.
    assert (Hsame : {| fc_city := ctx_city ctx;
                       fc_venue_type := venue_type_of ctx;
                       fc_audience := ctx_audience ctx; fc_cuisine := [];
                       fc_is_outdoor := true |}
                    = {| fc_city := ctx_city ctx;
                         fc_venue_type := venue_type_of ctx;
                         fc_audience := ctx_audience ctx;
                         fc_cuisine := cuisine_effective ctx;
                         fc_is_outdoor := is_outdoor_of ctx |}).
    { unfold cuisine_effective. by rewrite Ho. }
    by rewrite Hsame, Hempty.
Qed.

Lemma process_request_eq ag ctx :
  process_request ag ctx
  = {| suggestions := (after_fallback ag ctx).1;
       raw := match or_empty (_call_llm_unified (prompt_of ag ctx)) with
              | [] => utf8 "No LLM response available" | r => r end;
       unified_display :=
         _format_weather_and_venues (_get_weather_line ag ctx)
           (after_fallback ag ctx).1 (ctx_city ctx);
       weather_info := _get_weather_line ag ctx |}.
Proof.
  rewrite <- after_guard_fst. unfold process_request, run_request.
  by destruct (after_guard ag ctx).
Qed.

Lemma suggestions_eq ag ctx :
  suggestions (process_request ag ctx) = (after_fallback ag ctx).1.
Proof. by rewrite process_request_eq. Qed.

(** What the first fallback is called with. *)
Lemma after_fallback_cases ag ctx :
  (after_resolution ag ctx ≠ []
   ∧ after_fallback ag ctx = (after_resolution ag ctx, []))
  ∨ (after_resolution ag ctx = []
     ∧ (after_fallback ag ctx).1
       = mark (utf8 "fallback_search")
         <$> _get_fallback_venues ag (ctx_city ctx) (venue_type_of ctx)
               (ctx_audience ctx) (cuisine_effective ctx) (is_outdoor_of ctx)).
Proof.
  unfold after_fallback. destruct (after_resolution ag ctx) as [|r l].
  - by right.
  - by left.
Qed.

(** X6. For a request that is not outdoor, every record of the response passes
    the cuisine matcher for the requested cuisine, whether it was resolved
    from a name or found by the fallback. *)
Theorem suggestions_match_requested_cuisine ag ctx r :
  is_outdoor_of ctx = false →
  r ∈ suggestions (process_request ag ctx) →
  _matches_cuisine r (ctx_cuisine ctx) = true.
Proof.
  intros Ho. rewrite suggestions_eq.
  destruct (after_fallback_cases ag ctx) as [[_ ->]|[_ ->]]; cbn [fst].
  - intros (n & det & _ & _ & Hacc & ->)%after_resolution_elem.
    rewrite matches_mark. destruct Hacc as [Hacc|[Hacc|Hacc]]; [congruence| |done].
    unfold _matches_cuisine. by rewrite Hacc.
  - intros (det & -> & Hdet)%list_elem_of_fmap. rewrite matches_mark.
    apply fallback_elem_accepted in Hdet as (_ & _ & _ & _ & Hm).
    unfold cuisine_effective in Hm. rewrite Ho in Hm. by apply Hm.
Qed.

(** X7. The records of one response come from one source: either all were
    resolved from the model's names and no fallback ran, or no name was
    resolved and all come from the fallback, which ran once or twice. *)
Theorem response_single_source ag ctx :
  (after_resolution ag ctx ≠ []
   ∧ fallback_calls ag ctx = []
   ∧ suggestions (process_request ag ctx) = after_resolution ag ctx
   ∧ Forall (λ r, source r = Some (utf8 "google_places"))
       (suggestions (process_request ag ctx)))
  ∨ (after_resolution ag ctx = []
     ∧ (1 ≤ length (fallback_calls ag ctx) ≤ 2)%nat
     ∧ Forall (λ r, source r = Some (utf8 "fallback_search"))
         (suggestions (process_request ag ctx))).
Proof.
  rewrite calls_after_guard, suggestions_after_guard.
  destruct (after_guard_cases ag ctx)
    as [(Hne & _ & ->)|[(Hres & _ & ->)|(Hres & _ & _ & _ & _ & ->)]];
    cbn [fst snd].
  - left. split; [done|]. split; [done|]. split; [done|].
    apply Forall_forall.
    by intros r (n & det & _ & _ & _ & ->)%after_resolution_elem.
  - right. split; [done|]. split; [simpl; lia|].
    apply Forall_forall. by intros r (det & -> & _)%list_elem_of_fmap.
  - right. split; [done|]. split; [simpl; lia|].
    apply Forall_forall. by intros r (det & -> & _)%list_elem_of_fmap.
Qed.

(** X8. When the model's reply holds no emphasis span, or the model gave no
    reply, no name is resolved and the response holds the records of the
    fallback for the request's city, venue type and effective cuisine. *)
Theorem no_span_means_fallback ag ctx :
  (∀ t, _call_llm_unified (prompt_of ag ctx) = Some t → ¬ ∃ x, bold_span x t) →
  after_resolution ag ctx = []
  ∧ suggestions (process_request ag ctx)
    = mark (utf8 "fallback_search")
      <$> _get_fallback_venues ag (ctx_city ctx) (venue_type_of ctx)
            (ctx_audience ctx) (cuisine_effective ctx) (is_outdoor_of ctx).
Proof.
  intros Hno.
  assert (Hnames : names_of (_call_llm_unified (prompt_of ag ctx)) = []).
  { unfold names_of. destruct (truthy _); [|done].
    rewrite extract_take_kept.
    destruct (candidate_names (_call_llm_unified (prompt_of ag ctx)))
      as [|n l] eqn:E; [done|]. exfalso.
    destruct (_call_llm_unified (prompt_of ag ctx)) as [t|] eqn:Et; [|done].
    assert (Hn : n ∈ candidate_names (Some t)) by (rewrite E; left).
    apply candidate_names_sources in Hn as (m & Hm%name_sources_bold_span & _).
    apply (Hno t eq_refl). by exists m. }
  assert (Hres : after_resolution ag ctx = []).
  { unfold after_resolution. by rewrite Hnames. }
  split; [done|]. rewrite suggestions_eq.
  destruct (after_fallback_cases ag ctx) as [[Hne _]|[_ ->]]; done.
Qed.

End ResponseFacts.

Lemma suggestions_match_requested_cuisine_witness :
  let asst := Script.assistant (Some (utf8 "**Le Jardin**: lovely garden.")) in
  let ctx : Context :=
    {| ctx_city := utf8 "Paris"; ctx_location_type := [];
       ctx_venue_type := utf8 "indoor"; ctx_audience := utf8 "adults";
       ctx_guest_count := utf8 "8"; ctx_budget_venue := utf8 "900";
       ctx_cuisine := utf8 "French"; ctx_weather_forecast_text := None;
       ctx_event_date := None; ctx_date := None; ctx_selected_date := None |} in
  let r := mark (utf8 "google_places") Script.bistro in
  r ∈ suggestions (@process_request Latin.unicode Script.scenario_D asst
                     Script.agent ctx)
  ∧ @_matches_cuisine Latin.unicode r (utf8 "French") = true.
Proof.
  intros asst ctx r.
  assert (Hin : r ∈ suggestions (@process_request Latin.unicode
                  Script.scenario_D asst Script.agent ctx))
    by (vm_compute; left).
  split; [exact Hin|].
  apply (@suggestions_match_requested_cuisine Latin.unicode Script.scenario_D
           asst Script.agent ctx r); [by vm_compute | exact Hin].
Defined.

Lemma no_span_means_fallback_witness :
  let asst := Script.assistant (Some (utf8 "Sorry, I know no venue there.")) in
  name <$> suggestions (@process_request Latin.unicode Script.only_diner asst
                          Script.agent (@Script.indoor_ctx asst))
  = [Some (utf8 "Chez Marcel"); Some (utf8 "Chez Marcel"); Some (utf8 "Chez Marcel")].
Proof.
  intros asst.
  destruct (@no_span_means_fallback Latin.unicode Script.only_diner asst
              Script.agent (@Script.indoor_ctx asst)) as [_ ->].
  - intros t Ht.
    assert (t = utf8 "Sorry, I know no venue there.") as ->
      by (vm_compute in Ht; injection Ht as <-; by vm_compute).
    intros Hspan%has_bold_span_spec. by vm_compute in Hspan.
  - by vm_compute.
Defined.

(** ** Orchestrator: the cuisine of an outdoor request *)

Section OutdoorFacts.
Context `{Unicode} `{Places} `{Assistant}.

Lemma with_cuisine_outdoor ctx c :
  is_outdoor_of (with_cuisine ctx c) = is_outdoor_of ctx.
Proof. done. Qed.

Lemma with_cuisine_effective ctx c :
  is_outdoor_of ctx = true →
  cuisine_effective (with_cuisine ctx c) = cuisine_effective ctx.
Proof.
  intros Ho. unfold cuisine_effective. by rewrite with_cuisine_outdoor, Ho.
Qed.

Lemma with_cuisine_weather ag ctx c :
  _get_weather_line ag (with_cuisine ctx c) = _get_weather_line ag ctx.
Proof. done. Qed.

Lemma with_cuisine_prompt ag ctx c :
  is_outdoor_of ctx = true →
  prompt_of ag (with_cuisine ctx c) = prompt_of ag ctx.
Proof.
  intros Ho. unfold prompt_of.
  by rewrite with_cuisine_weather, with_cuisine_effective, with_cuisine_outdoor.
Qed.

Lemma with_cuisine_resolve ag ctx c enriched n :
  is_outdoor_of ctx = true →
  resolve_name ag (with_cuisine ctx c) enriched n = resolve_name ag ctx enriched n.
Proof.
  intros Ho. unfold resolve_name.
  rewrite with_cuisine_effective, with_cuisine_outdoor, Ho by done.
  done.
Qed.

Lemma with_cuisine_resolution ag ctx c :
  is_outdoor_of ctx = true →
  after_resolution ag (with_cuisine ctx c) = after_resolution ag ctx.
Proof.
  intros Ho. unfold after_resolution. rewrite with_cuisine_prompt by done.
  generalize (names_of (_call_llm_unified (prompt_of ag ctx))).
  generalize (@nil PlaceDetails). intros acc names. revert acc.
  induction names as [|n names IH]; intros acc; [done|].
  cbn [foldl]. by rewrite with_cuisine_resolve, IH.
Qed.

Lemma with_cuisine_fallback ag ctx c :
  is_outdoor_of ctx = true →
  (after_fallback ag (with_cuisine ctx c)).1 = (after_fallback ag ctx).1.
Proof.
  intros Ho. unfold after_fallback. rewrite with_cuisine_resolution by done.
  destruct (after_resolution ag ctx); [|done].
  by rewrite with_cuisine_effective, with_cuisine_outdoor.
Qed.

(** X9. For an outdoor request the response does not depend on the cuisine
    asked for: records, raw reply, display and weather line are the same
    whatever the cuisine is. *)
Theorem outdoor_response_ignores_cuisine ag ctx c :
  is_outdoor_of ctx = true →
  process_request ag (with_cuisine ctx c) = process_request ag ctx.
Proof.
  intros Ho. rewrite !process_request_eq.
  by rewrite with_cuisine_fallback, with_cuisine_prompt, with_cuisine_weather.
Qed.

End OutdoorFacts.

Lemma outdoor_response_ignores_cuisine_witness :
  let asst := Script.assistant (Some (utf8 "**Le Jardin**: lovely garden.")) in
  @process_request Latin.unicode Script.scenario_D asst Script.agent
    (@with_cuisine asst (@Script.outdoor_ctx asst) (utf8 "Turkish"))
  = @process_request Latin.unicode Script.scenario_D asst Script.agent
      (@Script.outdoor_ctx asst).
Proof.
  intros asst.
  apply (@outdoor_response_ignores_cuisine Latin.unicode Script.scenario_D asst
           Script.agent (@Script.outdoor_ctx asst) (utf8 "Turkish")).
  by vm_compute.
Defined.

(** ** Orchestrator: the display and the weather line *)

Section DisplayFacts.
Context `{Unicode} `{Places} `{Assistant}.

Lemma join_occurs (sep : str) (parts : list str) (x : str) :
  x ∈ parts → occurs_in x (join sep parts).
Proof.
  induction parts as [|p parts IH]; [by intros ?%elem_of_nil|].
  intros [->|Hx]%elem_of_cons.
  - destruct parts as [|q parts]; [exists [], []; by rewrite app_nil_r|].
    by exists [], (sep ++ join sep (q :: parts)).
  - destruct parts as [|q parts]; [by apply elem_of_nil in Hx|].
    destruct (IH Hx) as (pre & post & Heq).
    exists (p ++ sep ++ pre), post.
    change (join sep (p :: q :: parts)) with (p ++ sep ++ join sep (q :: parts)).
    rewrite Heq. by rewrite <- !app_assoc.
Qed.

Lemma venue_block_head city i v :
  ∃ rest, venue_block city i v
  = (utf8 "**" ++ show_Z (Z.of_nat i) ++ utf8 ". " ++ shown_name v ++ utf8 "**")
    :: (utf8 "📌 **Address:** " ++ shown_address city v) :: rest.
Proof.
  eexists. unfold venue_block, shown_name, shown_address. cbn [app].
  reflexivity.
Qed.

Lemma format_some_venues weather_info v vs city :
  _format_weather_and_venues weather_info (v :: vs) city
  = join nl ((if nonempty weather_info
              then [utf8 "📅 **Weather:** " ++ weather_info; []] else [])
             ++ [utf8 "📍 **Recommended Venues in " ++ city ++ utf8 ":**"; []]
             ++ concat (imap (λ i v, venue_block city (S i) v) (v :: vs))).
Proof. reflexivity. Qed.

Lemma format_lists_venue weather_info venues city i v line :
  venues !! i = Some v →
  line ∈ venue_block city (S i) v →
  occurs_in line (_format_weather_and_venues weather_info venues city).
Proof.
  intros Hi Hline.
  destruct venues as [|v0 vs]; [by rewrite lookup_nil in Hi|].
  rewrite format_some_venues. apply join_occurs.
  apply elem_of_app; right. apply elem_of_app; right.
  apply list_elem_of_In, in_concat. exists (venue_block city (S i) v).
  split; apply list_elem_of_In; [|done].
  by apply (elem_of_lookup_imap_2 (λ i v, venue_block city (S i) v)).
Qed.

Lemma format_shows_heading weather_info v vs city :
  occurs_in (utf8 "📍 **Recommended Venues in " ++ city ++ utf8 ":**")
    (_format_weather_and_venues weather_info (v :: vs) city).
Proof.
  rewrite format_some_venues. apply join_occurs.
  apply elem_of_app; right. left.
Qed.

Lemma format_shows_weather weather_info venues city :
  occurs_in weather_info (_format_weather_and_venues weather_info venues city).
Proof.
  destruct weather_info as [|c w]; [by eexists [], _|].
  apply occurs_in_trans with (utf8 "📅 **Weather:** " ++ c :: w).
  { exists (utf8 "📅 **Weather:** "), []. by rewrite app_nil_r. }
  unfold _format_weather_and_venues. cbn [nonempty].
  destruct venues; apply join_occurs; left.
Qed.

Lemma weather_info_eq ag ctx :
  weather_info (process_request ag ctx) = _get_weather_line ag ctx.
Proof. by rewrite process_request_eq. Qed.

Lemma display_eq ag ctx :
  unified_display (process_request ag ctx)
  = _format_weather_and_venues (_get_weather_line ag ctx)
      (suggestions (process_request ag ctx)) (ctx_city ctx).
Proof. by rewrite process_request_eq. Qed.

(** X10. Every record of a response is shown: the display holds, for the
    record at place i, the heading with its number i+1 and its name (or the
    words for a missing name) and the line of its address (or the city with
    the words for a missing address); it also holds the heading with the city
    and the weather line. *)
Theorem display_lists_every_venue ag ctx i v :
  suggestions (process_request ag ctx) !! i = Some v →
  let shown := unified_display (process_request ag ctx) in
  occurs_in (utf8 "**" ++ show_Z (Z.of_nat (S i)) ++ utf8 ". " ++ shown_name v
             ++ utf8 "**") shown
  ∧ occurs_in (utf8 "📌 **Address:** " ++ shown_address (ctx_city ctx) v) shown
  ∧ occurs_in (utf8 "📍 **Recommended Venues in " ++ ctx_city ctx ++ utf8 ":**")
      shown
  ∧ occurs_in (weather_info (process_request ag ctx)) shown.
Proof.
  intros Hi shown. subst shown. rewrite display_eq, weather_info_eq.
  revert Hi. generalize (suggestions (process_request ag ctx)).
  intros venues Hi.
  destruct (venue_block_head (ctx_city ctx) (S i) v) as [rest Hblock].
  split; [|split; [|split]].
  - eapply format_lists_venue; [exact Hi|]. rewrite Hblock. left.
  - eapply format_lists_venue; [exact Hi|]. rewrite Hblock. right. left.
  - destruct venues as [|v0 vs]; [by rewrite lookup_nil in Hi|].
    apply format_shows_heading.
  - apply format_shows_weather.
Qed.

(** X11. The weather line of a response. A forecast text given with the
    request wins, trimmed. Without one, a request with no city, with no date
    under any of the three keys, or with a date text of ten characters or more
    that is no date, gets the fixed sentence, whatever the forecast helper
    would say; a request with a city and a date, given as such or read from
    the first ten characters of a text, gets the helper's line for that city
    and date. *)
Theorem weather_line_cases ag ctx :
  let w := strip (or_empty (ctx_weather_forecast_text ctx)) in
  let when := when_or (ctx_event_date ctx)
                (when_or (ctx_date ctx) (ctx_selected_date ctx)) in
  let line := weather_info (process_request ag ctx) in
  let fixed :=
    utf8 "Weather information not available - please check local forecast" in
  (w ≠ [] → line = w)
  ∧ (w = [] →
     ctx_city ctx = []
     ∨ (when_truthy (ctx_event_date ctx) = false
        ∧ when_truthy (ctx_date ctx) = false
        ∧ when_truthy (ctx_selected_date ctx) = false)
     ∨ (∃ s, when = Some (inl s) ∧ (10 ≤ length s)%nat
             ∧ make_date (take 10 s) = None) →
     line = fixed)
  ∧ (w = [] → ctx_city ctx ≠ [] → ∀ d,
     when = Some (inr d)
     ∨ (∃ s, when = Some (inl s) ∧ (10 ≤ length s)%nat
             ∧ make_date (take 10 s) = Some d) →
     line = format_weather_line (ctx_city ctx) (inr d) (google_api_key ag)).
Proof.
  intros w when line fixed. subst line. rewrite weather_info_eq.
  unfold _get_weather_line. fold w. fold when. fold fixed.
  generalize fixed. clear fixed. intros fixed.
  split; [|split].
  - intros Hw. by destruct w.
  - intros -> Hcase. cbn [nonempty].
    destruct Hcase as [Hcity|[(He & Hd & Hs)|(s & Hwhen & Hlen & Hdate)]].
    + rewrite Hcity. cbn [nonempty andb].
      by repeat (match goal with |- context [match ?x with _ => _ end] =>
                   destruct x end).
    + assert (Hfalse : when_truthy when = false).
      { subst when. unfold when_or. by rewrite He, Hd. }
      destruct when as [[s|d]|]; [|done|done].
      cbn [when_truthy] in Hfalse. destruct s; [|done].
      cbn [length]. by rewrite andb_false_r.
    + rewrite Hwhen. apply Nat.leb_le in Hlen. by rewrite Hlen, Hdate.
  - intros -> Hcity%nonempty_true d Hcase. cbn [nonempty].
    destruct Hcase as [Hwhen|(s & Hwhen & Hlen & Hdate)]; rewrite Hwhen.
    + by rewrite Hcity.
    + apply Nat.leb_le in Hlen. by rewrite Hlen, Hdate, Hcity.
Qed.

End DisplayFacts.

Lemma display_lists_every_venue_witness :
  let asst := Script.assistant (Some (utf8 "**Le Jardin**: lovely garden.")) in
  let ctx : Context :=
    {| ctx_city := utf8 "Paris"; ctx_location_type := [];
       ctx_venue_type := utf8 "indoor"; ctx_audience := utf8 "adults";
       ctx_guest_count := utf8 "8"; ctx_budget_venue := utf8 "900";
       ctx_cuisine := utf8 "French"; ctx_weather_forecast_text := None;
       ctx_event_date := None; ctx_date := None; ctx_selected_date := None |} in
  occurs_in (utf8 "**1. Chez Marcel**")
    (unified_display (@process_request Latin.unicode Script.scenario_D asst
                        Script.agent ctx)).
Proof.
  intros asst ctx.
  assert (Hi : suggestions (@process_request Latin.unicode Script.scenario_D
                              asst Script.agent ctx) !! 0%nat
               = Some (mark (utf8 "google_places") Script.bistro))
    by (by vm_compute).
  exact (proj1 (@display_lists_every_venue Latin.unicode Script.scenario_D asst
                  Script.agent ctx 0%nat _ Hi)).
Defined.

Lemma weather_line_cases_witness :
  let asst := Script.assistant None in
  weather_info (@process_request Latin.unicode Script.nothing asst Script.agent
                  (@Script.indoor_ctx asst))
  = utf8 "Sunny, 24°C".
Proof.
  intros asst.
  destruct (@weather_line_cases Latin.unicode Script.nothing asst Script.agent
              (@Script.indoor_ctx asst)) as [Hgiven _].
  rewrite Hgiven; by vm_compute.
Defined.

(** ** The lookup adapter *)

Section AdapterFacts.
Context `{Unicode} `{MapsApi.Provider}.

Lemma slice_to_sublist {A} (k : Z) (l : list A) : slice_to k l `sublist_of` l.
Proof. unfold slice_to. destruct (0 <=? k)%Z; apply sublist_take. Qed.

Lemma slice_to_length {A} (k : Z) (l : list A) :
  (0 ≤ k)%Z → (length (slice_to k l) ≤ Z.to_nat k)%nat.
Proof.
  intros Hk. unfold slice_to. destruct (Z.leb_spec 0 k); [|lia].
  rewrite length_take. lia.
Qed.

Lemma text_search_length query api_key bias radius_m max_results language :
  (0 ≤ max_results)%Z →
  (length (MapsApi.places_text_search query api_key bias radius_m max_results
             language) ≤ Z.to_nat max_results)%nat.
Proof.
  intros Hmax. unfold MapsApi.places_text_search.
  destruct (_ || _); [simpl; lia|].
  etrans; [apply length_filter|]. by apply slice_to_length.
Qed.

(** X13. A text search with a limit that is not negative returns at most that
    many seeds, each with an identifier and a name, in the provider's order;
    it asks nothing and returns nothing without a query or a key. *)
Theorem text_search_bounded query api_key bias radius_m max_results language :
  (0 ≤ max_results)%Z →
  let found :=
    MapsApi.places_text_search query api_key bias radius_m max_results
      language in
  (length found ≤ Z.to_nat max_results)%nat
  ∧ Forall (λ s, truthy (seed_place_id s) = true ∧ truthy (seed_name s) = true)
      found
  ∧ (query = [] ∨ api_key = [] → found = [])
  ∧ ∃ request,
      MapsApi.sr_query request = query ∧ MapsApi.sr_key request = api_key
      ∧ MapsApi.sr_language request = language
      ∧ found `sublist_of` MapsApi.textsearch_get request.
Proof.
  intros Hmax found. subst found. unfold MapsApi.places_text_search.
  set (request := {| MapsApi.sr_query := query; MapsApi.sr_key := api_key;
                     MapsApi.sr_language := language;
                     MapsApi.sr_location := (λ c, (c, radius_m)) <$> bias |}).
  split; [|split; [|split]].
  - by apply text_search_length.
  - destruct (_ || _); [done|]. apply Forall_forall.
    intros s [Hs _]%list_elem_of_filter. by apply andb_true_iff in Hs.
  - by intros [-> | ->]; [|rewrite orb_true_r].
  - exists request. split; [done|]. split; [done|]. split; [done|].
    destruct (_ || _); [apply sublist_nil_l|].
    etrans; [apply sublist_filter | apply slice_to_sublist].
Qed.

Lemma concat_replicate_singleton {A} (n : nat) (x : A) :
  concat (replicate n [x]) = replicate n x.
Proof. induction n as [|n IH]; simpl; [done | by rewrite IH]. Qed.

(** X14. The price text of a level is the lira sign written one to five times:
    once more than the level, with levels below 0 read as 0 and levels above 4
    as 4. *)
Theorem price_text_glyphs (level : Z) :
  ∃ n : nat,
    (1 ≤ n ≤ 5)%nat
    ∧ Z.of_nat n = Z.max 1 (Z.min 5 (level + 1))
    ∧ MapsApi.price_level_to_text (Some level) = Some (replicate n 8378%N).
Proof.
  exists (Z.to_nat (Z.max 0 (Z.min 4 level) + 1)).
  split; [lia|]. split; [lia|].
  unfold MapsApi.price_level_to_text. cbv zeta.
  change (utf8 "₺") with [8378%N]. by rewrite concat_replicate_singleton.
Qed.

Lemma maps_link_filled place_id r :
  nonempty (MapsApi.maps_place_link_from_details place_id r) = true.
Proof.
  assert (Hbuilt : nonempty (MapsApi.build_maps_url_from_place_id place_id) = true).
  { unfold MapsApi.build_maps_url_from_place_id.
    destruct (utf8 "https://www.google.com/maps/place/?q=place_id:") eqn:E;
      [by vm_compute in E | done]. }
  unfold MapsApi.maps_place_link_from_details.
  destruct (MapsApi.r_url r) as [url|]; [|done].
  destruct (nonempty (strip url)) eqn:E; [|done].
  destruct url; [by vm_compute in E | done].
Qed.

(** A key set to null is written out by the link. *)
Example null_identifier_link :
  MapsApi.maps_place_link_from_details None MapsApi.no_details
  = utf8 "https://www.google.com/maps/place/?q=place_id:None"
  ∧ MapsApi.maps_place_link_from_details (Some []) MapsApi.no_details
    = utf8 "https://www.google.com/maps/place/?q=place_id:".
Proof. by vm_compute. Qed.

(** X15. A record of details is returned only for an identifier and a key that
    are not empty and an answer of status OK; it is marked as coming from the
    provider, always carries a link to the map, a price text exactly when the
    provider gave a price level, and none of the three keys the cuisine
    matcher reads besides name, address and website. *)
Theorem place_details_facts place_id api_key language d :
  MapsApi.get_place_details place_id api_key language = Some d →
  let det := MapsApi.details_record d in
  place_id ≠ [] ∧ api_key ≠ []
  ∧ MapsApi.status (MapsApi.details_get place_id MapsApi.details_fields
                      api_key language) = utf8 "OK"
  ∧ source det = Some (utf8 "google_places")
  ∧ match_status det = None
  ∧ truthy (maps_url det) = true
  ∧ (price_text det = None ↔ MapsApi.details_price_level d = None)
  ∧ types det = [] ∧ serves_cuisine det = None ∧ editorial_overview det = None.
Proof.
  unfold MapsApi.get_place_details.
  destruct place_id as [|c pid]; [done|]. destruct api_key as [|k key]; [done|].
  cbn [nonempty negb orb].
  generalize MapsApi.details_fields (utf8 "OK"). intros fields ok.
  destruct (bool_decide_reflect
              (MapsApi.status (MapsApi.details_get (c :: pid) fields (k :: key)
                                 language) = ok)) as [Hok|Hno]; [|done].
  cbn [negb]. intros [= <-]. cbn [MapsApi.details_record
    MapsApi.details_price_level source match_status maps_url price_text types
    serves_cuisine editorial_overview truthy].
  split; [done|]. split; [done|]. split; [done|]. split; [done|].
  split; [done|]. split; [apply maps_link_filled|].
  split; [|done].
  by destruct (MapsApi.r_price_level _).
Qed.

Lemma details_record_keys place_id api_key language d :
  MapsApi.get_place_details place_id api_key language = Some d →
  types (MapsApi.details_record d) = []
  ∧ serves_cuisine (MapsApi.details_record d) = None
  ∧ editorial_overview (MapsApi.details_record d) = None.
Proof.
  unfold MapsApi.get_place_details.
  destruct (_ || _); [done|]. destruct (negb _); [done|]. by intros [= <-].
Qed.

Lemma join_five (a b c d e : str) :
  join (utf8 " ") [a; b; c; d; e]
  = a ++ utf8 " " ++ b ++ utf8 " " ++ c ++ utf8 " " ++ d ++ utf8 " " ++ e.
Proof. done. Qed.

(** X16. With the adapter as the lookup service, the cuisine matcher decides
    on name, address and website alone: a record passes for a cuisine that is
    not empty exactly when one of the cuisine's keywords occurs in the lowered
    text of the three. *)
Theorem adapter_cuisine_by_text place_id api_key det (cuisine : str) :
  @get_place_details MapsApi.services place_id api_key = Some det →
  cuisine ≠ [] →
  let ckey := lower (strip cuisine) in
  _matches_cuisine det cuisine = true
  ↔ ∃ k, k ∈ dict_get CUISINE_KEYS ckey [ckey]
       ∧ occurs_in k (lower (or_empty (name det) ++ utf8 " "
                             ++ or_empty (formatted_address det) ++ utf8 "   "
                             ++ or_empty (website det))).
Proof.
  cbn [get_place_details MapsApi.services].
  intros (d & Ed & ->)%fmap_Some Hc. set (ckey := lower (strip cuisine)).
  destruct (details_record_keys _ _ _ _ Ed) as (Hty & Hse & Hed).
  unfold _matches_cuisine. fold ckey.
  destruct cuisine as [|c cs]; [done|]. cbn [nonempty negb].
  rewrite Hty, Hse, Hed, join_five.
  change (or_empty None) with (@nil N). change (join (utf8 " ") []) with (@nil N).
  change (utf8 " " ++ [] ++ utf8 " " ++ [] ++ utf8 " "
          ++ or_empty (website (MapsApi.details_record d)))
    with (utf8 "   " ++ or_empty (website (MapsApi.details_record d))).
  unfold any. rewrite existsb_exists. split.
  - intros (k & Hk%list_elem_of_In & Hin%contains_spec). by exists k.
  - intros (k & Hk%list_elem_of_In & Hin%contains_spec). by exists k.
Qed.

Lemma collect_seeds_budget `{Places} (ag : VenueAgent) (center : option coord)
    (is_outdoor : bool) (k : nat) :
  (∀ q, match places_text_search q (google_api_key ag) center
                (if is_outdoor then 20000 else 15000) 4 with
        | Some found => (length found ≤ k)%nat
        | None => True
        end) →
  ∀ queries seeds,
    (length (collect_seeds ag center is_outdoor queries seeds)
     ≤ length seeds `max` (11 + k))%nat.
Proof.
  intros Hk. induction queries as [|q qs IH]; intros seeds;
    cbn [collect_seeds]; [lia|].
  destruct (Nat.leb_spec 12 (length seeds)); [lia|].
  specialize (Hk q).
  destruct (places_text_search q _ _ _ _) as [found|].
  - etrans; [apply IH|]. rewrite length_app. lia.
  - etrans; [apply IH|]. lia.
Qed.

Lemma omap_length_le {A B} (f : A → option B) (l : list A) :
  (length (omap f l) ≤ length l)%nat.
Proof.
  induction l as [|x l IH]; [done|]. cbn [omap list_omap].
  destruct (f x); simpl; lia.
Qed.

(** X17. With the adapter as the lookup service, one fallback search collects
    at most fifteen seeds and one resolution scores at most thirty-two
    records, whatever the provider answers. *)
Theorem adapter_seed_budget ag city venue_type cuisine is_outdoor venue_name :
  (length (@collect_seeds MapsApi.services ag
             (@center_of MapsApi.services ag city) is_outdoor
             (fallback_queries city venue_type cuisine is_outdoor) []) ≤ 15)%nat
  ∧ (length (@candidates MapsApi.services ag
               (@center_of MapsApi.services ag city)
               (resolver_queries venue_name city)) ≤ 32)%nat.
Proof.
  split.
  - etrans; [apply (@collect_seeds_budget MapsApi.services) with (k := 4%nat)|].
    + intros q. cbn [places_text_search MapsApi.services].
      by apply (text_search_length q _ _ _ 4).
    + simpl. lia.
  - generalize (@center_of MapsApi.services ag city). intros center.
    unfold candidates, resolver_queries.
    assert (Hone : ∀ q,
      (length (match @places_text_search MapsApi.services q (google_api_key ag)
                       center 20000 8 with
               | Some seeds => omap (@seed_details MapsApi.services ag) seeds
               | None => []
               end) ≤ 8)%nat).
    { intros q. cbn [places_text_search MapsApi.services].
      etrans; [apply omap_length_le|].
      by apply (text_search_length q _ _ _ 8). }
    cbn [flat_map]. rewrite !length_app. cbn [length].
    pose proof (Hone (venue_name ++ utf8 " " ++ city)).
    pose proof (Hone venue_name).
    pose proof (Hone (venue_name ++ utf8 " venue " ++ city)).
    pose proof (Hone (venue_name ++ utf8 " restaurant " ++ city)).
    lia.
Qed.

End AdapterFacts.

Lemma text_search_bounded_witness :
  @MapsApi.places_text_search Fixture.provider (utf8 "pizza Izmir") (utf8 "key")
    None 15000 2 (utf8 "tr")
  = [Script.seed "p1" "Trattoria Roma"]
  ∧ (length (@MapsApi.places_text_search Fixture.provider (utf8 "pizza Izmir")
               (utf8 "key") None 15000 2 (utf8 "tr")) ≤ 2)%nat.
Proof.
  split; [by vm_compute|].
  apply (@text_search_bounded Fixture.provider (utf8 "pizza Izmir") (utf8 "key")
           None 15000 2 (utf8 "tr")).
  lia.
Defined.

Lemma place_details_facts_witness :
  ∃ d, @MapsApi.get_place_details Fixture.provider (utf8 "p1") (utf8 "key")
         (utf8 "tr") = Some d
       ∧ price_text (MapsApi.details_record d) = Some (utf8 "₺₺₺")
       ∧ truthy (maps_url (MapsApi.details_record d)) = true.
Proof.
  eexists. split; [by vm_compute|]. split; [by vm_compute|].
  eapply (@place_details_facts Fixture.provider (utf8 "p1") (utf8 "key")
            (utf8 "tr")).
  by vm_compute.
Defined.

Lemma adapter_cuisine_by_text_witness :
  ∃ det, @get_place_details (@MapsApi.services Fixture.provider) (utf8 "p1")
           (utf8 "key") = Some det
         ∧ @_matches_cuisine Latin.unicode det (utf8 "Italian") = true.
Proof.
  eexists. split; [by vm_compute|].
  eapply (@adapter_cuisine_by_text Latin.unicode Fixture.provider (utf8 "p1")
            (utf8 "key")); [by vm_compute | done |].
  exists (utf8 "trattoria"). split.
  - apply (bool_decide_unpack _). by vm_compute.
  - apply contains_spec. by vm_compute.
Defined.

(** ** The forecast helper *)

Section NearestFacts.
Context {V F : Type} (to_float : V → option F) (to_int : str → option Z).

Lemma two_digits_of_hour (z : Z) :
  (0 ≤ z ≤ 23)%Z → length (WeatherApi.two_digits z) = 2%nat.
Proof.
  intros Hz.
  assert (Hin : z ∈ seqZ 0 24) by (apply elem_of_seqZ; lia).
  revert Hin. generalize z. apply Forall_forall, (bool_decide_unpack _).
  by vm_compute.
Qed.

(** X18. The hour a forecast is read at lies between 0 and 23: an hour in that
    range is kept, one outside is moved to the nearer end, a value that is no
    number reads as 18; so the hour is written with two digits in the time
    that is looked for. *)
Theorem clamp_hour_range (h : option Z) :
  (0 ≤ WeatherApi._clamp_hour h ≤ 23)%Z
  ∧ (∀ z, h = Some z → (0 ≤ z ≤ 23)%Z → WeatherApi._clamp_hour h = z)
  ∧ (∀ z, h = Some z → (z < 0)%Z → WeatherApi._clamp_hour h = 0%Z)
  ∧ (∀ z, h = Some z → (23 < z)%Z → WeatherApi._clamp_hour h = 23%Z)
  ∧ (h = None → WeatherApi._clamp_hour h = 18%Z)
  ∧ length (WeatherApi.two_digits (WeatherApi._clamp_hour h)) = 2%nat.
Proof.
  assert (Hrange : (0 ≤ WeatherApi._clamp_hour h ≤ 23)%Z)
    by (unfold WeatherApi._clamp_hour; lia).
  split; [done|].
  repeat split; try (intros z -> Hz; unfold WeatherApi._clamp_hour; simpl; lia).
  - by intros ->.
  - by apply two_digits_of_hour.
Qed.

Lemma exact_index_spec (target : str) (n : nat) : ∀ times i k,
  WeatherApi.exact_index target n i times = Some k →
  ∃ j, k = (i + j)%nat ∧ times !! j = Some target ∧ (k < n)%nat.
Proof.
  induction times as [|t r IH]; intros i k; cbn [WeatherApi.exact_index];
    [done|].
  destruct (bool_decide_reflect (t = target)) as [->|Hne]; cbn [andb].
  - destruct (Nat.ltb_spec i n) as [Hlt|Hge].
    + intros [= <-]. exists 0%nat. split; [lia | done].
    + intros (j & -> & Hj & Hk)%IH. exists (S j). split; [lia | done].
  - intros (j & -> & Hj & Hk)%IH. exists (S j). split; [lia | done].
Qed.

Lemma nearer_fold (day_str : str) (target : Z) (n : nat) :
  ∀ (its : list (nat * str)) (best : option nat * Z),
  let out := foldl (WeatherApi.nearer to_int day_str target n) best its in
  (out = best
   ∨ ∃ i t hh, (i, t) ∈ its ∧ eligible to_int day_str n i t hh
       ∧ out = (Some i, Z.abs (hh - target)))
  ∧ (out.2 ≤ best.2)%Z
  ∧ ∀ i t hh, (i, t) ∈ its → eligible to_int day_str n i t hh →
      (out.2 ≤ Z.abs (hh - target))%Z.
Proof.
  induction its as [|[i t] its IH]; intros best out.
  { split; [by left|]. split; [done|]. by intros i t hh ?%elem_of_nil. }
  subst out. cbn [foldl].
  set (best' := WeatherApi.nearer to_int day_str target n best (i, t)).
  destruct (IH best') as (Hout & Hle & Hmin).
  assert (Hstep : (best' = best
                   ∨ ∃ hh, eligible to_int day_str n i t hh
                       ∧ best' = (Some i, Z.abs (hh - target)))
                  ∧ (best'.2 ≤ best.2)%Z
                  ∧ ∀ hh, eligible to_int day_str n i t hh →
                      (best'.2 ≤ Z.abs (hh - target))%Z).
  { subst best'. unfold WeatherApi.nearer, eligible.
    destruct (startswith day_str t); cbn [negb];
      [|split; [by left|]; split; [done|]; by intros hh (? & _)].
    destruct (to_int (take 2 (drop 11 t))) as [hh|];
      [|split; [by left|]; split; [done|]; by intros hh (_ & ? & _)].
    destruct (Z.ltb_spec (Z.abs (hh - target)) best.2) as [Hlt|Hge];
      destruct (Nat.ltb_spec i n) as [Hi|Hi]; cbn [andb snd].
    - split; [right; by exists hh|]. split; [lia|].
      intros hh' (_ & [= <-] & _). lia.
    - split; [by left|]. split; [done|]. intros hh' (_ & _ & ?). lia.
    - split; [by left|]. split; [done|]. intros hh' (_ & [= <-] & _). lia.
    - split; [by left|]. split; [done|]. intros hh' (_ & _ & ?). lia. }
  destruct Hstep as (Hbest & Hle' & Hmin').
  split; [|split].
  - destruct Hout as [->|(j & u & hh & Hin & He & ->)].
    + destruct Hbest as [->|(hh & He & ->)]; [by left|].
      right. exists i, t, hh. split; [left | done].
    + right. exists j, u, hh. split; [by right | done].
  - lia.
  - intros j u hh [[= -> ->]|Hin]%elem_of_cons He.
    + specialize (Hmin' hh He). lia.
    + by apply (Hmin j u hh).
Qed.

(** X19. A value read by [_nearest_hour_value] stands at the index of a time
    that is the time looked for, or that is on the day with an hour no farther
    from the target hour than that of any other time on the day with a value
    at its index. *)
Theorem nearest_hour_sound (day_str : str) (target_hour_local : Z)
    (times : list str) (values : list V) (x : F) :
  WeatherApi._nearest_hour_value to_float to_int day_str target_hour_local
    times values = Some x →
  ∃ i t v,
    times !! i = Some t ∧ values !! i = Some v ∧ to_float v = Some x
    ∧ (t = day_str ++ utf8 "T" ++ WeatherApi.two_digits target_hour_local
           ++ utf8 ":00"
       ∨ ∃ hh, eligible to_int day_str (length values) i t hh
           ∧ ∀ j u hh', times !! j = Some u →
               eligible to_int day_str (length values) j u hh' →
               (Z.abs (hh - target_hour_local)
                ≤ Z.abs (hh' - target_hour_local))%Z).
Proof.
  unfold WeatherApi._nearest_hour_value.
  destruct times as [|t0 ts]; [done|]. destruct values as [|v0 vs]; [done|].
  generalize (t0 :: ts) (v0 :: vs). clear t0 ts v0 vs. intros times values.
  generalize (day_str ++ utf8 "T" ++ WeatherApi.two_digits target_hour_local
              ++ utf8 ":00"). intros target.
  destruct (WeatherApi.exact_index target (length values) 0 times)
    as [k|] eqn:Ek.
  - apply exact_index_spec in Ek as (j & -> & Hj & _).
    intros (v & Hv & Hx)%bind_Some. exists j, target, v.
    split; [done|]. split; [done|]. split; [done|]. by left.
  - destruct (nearer_fold day_str target_hour_local (length values)
                (imap (λ i t, (i, t)) times) (None, 1000000000%Z))
      as (Hout & _ & Hmin).
    destruct Hout as [Hout|(i & t & hh & Hin & He & Hout)];
      rewrite Hout in Hmin |- *; [done|].
    cbn [fst snd] in *.
    apply elem_of_lookup_imap_1 in Hin as (i' & t' & [= <- <-] & Hi).
    intros (v & Hv & Hx)%bind_Some. exists i, t, v.
    split; [done|]. split; [done|]. split; [done|]. right. exists hh.
    split; [done|]. intros j u hh' Hj He'.
    apply (Hmin j u hh'); [|done].
    by apply (elem_of_lookup_imap_2 (λ i t, (i, t))).
Qed.

End NearestFacts.

Lemma nearest_hour_sound_witness :
  let times := map utf8 [ "2025-06-01T09:00"; "2025-06-01T15:00";
                          "2025-06-01T21:00"; "2025-06-02T18:00" ]%string in
  let values := [Some 19%Z; None; Some 23%Z; Some 30%Z] in
  WeatherApi._nearest_hour_value id two_digit_hour (utf8 "2025-06-01") 19 times
    values = Some 23%Z
  ∧ ∃ i t, times !! i = Some t ∧ values !! i = Some (Some 23%Z)
           ∧ startswith (utf8 "2025-06-01") t = true.
Proof.
  intros times values.
  assert (Hrun : WeatherApi._nearest_hour_value id two_digit_hour
                   (utf8 "2025-06-01") 19 times values = Some 23%Z)
    by (by vm_compute).
  split; [exact Hrun|].
  destruct (@nearest_hour_sound (option Z) Z id two_digit_hour
              (utf8 "2025-06-01") 19 times values 23%Z Hrun)
    as (i & t & v & Ht & Hv & Hx & Hcase).
  exists i, t. split; [exact Ht|]. split; [by rewrite Hv, <- Hx|].
  destruct Hcase as [->|(hh & (Hday & _) & _)]; [by vm_compute | exact Hday].
Defined.

(** ** The page *)

Section PageFacts.
Context `{Unicode}.

(** X20. The city filter of the page never hides every venue: it returns a
    part of the list in the list's order, empty only for an empty list; what
    it returns is the whole list or holds only venues whose address or name
    contains the city, both folded; without a city it returns the list; and
    filtering twice changes nothing. *)
Theorem city_filter_facts (vicinity : PlaceDetails → option str)
    (suggestions : list PlaceDetails) (city_name : option str) :
  let kept := App._filter_suggestions_by_city vicinity suggestions city_name in
  let goal := casefold (or_empty city_name) in
  kept `sublist_of` suggestions
  ∧ (kept = [] ↔ suggestions = [])
  ∧ (kept = suggestions
     ∨ Forall (λ v,
         occurs_in goal
           (casefold (App.first_filled (formatted_address v) (vicinity v)))
         ∨ occurs_in goal (casefold (or_empty (name v)))) kept)
  ∧ (goal = [] → kept = suggestions)
  ∧ App._filter_suggestions_by_city vicinity kept city_name = kept.
Proof.
  intros kept goal. subst kept. unfold App._filter_suggestions_by_city.
  fold goal. destruct goal as [|g goal'] eqn:Eg; cbn [nonempty negb].
  { repeat split; (done || by left). }
  rewrite <- Eg.
  set (P := λ v : PlaceDetails,
         contains (casefold (App.first_filled (formatted_address v) (vicinity v)))
           goal
         || contains (casefold (or_empty (name v))) goal = true).
  destruct (filter P suggestions) as [|v l] eqn:Ef.
  { split; [done|]. split; [done|]. split; [by left|].
    split; [intros ?; congruence|]. by rewrite Ef. }
  rewrite <- Ef. split; [apply sublist_filter|]. split; [|split; [|split]].
  - rewrite Ef. split; [done|]. intros ->. by rewrite filter_nil in Ef.
  - right. apply Forall_forall. intros x [Hx _]%list_elem_of_filter.
    unfold P in Hx. apply orb_true_iff in Hx as [Hx|Hx];
      apply contains_spec in Hx; [by left | by right].
  - intros ?. congruence.
  - rewrite list_filter_filter_l by done. by rewrite Ef.
Qed.

Lemma ascii_table_keeps (c : char) :
  (c < 128)%N → table_get App.ascii_pairs c = c.
Proof.
  intros Hc. unfold App.ascii_pairs. cbn [table_get].
  repeat (match goal with |- context [(?k =? c)%N] =>
            destruct (N.eqb_spec k c); [lia|] end).
  done.
Qed.

Lemma ascii_table_maps (c : char) :
  c ∈ App.ascii_pairs.*1 → (table_get App.ascii_pairs c < 128)%N.
Proof.
  revert c. apply Forall_forall, (bool_decide_unpack _). by vm_compute.
Qed.

Lemma Forall_strip (P : char → Prop) (s : str) :
  Forall P s → Forall P (strip s).
Proof.
  destruct (strip_occurs s) as (pre & post & Heq). rewrite Heq at 1.
  intros [_ [Hs _]%Forall_app]%Forall_app. done.
Qed.

(** X21. The ASCII form of a text holds ASCII characters only and is no longer
    than the trimmed text; the twelve Turkish letters of the table are written
    with their base letters, so that a text of ASCII characters and those
    letters keeps its trimmed length, and a text of ASCII characters is only
    trimmed. *)
Theorem normalize_tr_ascii_facts (s : str) :
  let out := App._normalize_tr_ascii (Some s) in
  Forall (λ c, (c < 128)%N) out
  ∧ (length out ≤ length (strip s))%nat
  ∧ (Forall (λ c, (c < 128)%N ∨ c ∈ App.ascii_pairs.*1) s →
     out = map (table_get App.ascii_pairs) (strip s))
  ∧ (Forall (λ c, (c < 128)%N) s → out = strip s).
Proof.
  intros out. subst out. unfold App._normalize_tr_ascii, App.ascii_only.
  split; [|split; [|split]].
  - apply Forall_forall. by intros c [Hc _]%list_elem_of_filter.
  - etrans; [apply length_filter|]. by rewrite length_map.
  - intros Hs%Forall_strip. induction Hs as [|c r Hc Hr IH]; [done|].
    cbn [map]. rewrite filter_cons_True; [by rewrite IH|].
    destruct Hc as [Hc|Hc]; [by rewrite ascii_table_keeps | by apply ascii_table_maps].
  - intros Hs%Forall_strip. induction Hs as [|c r Hc Hr IH]; [done|].
    cbn [map]. rewrite ascii_table_keeps by done.
    rewrite filter_cons_True by done. by rewrite IH.
Qed.

Lemma rstrip_length (s : str) : (length (rstrip s) ≤ length s)%nat.
Proof.
  unfold rstrip. rewrite length_rev.
  destruct (dropwhile_suffix isspace (rev s)) as [pre Hpre].
  apply (f_equal length) in Hpre. rewrite length_app, length_rev in Hpre. lia.
Qed.

Lemma shorten_length (limit : Z) (text : str) :
  (0 ≤ limit)%Z →
  (Z.of_nat (length (App.shorten limit text)) ≤ limit + 1)%Z.
Proof.
  intros Hl. unfold App.shorten.
  pose proof (slice_to_length limit text Hl) as Hcut.
  revert Hcut. generalize (slice_to limit text). intros cut Hcut.
  match goal with |- context [(100 <? ?b)%Z] => generalize b end. intros b.
  destruct (100 <? b)%Z; rewrite length_app; cbn [App.ellipsis length].
  - pose proof (rstrip_length (slice_to (b + 1) cut)).
    pose proof (sublist_length _ _ (slice_to_sublist (b + 1) cut)). lia.
  - pose proof (rstrip_length cut). lia.
Qed.

(** X22. What the limits do to a payload. A text comes back as a text, of at
    most [max_chars] characters and the ellipsis when [max_chars] is positive,
    and as the first bullets alone decide when it is 0; a list comes back as
    its first [max_bullets] items, followed by the ellipsis when items were
    dropped; anything else, the venue agent's response among them, comes back
    as it is. *)
Theorem enforce_limits_bounds {A} (p : App.payload A) (max_bullets max_chars : Z) :
  match p, App._enforce_limits p max_bullets max_chars with
  | App.PText s, App.PText t =>
    ((0 < max_chars)%Z → (Z.of_nat (length t) ≤ max_chars + 1)%Z)
    ∧ (max_chars = 0%Z → t = App._first_n_bullets s max_bullets 0)
  | App.PList l, App.PList r =>
    ((0 ≤ max_bullets)%Z → (Z.of_nat (length r) ≤ max_bullets + 1)%Z)
    ∧ ((Z.of_nat (length l) ≤ max_bullets)%Z → r = l)
    ∧ ((0 ≤ max_bullets < Z.of_nat (length l))%Z →
       r = take (Z.to_nat max_bullets) l ++ [App.Text App.ellipsis])
  | App.PAny a, App.PAny b => a = b
  | _, _ => False
  end.
Proof.
  destruct p as [s|l|a]; cbn [App._enforce_limits]; [| |done].
  - split.
    + intros Hpos. unfold App.over_limit.
      destruct (Z.eqb_spec max_chars 0) as [->|_]; [lia|]. cbn [negb andb].
      destruct (Z.ltb_spec max_chars
                  (Z.of_nat (length (App._first_n_bullets s max_bullets max_chars))));
        [apply shorten_length|]; lia.
    + by intros ->.
  - split; [|split].
    + intros Hb. rewrite length_app.
      pose proof (slice_to_length max_bullets l Hb).
      destruct (_ <? _)%Z; simpl; lia.
    + intros Hlen. destruct (Z.ltb_spec max_bullets (Z.of_nat (length l))); [lia|].
      rewrite app_nil_r. unfold slice_to.
      destruct (Z.leb_spec 0 max_bullets); [|lia].
      apply take_ge. lia.
    + intros [Hb Hlen]. destruct (Z.ltb_spec max_bullets (Z.of_nat (length l)));
        [|lia].
      unfold slice_to. by destruct (Z.leb_spec 0 max_bullets); [|lia].
Qed.

Lemma sort_fold (n : Z) (lines : list str) : ∀ bullets rest,
  ∃ count,
    foldl (App.sort_line n) (bullets, length bullets, rest) lines
    = (bullets ++ take (Z.to_nat n - length bullets)
                    (filter (λ ln, App.is_bullet ln = true) lines),
       count,
       rest ++ filter (λ ln, App.is_bullet ln = false) lines).
Proof.
  induction lines as [|ln lines IH]; intros bullets rest.
  { exists (length bullets). cbn [foldl]. rewrite filter_nil, take_nil.
    by rewrite !app_nil_r. }
  cbn [foldl App.sort_line]. destruct (App.is_bullet ln) eqn:Eb.
  - rewrite (filter_cons_True (λ ln, App.is_bullet ln = true)) by done.
    rewrite (filter_cons_False (λ ln, App.is_bullet ln = false)) by congruence.
    destruct (Z.ltb_spec (Z.of_nat (length bullets)) n) as [Hlt|Hge].
    + assert (Hlen : S (length bullets) = length (bullets ++ [ln]))
        by (rewrite length_app; simpl; lia).
      rewrite Hlen. destruct (IH (bullets ++ [ln]) rest) as [count ->].
      exists count. rewrite <- Hlen.
      replace (Z.to_nat n - length bullets)%nat
        with (S (Z.to_nat n - S (length bullets))) by lia.
      cbn [take]. by rewrite <- app_assoc.
    + destruct (IH bullets rest) as [count ->]. exists count.
      by replace (Z.to_nat n - length bullets)%nat with 0%nat by lia.
  - rewrite (filter_cons_False (λ ln, App.is_bullet ln = true)) by congruence.
    rewrite (filter_cons_True (λ ln, App.is_bullet ln = false)) by done.
    destruct (IH bullets (rest ++ [ln])) as [count ->]. exists count.
    by rewrite <- app_assoc.
Qed.

(** X23. Without a limit on the plain text, the first bullets of a text are
    its lines that are no bullets, joined and trimmed, then a blank line and
    the first [n] of its bullet lines, in the order of the text. *)
Theorem first_n_bullets_keeps (md : str) (n : Z) :
  let lines := splitlines md in
  let plain := strip (join [10] (filter (λ ln, App.is_bullet ln = false) lines)) in
  let bullets :=
    take (Z.to_nat n) (filter (λ ln, App.is_bullet ln = true) lines) in
  App._first_n_bullets md n 0
  = strip (join [10; 10]
             ((match plain with [] => [] | _ => [plain] end)
              ++ (match bullets with [] => [] | _ => [join [10] bullets] end))).
Proof.
  intros lines plain bullets. unfold App._first_n_bullets. fold lines.
  destruct (sort_fold n lines [] []) as [count Hfold].
  change (length (@nil str)) with 0%nat in Hfold. rewrite Hfold.
  rewrite Nat.sub_0_r. cbn [app]. fold plain. fold bullets.
  unfold App.over_limit. cbn [Z.eqb negb andb]. done.
Qed.

End PageFacts.

(** ** Extractor: what a name cannot hold *)

Section ExtractorClean.
Context `{Unicode}.

Lemma literals_sublist (p : pattern) (s : str) : ∀ skip,
  literals (scan p skip s) `sublist_of` s.
Proof.
  induction s as [|c r IH]; intros skip; [done|]. cbn [scan].
  destruct skip as [|k]; [|by apply sublist_cons].
  destruct (p (c :: r)) as [[g len]|].
  - change (literals (Hit g :: scan p (pred len) r))
      with (literals (scan p (pred len) r)). by apply sublist_cons.
  - change (literals (Lit c :: scan p 0 r)) with (c :: literals (scan p 0 r)).
    by apply sublist_skip.
Qed.

Lemma dropwhile_notclose (r : str) :
  41%N ∈ r → ∃ r', dropwhile notclose r = 41%N :: r'.
Proof.
  induction r as [|a r IH]; [by intros ?%elem_of_nil|].
  cbn [dropwhile]. unfold notclose at 1.
  destruct (N.eqb_spec a 41) as [->|Hne]; cbn [negb]; [by exists r|].
  intros [?|Hin]%elem_of_cons; [done | by apply IH].
Qed.

Lemma parenthetical_opens (r : str) :
  41%N ∈ r → parenthetical (40%N :: r) ≠ None.
Proof.
  intros (r' & Hr')%dropwhile_notclose. unfold parenthetical.
  change (dropwhile isspace (40%N :: r)) with (40%N :: r). cbv beta iota zeta.
  by rewrite Hr'.
Qed.

(** After the removal no opening parenthesis is followed by a closing
    one. *)
Lemma sub_no_pair (s : str) : ∀ skip a b c,
  literals (scan parenthetical skip s) ≠ a ++ 40%N :: b ++ 41%N :: c.
Proof.
  induction s as [|c0 r IH]; intros skip a b c; [by destruct a|].
  cbn [scan]. destruct skip as [|k]; [|apply IH].
  destruct (parenthetical (c0 :: r)) as [[g len]|] eqn:Ep.
  - change (literals (Hit g :: scan parenthetical (pred len) r))
      with (literals (scan parenthetical (pred len) r)). apply IH.
  - change (literals (Lit c0 :: scan parenthetical 0 r))
      with (c0 :: literals (scan parenthetical 0 r)).
    destruct a as [|a0 a]; intros [= -> Hrest].
    + apply (parenthetical_opens r); [|done].
      eapply elem_of_sublist; [|apply (literals_sublist parenthetical r 0)].
      rewrite Hrest. apply elem_of_app. right. left.
    + by apply IH in Hrest.
Qed.

(** X12. No name the extractor returns holds a star, or an opening parenthesis
    with a closing one anywhere after it. *)
Theorem extractor_names_clean (text : option str) (n : str) :
  n ∈ _extract_venue_names_from_text text →
  (42%N ∉ n) ∧ ¬ (∃ a b c, n = a ++ 40%N :: b ++ 41%N :: c).
Proof.
  rewrite extract_take_kept. intros Hn.
  assert (Hc : n ∈ candidate_names text).
  { eapply elem_of_sublist; [exact Hn|].
    etrans; [apply sublist_take | apply kept_from_sublist]. }
  destruct text as [t|]; [|by apply elem_of_nil in Hc].
  apply candidate_names_sources in Hc as (m & Hm%name_sources_bold_span & -> & _).
  destruct Hm as (_ & Hstar & _).
  destruct (strip_occurs (sub_empty parenthetical m)) as (pre & post & Heq).
  fold (clean_name m) in Heq. split.
  - intros Hin.
    assert (Hsub : 42%N ∈ sub_empty parenthetical m).
    { rewrite Heq. apply elem_of_app. right. apply elem_of_app. by left. }
    eapply elem_of_sublist in Hsub; [|apply literals_sublist].
    rewrite Forall_forall in Hstar. by apply (Hstar 42%N).
  - intros (a & b & c & Hpair). rewrite Hpair in Heq.
    apply (sub_no_pair m 0 (pre ++ a) b (c ++ post)).
    unfold sub_empty in Heq. rewrite Heq.
    rewrite <- !app_assoc. cbn [app]. by rewrite <- !app_assoc.
Qed.

End ExtractorClean.

Lemma extractor_names_clean_witness :
  utf8 "CafeRoma"
  ∈ @_extract_venue_names_from_text Latin.unicode
      (Some (utf8 "1. **Cafe (Old Town) Roma**: cosy."))
  ∧ (42%N ∉ utf8 "CafeRoma").
Proof.
  assert (Hin : utf8 "CafeRoma"
                ∈ @_extract_venue_names_from_text Latin.unicode
                    (Some (utf8 "1. **Cafe (Old Town) Roma**: cosy.")))
    by (vm_compute; left).
  split; [exact Hin|].
  exact (proj1 (@extractor_names_clean Latin.unicode _ _ Hin)).
Defined.

(** ** Fallback: which records it keeps *)

Section FallbackOrder.
Context `{Unicode} `{Places}.

Lemma accept_seeds_take ag city cuisine is_outdoor seeds : ∀ results,
  accept_seeds ag city cuisine is_outdoor seeds results
  = results
    ++ take (3 - length results)
         (filter (λ det, _in_city (formatted_address det) city
                         && (is_outdoor || _matches_cuisine det cuisine) = true)
            (omap (seed_details ag) seeds)).
Proof.
  induction seeds as [|s ss IH]; intros results.
  { cbn [accept_seeds omap list_omap]. by rewrite filter_nil, take_nil, app_nil_r. }
  rewrite accept_seeds_cons.
  destruct (Nat.leb_spec 3 (length results)) as [Hfull|Hroom].
  { replace (3 - length results)%nat with 0%nat by lia.
    by rewrite take_0, app_nil_r. }
  cbn [omap list_omap]. destruct (seed_details ag s) as [det|]; [|apply IH].
  assert (Hkeep : negb is_outdoor && nonempty cuisine
                  && negb (_matches_cuisine det cuisine)
                  = negb (is_outdoor || _matches_cuisine det cuisine)).
  { by destruct is_outdoor, cuisine. }
  rewrite Hkeep. clear Hkeep.
  destruct (_in_city (formatted_address det) city) eqn:Ec; cbn [negb].
  - destruct (is_outdoor || _matches_cuisine det cuisine) eqn:Em; cbn [negb].
    + rewrite filter_cons_True by (by rewrite Ec, Em).
      rewrite IH, length_app. cbn [length].
      replace (3 - length results)%nat
        with (S (3 - (length results + 1))) by lia.
      cbn [take]. by rewrite <- app_assoc.
    + rewrite filter_cons_False by (by rewrite Ec, Em). apply IH.
  - rewrite filter_cons_False by (by rewrite Ec). apply IH.
Qed.

(** X5. With a lookup key, the fallback returns the first three of the
    collected seeds' records, in the order of the seeds, whose address
    contains the city and which, unless the search is outdoor, pass the
    cuisine matcher: no such record is passed over while fewer than three are
    found. *)
Theorem fallback_first_three ag city venue_type audience cuisine is_outdoor :
  google_api_key ag ≠ [] →
  _get_fallback_venues ag city venue_type audience cuisine is_outdoor
  = take 3
      (filter (λ det, _in_city (formatted_address det) city
                      && (is_outdoor || _matches_cuisine det cuisine) = true)
         (omap (seed_details ag)
            (collect_seeds ag (center_of ag city) is_outdoor
               (fallback_queries city venue_type cuisine is_outdoor) []))).
Proof.
  intros Hk%nonempty_true. unfold _get_fallback_venues. rewrite Hk.
  cbn [negb]. by rewrite accept_seeds_take.
Qed.

End FallbackOrder.

Lemma fallback_first_three_witness :
  @_get_fallback_venues Latin.unicode Script.only_diner Script.agent
    (utf8 "Lyon") (utf8 "Indoor") (utf8 "adults") [] false
  = [Script.diner; Script.diner; Script.diner].
Proof.
  rewrite (@fallback_first_three Latin.unicode Script.only_diner Script.agent
             (utf8 "Lyon") (utf8 "Indoor") (utf8 "adults") [] false)
    by done.
  by vm_compute.
Defined.

Lemma clamp_hour_range_witness : WeatherApi._clamp_hour (Some 30%Z) = 23%Z.
Proof.
  destruct (clamp_hour_range (Some 30%Z)) as (_ & _ & _ & Hhigh & _).
  apply (Hhigh 30%Z); [done | lia].
Defined.

Lemma city_filter_facts_witness :
  @App._filter_suggestions_by_city Latin.unicode (λ _, None)
    [Script.le_jardin; Script.bistro] (Some (utf8 "Marseille")) ≠ [].
Proof.
  intros Hkept.
  destruct (@city_filter_facts Latin.unicode (λ _, None)
              [Script.le_jardin; Script.bistro] (Some (utf8 "Marseille")))
    as (_ & Hempty & _).
  by apply Hempty in Hkept.
Defined.

Lemma normalize_tr_ascii_facts_witness :
  App._normalize_tr_ascii (Some (utf8 " Kadıköy ")) = utf8 "Kadikoy".
Proof.
  destruct (normalize_tr_ascii_facts (utf8 " Kadıköy ")) as (_ & _ & Hletters & _).
  rewrite Hletters; [by vm_compute|].
  apply (bool_decide_unpack _). by vm_compute.
Defined.

Lemma enforce_limits_bounds_witness :
  @App._enforce_limits unit
    (App.PList [App.Text (utf8 "cake"); App.Text (utf8 "candles");
                App.Text (utf8 "balloons")]) 2 0
  = App.PList [App.Text (utf8 "cake"); App.Text (utf8 "candles");
               App.Text App.ellipsis].
Proof.
  pose proof (@enforce_limits_bounds unit
                (App.PList [App.Text (utf8 "cake"); App.Text (utf8 "candles");
                            App.Text (utf8 "balloons")]) 2 0) as Hbounds.
  cbn [App._enforce_limits] in Hbounds. destruct Hbounds as (_ & _ & Hcut).
  cbn [App._enforce_limits]. rewrite Hcut; [done | simpl; lia].
Defined.
